(** * A shallow embedding of the steinarvk/midi Standard MIDI File codec

    The Go sources are embedded function by function.  Numeric types are
    integers in [Z] with the wrap-around of the Go type written out; a
    [[]byte] whose nil-ness the code can observe is an [option (list Z)];
    an [io.Reader] over an in-memory byte sequence is the list of bytes
    that are still unread. *)

From Equations Require Import Equations.
From Stdlib Require Import ZArith List Bool Lia String.
Import ListNotations.
Open Scope Z_scope.

Set Warnings "-register-all".

(* ===================================================================== *)
(** ** Go integer types *)
(* ===================================================================== *)

Module Go.

(** Conversion to [uint64]: reduction modulo 2^64. *)
Definition uint64 (z : Z) : Z := z mod 2 ^ 64.

(** Conversion to [int64]: two's complement reading of the low 64 bits. *)
Definition int64 (z : Z) : Z := (z + 2 ^ 63) mod 2 ^ 64 - 2 ^ 63.

(** [int] is 64 bits wide on the platforms the package is built for. *)
Definition int (z : Z) : Z := int64 z.

(** Conversion to [uint32], [uint16], [int16] and [byte]. *)
Definition uint32 (z : Z) : Z := z mod 2 ^ 32.
Definition uint16 (z : Z) : Z := z mod 2 ^ 16.
Definition int16 (z : Z) : Z := (z + 2 ^ 15) mod 2 ^ 16 - 2 ^ 15.
Definition byte (z : Z) : Z := z mod 256.

Definition is_byte (b : Z) : Prop := 0 <= b < 256.
Definition is_byteb (b : Z) : bool := (0 <=? b) && (b <? 256).

(** A byte slice that may be nil.  [None] is the nil slice. *)
Definition slice := option (list Z).

Definition len (s : slice) : Z :=
  match s with
  | None => 0
  | Some l => Z.of_nat (List.length l)
  end.

(** [append(s, b)]: the result is never nil. *)
Definition append1 (s : slice) (b : Z) : slice :=
  match s with
  | None => Some [b]
  | Some l => Some (l ++ [b])
  end.

(** The elements of a slice, as ranged over by [s...] or [range s]. *)
Definition elems (s : slice) : list Z :=
  match s with
  | None => []
  | Some l => l
  end.

(** Big-endian layout used by [encoding/binary]. *)
Definition be16 (z : Z) : list Z := [Z.shiftr z 8 mod 256; z mod 256].
Definition be32 (z : Z) : list Z :=
  [Z.shiftr z 24 mod 256; Z.shiftr z 16 mod 256; Z.shiftr z 8 mod 256; z mod 256].

Definition of_be16 (b0 b1 : Z) : Z := Z.lor (Z.shiftl b0 8) b1.
Definition of_be32 (b0 b1 b2 b3 : Z) : Z :=
  Z.lor (Z.lor (Z.lor (Z.shiftl b0 24) (Z.shiftl b1 16)) (Z.shiftl b2 8)) b3.

End Go.

(* ===================================================================== *)
(** ** Errors *)
(* ===================================================================== *)

(** The package builds its errors with [fmt.Errorf] and [errors.New]; every
    construction site is a constructor here, named after the error kind it
    reports, and carrying the values the message is formatted from. *)
Inductive error : Type :=
| EOF                                              (* io.EOF *)
| UnexpectedEOF                                    (* io.ErrUnexpectedEOF *)
| ShortRead (want : list Z) (n : Z) (err : option error)
                                                   (* expected %q, read failed *)
| UnexpectedLiteral (want got : list Z)            (* expected %q, read %q *)
| ShortChunk (length n : Z) (err : option error)   (* expected chunk of length *)
| ReadError (err : error)                          (* read error: %v *)
| TruncatedVarint                                  (* EOF in the middle of varint *)
| EOFInEvent                                       (* EOF in the middle of event *)
| UnknownRunningStatus (status : Z)                (* no MIDI event spec *)
| RunningStatusInterrupted (from to : Z) (partial : list Z)
| MidiPayloadOverflow (status dataLen : Z) (data : list Z)
| AfterEventBytes (bytesFed : Z) (err : error)     (* after consuming %d event byte(s) *)
| TimeDeltaError (err : error)                     (* error reading time-delta *)
| EventError (err : error)                         (* error parsing event *)
| MidiPayloadLengthMismatch (type want got : Z) (data : list Z)
| HeaderError (err : error)                        (* error parsing header *)
| UnknownChunk (err : error)                       (* saw non-MIDI track *)
| TrackError (i : Z) (err : error)                 (* error parsing track %d *)
| NoMidiTracks (first : option error)              (* no MIDI tracks found *)
| WithContext (total : Z) (last : list Z) (err : error)
                                                   (* after %d bytes (last: ...) *)
| EmptySysex                                       (* empty SysexEvent *)
| EncodingUnsupported                              (* encoding not implemented *)
| EncodeEventError (i : Z) (err : error)           (* error encoding event #%d *)
| EncodeTrackError (i : Z) (err : error)           (* error encoding track #%d *)
| SmpteUnsupported (division : Z)
| NoSuchTrack (trackNo n : Z)
| CallbackError (i : Z) (err : error).

Inductive result (A : Type) : Type :=
| Ok (a : A)
| Err (e : error).

Arguments Ok {A} a.
Arguments Err {A} e.

Definition is_ok {A} (r : result A) : bool :=
  match r with Ok _ => true | Err _ => false end.

(* ===================================================================== *)
(** ** Byte sources *)
(* ===================================================================== *)

(** A reader over an in-memory byte sequence (a [bytes.Buffer], or a file
    read to its end) is the list of unread bytes.  A computation that reads
    returns its result and the bytes left. *)
Definition Reader (A : Type) : Type := list Z -> result A * list Z.

Definition ret {A} (a : A) : Reader A := fun s => (Ok a, s).
Definition fail {A} (e : error) : Reader A := fun s => (Err e, s).
Definition bind {A B} (m : Reader A) (k : A -> Reader B) : Reader B :=
  fun s => match m s with
           | (Ok a, s') => k a s'
           | (Err e, s') => (Err e, s')
           end.

Declare Scope reader_scope.
Delimit Scope reader_scope with reader.
Notation "x <- m ;; k" := (bind m (fun x => k))
  (at level 61, m at next level, right associativity) : reader_scope.

(** [r.Read(buf)] with [len(buf) = n] on a buffer: up to [n] bytes are
    delivered; an empty buffer reports [io.EOF] unless [n = 0]. *)
Definition Read (n : nat) (s : list Z) : (list Z * option error) * list Z :=
  match s, n with
  | [], S _ => (([], Some EOF), [])
  | _, _ => ((firstn n s, None), skipn n s)
  end.

(** [io.ReadFull(r, buf)] as [binary.Read] calls it: all [n] bytes, or
    [io.EOF] when none could be read and [io.ErrUnexpectedEOF] when only
    some could. *)
Definition ReadFull (n : nat) : Reader (list Z) := fun s =>
  if (n <=? List.length s)%nat then (Ok (firstn n s), skipn n s)
  else match s with
       | [] => (Err EOF, [])
       | _ => (Err UnexpectedEOF, [])
       end.

(** [limitreader.New(r, n)]: a sub-computation sees a window of at most
    [n] bytes; what it leaves unread in the window stays in the source. *)
Definition limitreader {A} (n : nat) (m : Reader A) : Reader A := fun s =>
  let (r, w) := m (firstn n s) in (r, w ++ skipn n s).

(* ===================================================================== *)
(** ** Variable-length quantities *)
(* ===================================================================== *)

(** Number of significant bits, the measure of the first loop of
    [encodeVarint]. *)
Definition bitlen (n : Z) : nat :=
  match n with
  | Zpos p => Pos.size_nat p
  | _ => O
  end.

Lemma bitlen_div2_le (z : Z) : (bitlen (Z.div2 z) <= bitlen z)%nat.
Proof. destruct z as [|q|q]; simpl; try lia. destruct q; simpl; lia. Qed.

Lemma bitlen_div2_lt (z : Z) : 0 < z -> (bitlen (Z.div2 z) < bitlen z)%nat.
Proof. destruct z as [|q|q]; try lia. intros _. destruct q; simpl; lia. Qed.

Lemma bitlen_shiftr7 (n : Z) : 0 < n -> (bitlen (Z.shiftr n 7) < bitlen n)%nat.
Proof.
  intros Hn.
  change (Z.shiftr n 7)
    with (Z.div2 (Z.div2 (Z.div2 (Z.div2 (Z.div2 (Z.div2 (Z.div2 n))))))).
  pose proof (bitlen_div2_lt n Hn).
  pose proof (bitlen_div2_le (Z.div2 n)).
  pose proof (bitlen_div2_le (Z.div2 (Z.div2 n))).
  pose proof (bitlen_div2_le (Z.div2 (Z.div2 (Z.div2 n)))).
  pose proof (bitlen_div2_le (Z.div2 (Z.div2 (Z.div2 (Z.div2 n))))).
  pose proof (bitlen_div2_le (Z.div2 (Z.div2 (Z.div2 (Z.div2 (Z.div2 n)))))).
  pose proof (bitlen_div2_le (Z.div2 (Z.div2 (Z.div2 (Z.div2 (Z.div2 (Z.div2 n))))))).
  lia.
Qed.

(** First loop of [encodeVarint]: the septets of [n], least significant
    first ([rrv]). *)
Equations? septets (n : Z) : list Z by wf (bitlen n) lt :=
  septets n with Z_gt_dec n 0 => {
    | left _ := Go.byte (Z.land n 0x7f) :: septets (Z.shiftr n 7);
    | right _ := [] }.
Proof. apply bitlen_shiftr7. lia. Qed.

(** Second loop of [encodeVarint]: index [i] runs from [len(rrv)-1] down
    to 0; every byte but the one at index 0 gets its high bit set. *)
Fixpoint emit_septets (rrv : list Z) (i : nat) (rv : list Z) : list Z :=
  match i with
  | O => rv
  | S j =>
      let b := nth j rrv 0 in
      let b := if (j =? 0)%nat then b else Z.lor b 0x80 in
      emit_septets rrv j (rv ++ [b])
  end.

Definition encodeVarint (n : Z) : list Z :=
  if n =? 0 then [0]
  else let rrv := septets n in emit_septets rrv (List.length rrv) [].

(** [readVarint]: the loop reads one byte at a time; [rv] is the [uint64]
    accumulator.  On [io.EOF] the error is replaced only when [rv != 0]. *)
Fixpoint readVarint_loop (rv : Z) (s : list Z) : result Z * list Z :=
  match s with
  | [] => (Err (if rv =? 0 then EOF else TruncatedVarint), [])
  | b :: s' =>
      let rv := Z.lor rv (Z.land b 0x7f) in
      if Z.land b 0x80 =? 0 then (Ok rv, s')
      else readVarint_loop (Go.uint64 (Z.shiftl rv 7)) s'
  end.

Definition readVarint : Reader Z := readVarint_loop 0.

Example encodeVarint_12345678 : encodeVarint 12345678 = [0x85; 0xF1; 0xC2; 0x4E].
Proof. reflexivity. Qed.

(* ===================================================================== *)
(** ** Raw events and the event parser *)
(* ===================================================================== *)

Inductive eventType : Type :=
| midiEvent
| sysexEvent
| metaEvent
| timeDeltaEvent.

Inductive parserState : Type :=
| wantEvent
| wantMetaType
| wantMetaLength
| wantMetaData
| wantSysexLength
| wantSysexData.

Record event : Type := mkEvent {
  kind : eventType;
  typeByte : Z;
  data : Go.slice;
  timeDelta : Z
}.

Record eventDataParser : Type := mkParser {
  state : parserState;
  bytesFed : Z;
  runningStatus : Z;
  eventData : Go.slice;
  metaEventType : Z;
  metaLength : Z;
  currentSysexType : Z;
  sysexLength : Z;
  sysexData : Go.slice;
  events : list event
}.

(** [&eventDataParser{}]: every field at its zero value. *)
Definition newParser : eventDataParser :=
  mkParser wantEvent 0 0 None 0 0 0 0 None [].

(** Assignments to single fields. *)
Definition set_state (st : parserState) (p : eventDataParser) :=
  mkParser st (bytesFed p) (runningStatus p) (eventData p) (metaEventType p)
    (metaLength p) (currentSysexType p) (sysexLength p) (sysexData p) (events p).
Definition set_bytesFed (n : Z) (p : eventDataParser) :=
  mkParser (state p) n (runningStatus p) (eventData p) (metaEventType p)
    (metaLength p) (currentSysexType p) (sysexLength p) (sysexData p) (events p).
Definition set_runningStatus (b : Z) (p : eventDataParser) :=
  mkParser (state p) (bytesFed p) b (eventData p) (metaEventType p)
    (metaLength p) (currentSysexType p) (sysexLength p) (sysexData p) (events p).
Definition set_eventData (d : Go.slice) (p : eventDataParser) :=
  mkParser (state p) (bytesFed p) (runningStatus p) d (metaEventType p)
    (metaLength p) (currentSysexType p) (sysexLength p) (sysexData p) (events p).
Definition set_metaEventType (b : Z) (p : eventDataParser) :=
  mkParser (state p) (bytesFed p) (runningStatus p) (eventData p) b
    (metaLength p) (currentSysexType p) (sysexLength p) (sysexData p) (events p).
Definition set_metaLength (n : Z) (p : eventDataParser) :=
  mkParser (state p) (bytesFed p) (runningStatus p) (eventData p) (metaEventType p)
    n (currentSysexType p) (sysexLength p) (sysexData p) (events p).
Definition set_currentSysexType (b : Z) (p : eventDataParser) :=
  mkParser (state p) (bytesFed p) (runningStatus p) (eventData p) (metaEventType p)
    (metaLength p) b (sysexLength p) (sysexData p) (events p).
Definition set_sysexLength (n : Z) (p : eventDataParser) :=
  mkParser (state p) (bytesFed p) (runningStatus p) (eventData p) (metaEventType p)
    (metaLength p) (currentSysexType p) n (sysexData p) (events p).
Definition set_sysexData (d : Go.slice) (p : eventDataParser) :=
  mkParser (state p) (bytesFed p) (runningStatus p) (eventData p) (metaEventType p)
    (metaLength p) (currentSysexType p) (sysexLength p) d (events p).

(** [p.events = append(p.events, e)]. *)
Definition push_event (e : event) (p : eventDataParser) :=
  mkParser (state p) (bytesFed p) (runningStatus p) (eventData p) (metaEventType p)
    (metaLength p) (currentSysexType p) (sysexLength p) (sysexData p) (events p ++ [e]).

Definition addTimeDelta (dt : Z) (p : eventDataParser) : eventDataParser :=
  push_event (mkEvent timeDeltaEvent 0 None dt) p.

Record midiEventSpec : Type := mkSpec {
  name : string;
  dataLen : Z
}.

(** The map [midiEventSpecs]; [None] is an absent key. *)
Definition midiEventSpecs (nibble : Z) : option midiEventSpec :=
  match nibble with
  | 0x8 => Some (mkSpec "NoteOff" 2)
  | 0x9 => Some (mkSpec "NoteOn" 2)
  | 0xA => Some (mkSpec "Aftertouch" 2)
  | 0xB => Some (mkSpec "ControllerChange/ChannelMode" 2)
  | 0xC => Some (mkSpec "ProgramChange" 1)
  | 0xD => Some (mkSpec "ChannelKeyPressure" 1)
  | 0xE => Some (mkSpec "PitchBend" 2)
  | _ => None
  end.

Definition feedMIDIDataByte (p : eventDataParser) (b : Z)
  : eventDataParser * result bool :=
  let nibble := Z.shiftr (Z.land (runningStatus p) 0xf0) 4 in
  match midiEventSpecs nibble with
  | None => (p, Err (UnknownRunningStatus (runningStatus p)))
  | Some spec =>
      let p := set_eventData (Go.append1 (eventData p) b) p in
      if Go.len (eventData p) =? dataLen spec then
        let p := push_event (mkEvent midiEvent (runningStatus p) (eventData p) 0) p in
        (set_eventData None p, Ok true)
      else if Go.len (eventData p) >=? dataLen spec then
        (p, Err (MidiPayloadOverflow (runningStatus p) (dataLen spec)
                   (Go.elems (eventData p))))
      else (p, Ok false)
  end.

Definition flushSysexEvent (p : eventDataParser) : eventDataParser :=
  let p := push_event (mkEvent sysexEvent (currentSysexType p) (sysexData p) 0) p in
  let p := set_state wantEvent p in
  let p := set_sysexData None p in
  set_currentSysexType 0 p.

(** One step of the state machine.  The boolean is the stop point: the
    byte completed an event. *)
Definition feedByteInternal (p : eventDataParser) (b : Z)
  : eventDataParser * result bool :=
  match state p with
  | wantEvent =>
      if b =? 0xFF then (set_state wantMetaType p, Ok false)
      else if (b =? 0xF0) || (b =? 0xF7) then
        let p := set_currentSysexType b p in
        let p := set_state wantSysexLength p in
        let p := set_sysexLength 0 p in
        (set_sysexData None p, Ok false)
      else if negb (Z.land b 0x80 =? 0) then
        if Go.len (eventData p) >? 0 then
          (p, Err (RunningStatusInterrupted (runningStatus p) b
                     (Go.elems (eventData p))))
        else (set_runningStatus b p, Ok false)
      else feedMIDIDataByte p b
  | wantMetaType =>
      let p := set_metaEventType b p in
      let p := set_state wantMetaLength p in
      let p := set_metaLength 0 p in
      (set_eventData None p, Ok false)
  | wantSysexLength =>
      let p := set_sysexLength
                 (Z.lor (Go.int (Z.shiftl (sysexLength p) 7)) (Z.land b 0x7F)) p in
      let p := if Z.land b 0x80 =? 0 then set_state wantSysexData p else p in
      if sysexLength p =? 0 then (flushSysexEvent p, Ok true)
      else (p, Ok false)
  | wantSysexData =>
      let p := set_sysexData (Go.append1 (sysexData p) b) p in
      if Go.len (sysexData p) =? sysexLength p then (flushSysexEvent p, Ok true)
      else (p, Ok false)
  | wantMetaLength =>
      let p := set_metaLength
                 (Z.lor (Go.int (Z.shiftl (metaLength p) 7)) (Z.land b 0x7F)) p in
      let p := if Z.land b 0x80 =? 0 then set_state wantMetaData p else p in
      if metaLength p =? 0 then
        let p := push_event (mkEvent metaEvent (metaEventType p) (eventData p) 0) p in
        let p := set_state wantEvent p in
        (set_eventData None p, Ok true)
      else (p, Ok false)
  | wantMetaData =>
      let p := set_eventData (Go.append1 (eventData p) b) p in
      if Go.len (eventData p) =? metaLength p then
        let p := push_event (mkEvent metaEvent (metaEventType p) (eventData p) 0) p in
        let p := set_state wantEvent p in
        (set_eventData None p, Ok true)
      else (p, Ok false)
  end.

Definition feedByte (p : eventDataParser) (b : Z) : eventDataParser * result bool :=
  match feedByteInternal p b with
  | (p', Err e) => (p', Err (AfterEventBytes (bytesFed p') e))
  | (p', Ok stopPoint) => (set_bytesFed (Go.int64 (bytesFed p' + 1)) p', Ok stopPoint)
  end.

(** [feed]: every byte of [data], stopping at the first error. *)
Fixpoint feed (p : eventDataParser) (bs : list Z) : eventDataParser * option error :=
  match bs with
  | [] => (p, None)
  | x :: bs' =>
      match feedByte p x with
      | (p', Err e) => (p', Some e)
      | (p', Ok _) => feed p' bs'
      end
  end.

(** [readSingleEvent]: bytes are read one at a time until one is a stop
    point. *)
Fixpoint readSingleEvent_loop (p : eventDataParser) (beganReading : bool) (s : list Z)
  : (eventDataParser * result unit) * list Z :=
  match s with
  | [] => ((p, Err (if beganReading then EOFInEvent else EOF)), [])
  | b :: s' =>
      match feedByte p b with
      | (p', Err e) => ((p', Err e), s')
      | (p', Ok done) =>
          if done then ((p', Ok tt), s') else readSingleEvent_loop p' true s'
      end
  end.

Definition readSingleEvent (p : eventDataParser) (s : list Z)
  : (eventDataParser * result unit) * list Z :=
  readSingleEvent_loop p false s.

Definition is_EOF (e : error) : bool :=
  match e with EOF => true | _ => false end.

Lemma readVarint_loop_consumes (s : list Z) :
  forall rv v s', readVarint_loop rv s = (Ok v, s') ->
                  (List.length s' < List.length s)%nat.
Proof.
  induction s as [|b s IH]; intros rv v s' H; simpl in H.
  - discriminate.
  - destruct (Z.land b 128 =? 0).
    + inversion H; subst. simpl. lia.
    + apply IH in H. simpl. lia.
Qed.

Lemma readSingleEvent_loop_consumes (s : list Z) :
  forall p began p' r s', readSingleEvent_loop p began s = ((p', r), s') ->
                          (List.length s' <= List.length s)%nat.
Proof.
  induction s as [|b s IH]; intros p began p' r s' H; simpl in H.
  - inversion H; subst. simpl. lia.
  - destruct (feedByte p b) as [q [done|e]].
    + destruct done.
      * inversion H; subst. simpl. lia.
      * apply IH in H. simpl. lia.
    + inversion H; subst. simpl. lia.
Qed.

Definition inspect {A} (a : A) : {b : A | a = b} := exist _ a eq_refl.

(** [parseTrackBody]: a time delta, then one event, until the reader is at
    its end.  Each round consumes at least the byte that ends the delta. *)
Equations? parseTrackBody_loop (p : eventDataParser) (s : list Z)
  : result (list event) * list Z by wf (List.length s) lt :=
  parseTrackBody_loop p s with inspect (readVarint s) => {
    | exist _ (Err e, s1) _ :=
        (if is_EOF e then Ok (events p) else Err (TimeDeltaError e), s1);
    | exist _ (Ok td, s1) H1
        with inspect (readSingleEvent (if td >? 0 then addTimeDelta td p else p) s1) => {
        | exist _ ((p', Err e), s2) _ := (Err (EventError e), s2);
        | exist _ ((p', Ok _), s2) H2 := parseTrackBody_loop p' s2 } }.
Proof.
  apply readVarint_loop_consumes in H1.
  apply readSingleEvent_loop_consumes in H2. lia.
Qed.

Definition parseTrackBody : Reader (list event) := parseTrackBody_loop newParser.

Example parseTrackBody_tempo :
  parseTrackBody [0x00; 0xff; 0x51; 0x03; 0x05; 0xe3; 0x8b; 0xce; 0x40; 0xff; 0x2f; 0x00]
  = (Ok [mkEvent metaEvent 0x51 (Some [0x05; 0xe3; 0x8b]) 0;
         mkEvent timeDeltaEvent 0 None 10048;
         mkEvent metaEvent 0x2f None 0], []).
Proof. reflexivity. Qed.

(* ===================================================================== *)
(** ** Presented events *)
(* ===================================================================== *)

Record MetaEvent : Type := mkMeta {
  Meta_Type : Z;
  Meta_Data : Go.slice
}.

Definition SetTempo : Z := 0x51.

(** The default tempo is 120 bpm, i.e. 0.5s per quarter-note. *)
Definition DefaultTempo : Z := 500000.

Definition NoteOn : Z := 0x90.
Definition NoteOff : Z := 0x80.
Definition Aftertouch : Z := 0xA0.
Definition ControllerChange : Z := 0xB0.
Definition ProgramChange : Z := 0xC0.
Definition ChannelPressure : Z := 0xD0.
Definition PitchBend : Z := 0xE0.

Record MIDIEvent : Type := mkMIDI {
  Type_ : Z;
  RawType : Z;
  Channel : Z;
  Key : Z;
  Velocity : Z;
  ControllerNumber : Z;
  ControllerValue : Z;
  ProgramNumber : Z;
  RawData : Go.slice
}.

(** The four implementations of the [Event] interface.  A [SysexEvent] is
    a byte slice of which only the length and the elements are used. *)
Inductive Event : Type :=
| TimeDeltaEvent (td : Z)
| SysexEvent (e : list Z)
| Meta (e : MetaEvent)
| MIDI (e : MIDIEvent).

(** [GetTempo]: the pair of the tempo and the [ok] flag. *)
Definition GetTempo (e : MetaEvent) : Z * bool :=
  if (Meta_Type e =? SetTempo) || negb (Go.len (Meta_Data e) =? 3) then (0, false)
  else
    let d := Go.elems (Meta_Data e) in
    let rv := Z.shiftl (nth 0 d 0) 16 in
    let rv := Z.lor rv (Z.shiftl (nth 1 d 0) 8) in
    let rv := Z.lor rv (nth 2 d 0) in
    (rv, true).

Definition TimeDeltaEvent_EncodeMIDI (td : Z) : result (list Z) :=
  Ok (encodeVarint (Go.uint64 td)).

Definition SysexEvent_EncodeMIDI (e : list Z) : result (list Z) :=
  match e with
  | [] => Err EmptySysex
  | e0 :: e1 =>
      let rv := [e0] in
      let rv := rv ++ encodeVarint (Go.uint64 (Z.of_nat (List.length e) - 1)) in
      let rv := if (1 <? Z.of_nat (List.length e)) then rv ++ e1 else rv in
      Ok rv
  end.

Definition MetaEvent_EncodeMIDI (e : MetaEvent) : result (list Z) :=
  let rv := [0xFF; Meta_Type e] in
  let rv := rv ++ encodeVarint (Go.uint64 (Go.len (Meta_Data e))) in
  let rv := rv ++ Go.elems (Meta_Data e) in
  Ok rv.

Definition MIDIEvent_EncodeMIDI (e : MIDIEvent) : result (list Z) :=
  let rawData :=
    match RawData e with
    | Some d => Ok d
    | None =>
        if Type_ e =? NoteOn then Ok [Go.byte (Key e); Go.byte (Velocity e)]
        else if Type_ e =? NoteOff then Ok [Go.byte (Key e); Go.byte (Velocity e)]
        else Err EncodingUnsupported
    end in
  match rawData with
  | Err err => Err err
  | Ok rawData =>
      let rawType := Z.lor (Go.byte (Type_ e)) (Go.byte (Channel e)) in
      Ok (rawType :: rawData)
  end.

Definition EncodeMIDI (evt : Event) : result (list Z) :=
  match evt with
  | TimeDeltaEvent td => TimeDeltaEvent_EncodeMIDI td
  | SysexEvent e => SysexEvent_EncodeMIDI e
  | Meta e => MetaEvent_EncodeMIDI e
  | MIDI e => MIDIEvent_EncodeMIDI e
  end.

(** The closure [expectLen] of [presentEvent]. *)
Definition expectLen (rv : MIDIEvent) (n : Z) : option error :=
  if negb (Go.len (RawData rv) =? n)
  then Some (MidiPayloadLengthMismatch (Type_ rv) n (Go.len (RawData rv))
               (Go.elems (RawData rv)))
  else None.

Definition set_Type (t : Z) (e : MIDIEvent) :=
  mkMIDI t (RawType e) (Channel e) (Key e) (Velocity e) (ControllerNumber e)
    (ControllerValue e) (ProgramNumber e) (RawData e).
Definition set_Key (k : Z) (e : MIDIEvent) :=
  mkMIDI (Type_ e) (RawType e) (Channel e) k (Velocity e) (ControllerNumber e)
    (ControllerValue e) (ProgramNumber e) (RawData e).
Definition set_Velocity (v : Z) (e : MIDIEvent) :=
  mkMIDI (Type_ e) (RawType e) (Channel e) (Key e) v (ControllerNumber e)
    (ControllerValue e) (ProgramNumber e) (RawData e).
Definition set_ControllerNumber (n : Z) (e : MIDIEvent) :=
  mkMIDI (Type_ e) (RawType e) (Channel e) (Key e) (Velocity e) n
    (ControllerValue e) (ProgramNumber e) (RawData e).
Definition set_ControllerValue (n : Z) (e : MIDIEvent) :=
  mkMIDI (Type_ e) (RawType e) (Channel e) (Key e) (Velocity e) (ControllerNumber e)
    n (ProgramNumber e) (RawData e).
Definition set_ProgramNumber (n : Z) (e : MIDIEvent) :=
  mkMIDI (Type_ e) (RawType e) (Channel e) (Key e) (Velocity e) (ControllerNumber e)
    (ControllerValue e) n (RawData e).

(** [rv.RawData[i]], used only after [expectLen] has succeeded. *)
Definition RawData_at (rv : MIDIEvent) (i : nat) : Z := nth i (Go.elems (RawData rv)) 0.

(** [presentEvent].  The [kind] of a raw event is one of the four declared
    constants, so the [default] branch of the outer switch has no case. *)
Definition presentEvent (evt : event) : result Event :=
  match kind evt with
  | sysexEvent => Ok (SysexEvent (typeByte evt :: Go.elems (data evt)))
  | metaEvent => Ok (Meta (mkMeta (typeByte evt) (data evt)))
  | timeDeltaEvent => Ok (TimeDeltaEvent (Go.int64 (timeDelta evt)))
  | midiEvent =>
      let rv := mkMIDI (Z.land 0xf0 (typeByte evt)) (typeByte evt)
                  (Z.land 0x0f (typeByte evt)) 0 0 0 0 0 (data evt) in
      if Type_ rv =? NoteOn then
        match expectLen rv 2 with
        | Some err => Err err
        | None =>
            let rv := set_Key (RawData_at rv 0) rv in
            let rv := set_Velocity (RawData_at rv 1) rv in
            let rv := if Velocity rv =? 0
                      then set_Velocity 0x40 (set_Type NoteOff rv) else rv in
            Ok (MIDI rv)
        end
      else if Type_ rv =? NoteOff then
        match expectLen rv 2 with
        | Some err => Err err
        | None =>
            let rv := set_Key (RawData_at rv 0) rv in
            Ok (MIDI (set_Velocity (RawData_at rv 1) rv))
        end
      else if Type_ rv =? Aftertouch then
        match expectLen rv 2 with
        | Some err => Err err
        | None =>
            let rv := set_Key (RawData_at rv 0) rv in
            Ok (MIDI (set_Velocity (RawData_at rv 1) rv))
        end
      else if Type_ rv =? ControllerChange then
        match expectLen rv 2 with
        | Some err => Err err
        | None =>
            let rv := set_ControllerNumber (RawData_at rv 0) rv in
            Ok (MIDI (set_ControllerValue (RawData_at rv 1) rv))
        end
      else if Type_ rv =? ProgramChange then
        match expectLen rv 1 with
        | Some err => Err err
        | None => Ok (MIDI (set_ProgramNumber (RawData_at rv 0) rv))
        end
      else if Type_ rv =? ChannelPressure then
        match expectLen rv 1 with
        | Some err => Err err
        | None => Ok (MIDI (set_Velocity (RawData_at rv 0) rv))
        end
      else if Type_ rv =? PitchBend then
        match expectLen rv 2 with
        | Some err => Err err
        | None => Ok (MIDI rv)
        end
      else Ok (MIDI rv)
  end.

(* ===================================================================== *)
(** ** The encoder *)
(* ===================================================================== *)

Record Header : Type := mkHeader {
  Format : Z;
  NumberOfTracks : Z;
  Division : Z
}.

Record Track : Type := mkTrack {
  Events : list Event
}.

Record File : Type := mkFile {
  Header_ : Header;
  Tracks : list Track
}.

Definition MThd : list Z := [0x4D; 0x54; 0x68; 0x64].
Definition MTrk : list Z := [0x4D; 0x54; 0x72; 0x6B].

(** The loop of [encodeEvents]: [i] is the index of the next event,
    [delay] the pending delay and [rv] the bytes written so far. *)
Fixpoint encodeEvents_loop (i : Z) (delay : Z) (rv : list Z) (evts : list Event)
  : result (list Z) :=
  match evts with
  | [] => Ok rv
  | TimeDeltaEvent td :: rest =>
      encodeEvents_loop (i + 1) (Go.uint64 (delay + Go.uint64 td)) rv rest
  | evt :: rest =>
      let rv := rv ++ encodeVarint delay in
      match EncodeMIDI evt with
      | Err err => Err (EncodeEventError i err)
      | Ok encoded => encodeEvents_loop (i + 1) 0 (rv ++ encoded) rest
      end
  end.

Definition encodeEvents (evts : list Event) : result (list Z) :=
  encodeEvents_loop 0 0 [] evts.

Definition Track_encode (t : Track) : result (list Z) :=
  match encodeEvents (Events t) with
  | Err err => Err err
  | Ok data =>
      let chunkLen := Go.uint32 (Z.of_nat (List.length data)) in
      Ok (MTrk ++ Go.be32 chunkLen ++ data)
  end.

(** [binary.Write] lays the three header fields out big-endian, the
    signed division as its two's complement. *)
Definition Header_encode (h : Header) : result (list Z) :=
  let headerLen := 6 in
  Ok (MThd ++ Go.be32 headerLen
        ++ Go.be16 (Format h) ++ Go.be16 (NumberOfTracks h)
        ++ Go.be16 (Go.uint16 (Division h))).

Fixpoint File_encode_tracks (i : Z) (buf : list Z) (trks : list Track)
  : result (list Z) :=
  match trks with
  | [] => Ok buf
  | trk :: rest =>
      match Track_encode trk with
      | Err err => Err (EncodeTrackError i err)
      | Ok data => File_encode_tracks (i + 1) (buf ++ data) rest
      end
  end.

Definition File_encode (f : File) : result (list Z) :=
  match Header_encode (Header_ f) with
  | Err err => Err err
  | Ok data => File_encode_tracks 0 data (Tracks f)
  end.

(* ===================================================================== *)
(** ** The file parser *)
(* ===================================================================== *)

Definition list_eqb (a b : list Z) : bool :=
  if list_eq_dec Z.eq_dec a b then true else false.

Definition readLiteralExpecting (lit : list Z) : Reader unit := fun r =>
  let '((buf, err), r') := Read (List.length lit) r in
  let n := Z.of_nat (List.length buf) in
  match err with
  | Some e => (Err (ShortRead lit n (Some e)), r')
  | None =>
      if negb (n =? Z.of_nat (List.length lit)) then (Err (ShortRead lit n None), r')
      else if negb (list_eqb buf lit) then (Err (UnexpectedLiteral lit buf), r')
      else (Ok tt, r')
  end.

(** [binary.Read(r, binary.BigEndian, &length)] for a [uint32]. *)
Definition readUint32 : Reader Z := fun r =>
  match ReadFull 4 r with
  | (Ok [b0; b1; b2; b3], r') => (Ok (Go.of_be32 b0 b1 b2 b3), r')
  | (Ok _, r') => (Err UnexpectedEOF, r')
  | (Err e, r') => (Err e, r')
  end.

Definition parseSizedChunk : Reader (list Z) := fun r =>
  match readUint32 r with
  | (Err err, r1) => (Err err, r1)
  | (Ok length, r1) =>
      let '((buf, err), r2) := Read (Z.to_nat length) r1 in
      let n := Z.of_nat (List.length buf) in
      match err with
      | Some e => (Err (ShortChunk length n (Some e)), r2)
      | None =>
          if negb (n =? length) then (Err (ShortChunk length n None), r2)
          else (Ok buf, r2)
      end
  end.

(** [binary.Read] of the three header fields from the header chunk; bytes
    after the sixth are left in the buffer. *)
Definition parseHeader : Reader Header := fun r =>
  match readLiteralExpecting MThd r with
  | (Err err, r1) => (Err err, r1)
  | (Ok _, r1) =>
      match parseSizedChunk r1 with
      | (Err err, r2) => (Err err, r2)
      | (Ok headerData, r2) =>
          match ReadFull 6 headerData with
          | (Ok [b0; b1; b2; b3; b4; b5], _) =>
              (Ok (mkHeader (Go.of_be16 b0 b1) (Go.of_be16 b2 b3)
                     (Go.int16 (Go.of_be16 b4 b5))), r2)
          | (Ok _, _) => (Err UnexpectedEOF, r2)
          | (Err err, _) => (Err err, r2)
          end
      end
  end.

Lemma onReadBytes_measure (remaining : Z) :
  remaining > 0 ->
  (Z.to_nat ((remaining - Z.min 4096 remaining + 4095) / 4096)
   < Z.to_nat ((remaining + 4095) / 4096))%nat.
Proof.
  intros H. apply Z2Nat.inj_lt.
  - apply Z.div_pos; lia.
  - apply Z.div_pos; lia.
  - destruct (Z.min_spec 4096 remaining) as [[Hlt ->]|[Hle ->]].
    + replace (remaining + 4095) with ((remaining - 4096 + 4095) + 1 * 4096) by lia.
      rewrite Z.div_add by lia. lia.
    + replace (remaining - remaining + 4095) with 4095 by lia.
      change (4095 / 4096) with 0.
      apply Z.div_str_pos. lia.
Qed.

(** [onReadBytes(r, n, nil)]: the bytes are read in pieces of at most 4096
    and dropped; the callback is nil at the only call site.  The count of
    a piece is not looked at: [remaining] goes down by the size asked for. *)
Equations? onReadBytes (remaining : Z) (r : list Z) : result unit * list Z
  by wf (Z.to_nat ((remaining + 4095) / 4096)) lt :=
  onReadBytes remaining r with Z_gt_dec remaining 0 => {
    | right _ := (Ok tt, r);
    | left _ with Read (Z.to_nat (Z.min 4096 remaining)) r => {
        | ((_, Some err), r') := (Err (ReadError err), r');
        | ((_, None), r') := onReadBytes (remaining - Z.min 4096 remaining) r' } }.
Proof. apply onReadBytes_measure. assumption. Qed.

Definition skipSizedChunk : Reader unit := fun r =>
  match readUint32 r with
  | (Err err, r1) => (Err err, r1)
  | (Ok length, r1) => onReadBytes length r1
  end.

(** The loop of [parseTrack] over the raw events. *)
Fixpoint presentEvents (rawEvents : list event) (acc : list Event)
  : result (list Event) :=
  match rawEvents with
  | [] => Ok acc
  | evt :: rest =>
      match presentEvent evt with
      | Err err => Err err
      | Ok presentable => presentEvents rest (acc ++ [presentable])
      end
  end.

(** The three shapes of the triple [parseTrack] returns:
    [(nil, false, err)], [(nil, true, err)] and [(rv, true, nil)]. *)
Inductive parseTrackResult : Type :=
| NotMidiTrack (err : error)
| MidiTrackError (err : error)
| MidiTrack (trk : Track).

Definition parseTrack (r : list Z) : parseTrackResult * list Z :=
  match readLiteralExpecting MTrk r with
  | (Err err, r1) =>
      match skipSizedChunk r1 with
      | (Err err', r2) => (NotMidiTrack err', r2)
      | (Ok _, r2) => (NotMidiTrack err, r2)
      end
  | (Ok _, r1) =>
      match readUint32 r1 with
      | (Err err, r2) => (MidiTrackError err, r2)
      | (Ok length, r2) =>
          match limitreader (Z.to_nat length) parseTrackBody r2 with
          | (Err err, r3) => (MidiTrackError err, r3)
          | (Ok rawEvents, r3) =>
              match presentEvents rawEvents [] with
              | Err err => (MidiTrackError err, r3)
              | Ok evts => (MidiTrack (mkTrack evts), r3)
              end
          end
      end
  end.

(** The state of the loop of [parse]. *)
Record parseState : Type := mkParseState {
  rv_Tracks : list Track;
  sawMidiTrack : bool;
  sawNonMidiTrack : option error
}.

(** The loop of [parse]: [n] rounds are left, [i] is the loop index. *)
Fixpoint parse_loop (strict : bool) (n : nat) (i : Z) (st : parseState) (r : list Z)
  : result parseState * list Z :=
  match n with
  | O => (Ok st, r)
  | S n' =>
      match parseTrack r with
      | (NotMidiTrack err, r') =>
          if strict then (Err (UnknownChunk err), r')
          else
            let first :=
              match sawNonMidiTrack st with
              | None => Some err
              | Some e => Some e
              end in
            parse_loop strict n' (i + 1)
              (mkParseState (rv_Tracks st) (sawMidiTrack st) first) r'
      | (MidiTrackError err, r') => (Err (TrackError i err), r')
      | (MidiTrack trk, r') =>
          parse_loop strict n' (i + 1)
            (mkParseState (rv_Tracks st ++ [trk]) true (sawNonMidiTrack st)) r'
      end
  end.

Definition parse (strict : bool) : Reader File := fun r =>
  match parseHeader r with
  | (Err err, r1) => (Err (HeaderError err), r1)
  | (Ok hdr, r1) =>
      match parse_loop strict (Z.to_nat (NumberOfTracks hdr)) 0
              (mkParseState [] false None) r1 with
      | (Err err, r2) => (Err err, r2)
      | (Ok st, r2) =>
          if negb (sawMidiTrack st) then (Err (NoMidiTracks (sawNonMidiTrack st)), r2)
          else (Ok (mkFile hdr (rv_Tracks st)), r2)
      end
  end.

(** [contextreader]: the count of the bytes read and the last 64 of them. *)
Definition numberOfContextBytes : nat := 64.

Definition WrapError (input rest : list Z) (err : error) : error :=
  let read := firstn (List.length input - List.length rest) input in
  WithContext (Z.of_nat (List.length read))
    (skipn (List.length read - numberOfContextBytes) read) err.

Definition Parse (r : list Z) : result File :=
  match parse false r with
  | (Err err, r') => Err (WrapError r r' err)
  | (Ok f, _) => Ok f
  end.

(* ===================================================================== *)
(** ** The time base *)
(* ===================================================================== *)

Section TimeBase.

(** [float64] and the operations [OnEvents] uses are kept abstract. *)
Variable float64 : Type.
Variable float_of_int : Z -> float64.
Variable fadd fmul fdiv : float64 -> float64 -> float64.

(** The loop of [OnEvents]; the result holds the values of [seconds] and
    [microsPerBeat] when the loop is left. *)
Fixpoint OnEvents_loop (callback : float64 -> Event -> option error)
  (ticksPerBeat : Z) (i : Z) (seconds : float64) (microsPerBeat : Z)
  (evts : list Event) : result (float64 * Z) :=
  match evts with
  | [] => Ok (seconds, microsPerBeat)
  | evt :: rest =>
      match callback seconds evt with
      | Some err => Err (CallbackError i err)
      | None =>
          match evt with
          | TimeDeltaEvent v =>
              let ticksTaken := float_of_int v in
              let beatsTaken := fdiv ticksTaken (float_of_int ticksPerBeat) in
              let microsTaken := fmul beatsTaken (float_of_int microsPerBeat) in
              let secsTaken := fdiv microsTaken (float_of_int 1000000) in
              OnEvents_loop callback ticksPerBeat (i + 1) (fadd seconds secsTaken)
                microsPerBeat rest
          | Meta v =>
              let (newTempo, ok) := GetTempo v in
              OnEvents_loop callback ticksPerBeat (i + 1) seconds
                (if ok then newTempo else microsPerBeat) rest
          | _ => OnEvents_loop callback ticksPerBeat (i + 1) seconds microsPerBeat rest
          end
      end
  end.

Definition OnEvents (f : File) (trackNo : Z)
  (callback : float64 -> Event -> option error) : result (float64 * Z) :=
  if Division (Header_ f) <? 0 then Err (SmpteUnsupported (Division (Header_ f)))
  else
    let ticksPerBeat := Division (Header_ f) in
    let microsPerBeat := DefaultTempo in
    if (trackNo <? 0) || (trackNo >=? Z.of_nat (List.length (Tracks f))) then
      Err (NoSuchTrack trackNo (Z.of_nat (List.length (Tracks f))))
    else
      match nth_error (Tracks f) (Z.to_nat trackNo) with
      | None => Err (NoSuchTrack trackNo (Z.of_nat (List.length (Tracks f))))
      | Some track =>
          OnEvents_loop callback ticksPerBeat 0 (float_of_int 0) microsPerBeat
            (Events track)
      end.

End TimeBase.

Arguments OnEvents_loop {float64}.
Arguments OnEvents {float64}.

Example parse_two_tracks :
  is_ok (fst (parse true
    (MThd ++ [0;0;0;6; 0;1; 0;2; 0;0xc0]
      ++ MTrk ++ [0;0;0;4; 0x00;0xff;0x2f;0x00]
      ++ MTrk ++ [0;0;0;4; 0x0a;0x90;0x3C;0x7F]))) = true.
Proof. reflexivity. Qed.


(* ===================================================================== *)
(** ** Notions used in the statements *)
(* ===================================================================== *)

(** A continuation byte: the high bit is set. *)
Definition continued (b : Z) : bool := negb (Z.land b 0x80 =? 0).

Definition septet (d : Z) : Prop := 0 <= d < 128.

(** The number a list of septets stands for, least significant first. *)
Fixpoint septets_value (ds : list Z) : Z :=
  match ds with
  | [] => 0
  | d :: ds' => d + 128 * septets_value ds'
  end.

Definition set_high_bit (b : Z) : Z := Z.lor b 0x80.

(** The bytes for the septets [rrv]: most significant first, the high
    bit set on all but the last. *)
Definition varint_bytes (rrv : list Z) : list Z :=
  match rrv with
  | [] => []
  | d0 :: hs => map set_high_bit (rev hs) ++ [d0]
  end.

(** The accumulator of [readVarint] after the continuation bytes for the
    septets [ms], most significant first. *)
Definition shift_in (rv : Z) (ms : list Z) : Z :=
  fold_left (fun rv d => Go.uint64 (Z.shiftl (Z.lor rv d) 7)) ms rv.

Definition isTimeDelta (evt : Event) : bool :=
  match evt with TimeDeltaEvent _ => true | _ => false end.

(** The value of [delay] after a run of events, as the loop of
    [encodeEvents] adds it up. *)
Fixpoint pending_delay (delay : Z) (evts : list Event) : Z :=
  match evts with
  | TimeDeltaEvent td :: rest => pending_delay (Go.uint64 (delay + Go.uint64 td)) rest
  | _ :: rest => pending_delay delay rest
  | [] => delay
  end.

(** Sum of the ticks of the TimeDelta events of a list. *)
Fixpoint ticks (evts : list Event) : Z :=
  match evts with
  | TimeDeltaEvent td :: rest => td + ticks rest
  | _ :: rest => ticks rest
  | [] => 0
  end.

(** A track has been appended whenever a MIDI track has been seen. *)
Definition tracks_seen (st : parseState) : Prop :=
  sawMidiTrack st = true -> rv_Tracks st <> [].

(** Two small files: a header that declares no track followed by an
    [MTrk] chunk, and the same with one track declared. *)
Definition zero_track_file : list Z :=
  MThd ++ [0; 0; 0; 6; 0; 0; 0; 0; 0; 0xC0]
    ++ MTrk ++ [0; 0; 0; 4; 0x00; 0xFF; 0x2F; 0x00].

Definition one_track_file : list Z :=
  MThd ++ [0; 0; 0; 6; 0; 0; 0; 1; 0; 0xC0]
    ++ MTrk ++ [0; 0; 0; 4; 0x00; 0xFF; 0x2F; 0x00].

(** [bytesFed] after one more byte, and after [k] more. *)
Definition next (bf : Z) : Z := Go.int64 (bf + 1).
Definition fed (k : nat) (bf : Z) : Z := Nat.iter k next bf.

(** A status byte of a channel-voice event. *)
Definition status_byte (s : Z) : Prop := 0x80 <= s < 0xF0.

Definition data_byte (b : Z) : Prop := 0 <= b < 128.

(** The payload length the spec table gives for a status byte. *)
Definition payload_len (s : Z) : Z :=
  match midiEventSpecs (Z.shiftr (Z.land s 0xf0) 4) with
  | Some spec => dataLen spec
  | None => 0
  end.

(** The number the septets [ms] stand for, most significant first, on top
    of [m]. *)
Definition msb_value (m : Z) (ms : list Z) : Z :=
  fold_left (fun m d => 128 * m + d) ms m.

Definition data_byteb (b : Z) : bool := (0 <=? b) && (b <? 128).

Definition is_kind (t : Z) : bool :=
  existsb (Z.eqb t)
    [NoteOff; NoteOn; Aftertouch; ControllerChange; ProgramChange; ChannelPressure;
     PitchBend].

(** A MIDI event in wire form: what the presenter builds from a status
    byte and its data bytes, other than the NoteOff it makes of a NoteOn
    with velocity 0. *)
Definition wire_midi (m : MIDIEvent) : bool :=
  match RawData m with
  | None => false
  | Some d =>
      let t := Type_ m in
      let c := Channel m in
      let d0 := nth 0 d 0 in
      let d1 := nth 1 d 0 in
      let note := (t =? NoteOn) || (t =? NoteOff) || (t =? Aftertouch) in
      is_kind t && (0 <=? c) && (c <? 16)
      && (RawType m =? Z.lor t c)
      && forallb data_byteb d
      && (Z.of_nat (List.length d) =? payload_len t)
      && negb ((t =? NoteOn) && (d1 =? 0))
      && (Key m =? (if note then d0 else 0))
      && (Velocity m =? (if note then d1 else if t =? ChannelPressure then d0 else 0))
      && (ControllerNumber m =? (if t =? ControllerChange then d0 else 0))
      && (ControllerValue m =? (if t =? ControllerChange then d1 else 0))
      && (ProgramNumber m =? (if t =? ProgramChange then d0 else 0))
  end.

(** An event in wire form: any TimeDelta; a SysEx event that starts with a
    framing byte; a Meta event whose data is nil when it is empty; a MIDI
    event in wire form.  The lengths are those of Go slices. *)
Definition wire_event (e : Event) : bool :=
  match e with
  | TimeDeltaEvent _ => true
  | SysexEvent [] => false
  | SysexEvent (f :: d) =>
      ((f =? 0xF0) || (f =? 0xF7)) && (Z.of_nat (List.length d) <? 2 ^ 63)
  | Meta m =>
      match Meta_Data m with Some [] => false | _ => true end
      && (Go.len (Meta_Data m) <? 2 ^ 63)
  | MIDI m => wire_midi m
  end.

(** The event list up to merging each run of consecutive TimeDelta events
    into one that carries their sum (an [int64]) and dropping the ones
    whose value is 0; [pending] is the sum of the run being read. *)
Fixpoint merge_deltas (pending : Z) (evts : list Event) : list Event :=
  match evts with
  | [] => if pending =? 0 then [] else [TimeDeltaEvent pending]
  | TimeDeltaEvent td :: rest => merge_deltas (Go.int64 (pending + td)) rest
  | e :: rest =>
      (if pending =? 0 then [] else [TimeDeltaEvent pending]) ++ e :: merge_deltas 0 rest
  end.

(** The same, with the run of TimeDelta events at the end of the list
    dropped. *)
Fixpoint wire_form (pending : Z) (evts : list Event) : list Event :=
  match evts with
  | [] => []
  | TimeDeltaEvent td :: rest => wire_form (Go.int64 (pending + td)) rest
  | e :: rest =>
      (if pending =? 0 then [] else [TimeDeltaEvent pending]) ++ e :: wire_form 0 rest
  end.

(** The parser waits for an event and holds no partial payload. *)
Definition ready (p : eventDataParser) : Prop :=
  state p = wantEvent /\ eventData p = None.

Definition sample_track : list Event :=
  [TimeDeltaEvent 3;
   TimeDeltaEvent 7;
   Meta (mkMeta 0x51 (Some [0x05; 0xE3; 0x8B]));
   TimeDeltaEvent 0;
   MIDI (mkMIDI NoteOn 0x93 3 60 100 0 0 0 (Some [60; 100]));
   TimeDeltaEvent 200;
   MIDI (mkMIDI ProgramChange 0xC3 3 0 0 0 0 5 (Some [5]));
   SysexEvent [0xF0; 0x01; 0x02; 0xF7];
   Meta (mkMeta 0x2F None);
   TimeDeltaEvent 9].


(* ===================================================================== *)
(** ** The rest of the event parser *)
(* ===================================================================== *)

(** [feedSingleEvent]: the bytes of [data] are fed until one is a stop
    point; [consumed] counts the bytes looked at.  At the end of [data]
    the count is returned with no error. *)
Fixpoint feedSingleEvent_loop (p : eventDataParser) (consumed : Z) (data : list Z)
  : eventDataParser * (Z * option error) :=
  match data with
  | [] => (p, (consumed, None))
  | x :: rest =>
      let consumed := Go.int (consumed + 1) in
      match feedByte p x with
      | (p', Err err) => (p', (consumed, Some err))
      | (p', Ok done) =>
          if done then (p', (consumed, None))
          else feedSingleEvent_loop p' consumed rest
      end
  end.

Definition feedSingleEvent (p : eventDataParser) (data : list Z)
  : eventDataParser * (Z * option error) :=
  feedSingleEvent_loop p 0 data.

(** The four errors of [finish], with the values they are formatted
    from. *)
Inductive finishError : Type :=
| UnexpectedState (st : parserState)        (* parser in unexpected state on EOF *)
| UnexpectedSysexState (sysexType : Z)      (* parser in unexpected sysex state *)
| UnflushedEventData (data : list Z)        (* parser has unflushed event data *)
| UnflushedSysexData (data : list Z).       (* parser has unflushed sysex data *)

Definition finish (p : eventDataParser) : option finishError :=
  match state p with
  | wantEvent =>
      if negb (currentSysexType p =? 0) then
        Some (UnexpectedSysexState (currentSysexType p))
      else if Go.len (eventData p) >? 0 then
        Some (UnflushedEventData (Go.elems (eventData p)))
      else if Go.len (sysexData p) >? 0 then
        Some (UnflushedSysexData (Go.elems (sysexData p)))
      else None
  | st => Some (UnexpectedState st)
  end.

(* ===================================================================== *)
(** ** Quantities and sentinels in a byte slice *)
(* ===================================================================== *)

(** The error of [parseVarint], with the length it is formatted from. *)
Inductive parseVarintError : Type :=
| VarintExhausted (n : Z).                  (* error parsing varint: exhausted *)

(** [parseVarint]: the loop over [data]; [i] is the index of the next
    byte and [n] is [len(data)].  The triple is the value, the number of
    bytes used and the error. *)
Fixpoint parseVarint_loop (rv : Z) (i : Z) (n : Z) (data : list Z)
  : Z * Z * option parseVarintError :=
  match data with
  | [] => (0, n, Some (VarintExhausted n))
  | b :: rest =>
      let rv := Z.lor rv (Z.land b 0x7f) in
      if Z.land b 0x80 =? 0 then (rv, Go.int (i + 1), None)
      else parseVarint_loop (Go.uint64 (Z.shiftl rv 7)) (i + 1) n rest
  end.

Definition parseVarint (data : list Z) : Z * Z * option parseVarintError :=
  parseVarint_loop 0 0 (Z.of_nat (List.length data)) data.

(** [readUntil]: bytes are read one at a time with [binary.Read] and
    collected in [rv] until one equals the sentinel. *)
Fixpoint readUntil_loop (sentinel : Z) (rv : Go.slice) (r : list Z)
  : result Go.slice * list Z :=
  match r with
  | [] => (Err EOF, [])
  | b :: r' =>
      if b =? sentinel then (Ok rv, r')
      else readUntil_loop sentinel (Go.append1 rv b) r'
  end.

Definition readUntil (sentinel : Z) : Reader Go.slice :=
  readUntil_loop sentinel None.

(* ===================================================================== *)
(** ** The two reader wrappers *)
(* ===================================================================== *)

(** [limitreader]: the reader below, the count of the bytes delivered and
    the limit. *)
Record limitReader : Type := mkLimitReader {
  lim_underlying : list Z;
  lim_totalBytesRead : Z;
  lim_readLimit : Z
}.

Definition limitReader_New (r : list Z) (n : Z) : limitReader :=
  mkLimitReader r 0 n.

(** [limitReader.Read(buf)] with [len(buf) = n]. *)
Definition limitReader_Read (n : nat) (r : limitReader)
  : (list Z * option error) * limitReader :=
  let remaining := Go.int64 (lim_readLimit r - lim_totalBytesRead r) in
  if remaining <=? 0 then (([], Some EOF), r)
  else
    let '((buf, err), u) :=
      if Z.of_nat n >? remaining
      then Read (Z.to_nat remaining) (lim_underlying r)
      else Read n (lim_underlying r) in
    ((buf, err),
     mkLimitReader u
       (Go.int64 (lim_totalBytesRead r + Z.of_nat (List.length buf)))
       (lim_readLimit r)).

(** [contextreader]: the reader below, the count of the bytes read and
    the last of them. *)
Record ContextReader : Type := mkContextReader {
  ctx_underlying : list Z;
  ctx_totalBytesRead : Z;
  ctx_lastBytesRead : Go.slice
}.

Definition ContextReader_New (r : list Z) : ContextReader :=
  mkContextReader r 0 None.

(** [ContextReader.Read(buf)] with [len(buf) = n]. *)
Definition ContextReader_Read (n : nat) (r : ContextReader)
  : (list Z * option error) * ContextReader :=
  let '((buf, err), u) := Read n (ctx_underlying r) in
  let cnt := Z.of_nat (List.length buf) in
  let total := Go.int64 (ctx_totalBytesRead r + cnt) in
  let last :=
    if cnt >? 0 then Some (Go.elems (ctx_lastBytesRead r) ++ buf)
    else ctx_lastBytesRead r in
  let last :=
    if Go.len last >? Z.of_nat numberOfContextBytes
    then Some (skipn (List.length (Go.elems last) - numberOfContextBytes)
                 (Go.elems last))
    else last in
  ((buf, err), mkContextReader u total last).

Definition ContextReader_WrapError (r : ContextReader) (err : error) : error :=
  WithContext (ctx_totalBytesRead r) (Go.elems (ctx_lastBytesRead r)) err.

(** A run of [Read] calls with the buffer sizes [ns]; the bytes delivered
    are collected. *)
Fixpoint ContextReader_Reads (ns : list nat) (r : ContextReader)
  : list Z * ContextReader :=
  match ns with
  | [] => ([], r)
  | n :: ns' =>
      let '((buf, _), r1) := ContextReader_Read n r in
      let '(bufs, r2) := ContextReader_Reads ns' r1 in
      (buf ++ bufs, r2)
  end.

Fixpoint limitReader_Reads (ns : list nat) (r : limitReader)
  : list Z * limitReader :=
  match ns with
  | [] => ([], r)
  | n :: ns' =>
      let '((buf, _), r1) := limitReader_Read n r in
      let '(bufs, r2) := limitReader_Reads ns' r1 in
      (buf ++ bufs, r2)
  end.

(* ===================================================================== *)
(** ** The simple writer *)
(* ===================================================================== *)

Record SimpleWriter : Type := mkSimpleWriter {
  divisions : Z;
  sw_events : list Event
}.

Definition NewSimpleWriter (divisions : Z) : SimpleWriter :=
  mkSimpleWriter divisions [].

Definition SimpleWriter_TimeDelta (duration : Z) (s : SimpleWriter) : SimpleWriter :=
  mkSimpleWriter (divisions s) (sw_events s ++ [TimeDeltaEvent duration]).

(** [MIDIEvent{Type: t, Key: key, Velocity: velocity}]: the other fields
    have their zero value, [RawData] is nil. *)
Definition plain_note (t key velocity : Z) : Event :=
  MIDI (mkMIDI t 0 0 key velocity 0 0 0 None).

(** [Play]: a NoteOn for every key, the duration, a NoteOff for every
    key. *)
Definition SimpleWriter_Play (keys : list Z) (velocity duration : Z) (s : SimpleWriter)
  : SimpleWriter :=
  let s := mkSimpleWriter (divisions s)
             (fold_left (fun evs key => evs ++ [plain_note NoteOn key velocity])
                keys (sw_events s)) in
  let s := SimpleWriter_TimeDelta duration s in
  mkSimpleWriter (divisions s)
    (fold_left (fun evs key => evs ++ [plain_note NoteOff key velocity])
       keys (sw_events s)).

(** [Write]: the bytes handed to the writer, which is taken to accept
    them. *)
Definition SimpleWriter_Write (s : SimpleWriter) : result (list Z) :=
  File_encode (mkFile (mkHeader 0 1 (divisions s)) [mkTrack (sw_events s)]).

(** The calls a program makes on a writer. *)
Inductive writerCall : Type :=
| CallPlay (keys : list Z) (velocity duration : Z)
| CallTimeDelta (duration : Z).

Definition call (s : SimpleWriter) (c : writerCall) : SimpleWriter :=
  match c with
  | CallPlay keys velocity duration => SimpleWriter_Play keys velocity duration s
  | CallTimeDelta duration => SimpleWriter_TimeDelta duration s
  end.

(** The last [k] elements of a list, all of it when it has fewer. *)
Definition last_bytes (k : nat) (l : list Z) : list Z :=
  skipn (List.length l - k) l.

(** Outside a SysEx event the parser holds no SysEx type and no SysEx
    data. *)
Definition sysex_idle (p : eventDataParser) : Prop :=
  match state p with
  | wantSysexLength | wantSysexData => True
  | _ => currentSysexType p = 0 /\ Go.len (sysexData p) = 0
  end.

(** A raw event as the parser emits it: a MIDI event carries a status
    byte that has an entry in the table, and as many data bytes as the
    entry says. *)
Definition emitted (e : event) : Prop :=
  match kind e with
  | midiEvent =>
      exists spec,
        midiEventSpecs (Z.shiftr (Z.land (typeByte e) 0xf0) 4) = Some spec /\
        Go.len (data e) = dataLen spec
  | _ => True
  end.

(** The fields of a header hold values of their Go types. *)
Definition header_in_range (h : Header) : Prop :=
  0 <= Format h < 2 ^ 16 /\ 0 <= NumberOfTracks h < 2 ^ 16 /\
  - 2 ^ 15 <= Division h < 2 ^ 15.

(** A track whose events are in wire form and whose encoded body has a
    length that fits the 32-bit length field of a chunk. *)
Definition wire_track (t : Track) : bool :=
  forallb wire_event (Events t)
  && match encodeEvents (Events t) with
     | Ok body => Z.of_nat (List.length body) <? 2 ^ 32
     | Err _ => false
     end.

(** A track as it is read back from its chunk. *)
Definition read_back (t : Track) : Track := mkTrack (wire_form 0 (Events t)).

(** The chunk [Track.encode] writes for a track, empty if it fails. *)
Definition track_bytes (t : Track) : list Z :=
  match Track_encode t with
  | Ok chunk => chunk
  | Err _ => []
  end.


(** A MIDI event with the raw fields as the presenter fills them for a
    note: the status byte and the two data bytes. *)
Definition with_raw_fields (e : Event) : Event :=
  match e with
  | MIDI m =>
      MIDI (mkMIDI (Type_ m) (Z.lor (Type_ m) (Channel m)) (Channel m) (Key m)
              (Velocity m) (ControllerNumber m) (ControllerValue m) (ProgramNumber m)
              (Some [Key m; Velocity m]))
  | _ => e
  end.


(** The raw events of a track body, as [parseTrackBody] collects them:
    group after group, each an event of the parser, with one positive
    delta in front of it or none. *)
Inductive grouped : list event -> Prop :=
| grouped_nil : grouped []
| grouped_event (l : list event) (e : event) :
    grouped l -> kind e <> timeDeltaEvent -> emitted e -> grouped (l ++ [e])
| grouped_delta (l : list event) (td : Z) (e : event) :
    grouped l -> 0 < td < 2 ^ 64 -> kind e <> timeDeltaEvent -> emitted e ->
    grouped (l ++ [mkEvent timeDeltaEvent 0 None td; e]).

(** A callback that refuses Meta events, over integers as times. *)
Definition refuse_meta (t : Z) (e : Event) : option error :=
  match e with
  | Meta _ => Some EOF
  | _ => None
  end.

(** An event as it is read back when its payload is an empty slice that
    is not nil: the parser returns a Meta event of length 0 with nil
    data. *)
Definition nil_if_empty (e : Event) : Event :=
  match e with
  | Meta m =>
      match Meta_Data m with
      | Some [] => Meta (mkMeta (Meta_Type m) None)
      | _ => e
      end
  | _ => e
  end.
(* ===================================================================== *)
(** * Properties *)
(* ===================================================================== *)

(** ** Bytes *)

(** A property of bytes that is decided by a boolean function holds of
    every byte once it has been computed on the 256 of them. *)
Lemma forall_byte (P : Z -> bool) :
  forallb P (map Z.of_nat (seq 0 256)) = true ->
  forall b, 0 <= b < 256 -> P b = true.
Proof.
  intros H b Hb. rewrite forallb_forall in H. apply H.
  apply in_map_iff. exists (Z.to_nat b). split; [lia|].
  apply in_seq. lia.
Qed.

Lemma land_0x80_data (b : Z) : 0 <= b < 128 -> Z.land b 0x80 = 0.
Proof.
  intros Hb.
  assert (H := forall_byte (fun b => (128 <=? b) || (Z.land b 0x80 =? 0)) eq_refl b).
  cbv beta in H. specialize (H ltac:(lia)).
  apply orb_true_iff in H. destruct H as [H|H]; [apply Z.leb_le in H; lia|].
  apply Z.eqb_eq in H. exact H.
Qed.

Lemma land_0x80_status (b : Z) : 128 <= b < 256 -> Z.land b 0x80 = 0x80.
Proof.
  intros Hb.
  assert (H := forall_byte (fun b => (b <? 128) || (Z.land b 0x80 =? 0x80)) eq_refl b).
  cbv beta in H. specialize (H ltac:(lia)).
  apply orb_true_iff in H. destruct H as [H|H]; [apply Z.ltb_lt in H; lia|].
  apply Z.eqb_eq in H. exact H.
Qed.

Lemma land_0x7f_data (b : Z) : 0 <= b < 128 -> Z.land b 0x7f = b.
Proof.
  intros Hb. change 0x7f with (Z.ones 7). rewrite Z.land_ones by lia.
  apply Z.mod_small. lia.
Qed.

(** ** Tactics *)

(** One step of the parser on a state given by its fields. *)
Ltac parser_step :=
  lazy beta iota zeta delta
    [feedByte feedByteInternal feedMIDIDataByte flushSysexEvent
     set_state set_bytesFed set_runningStatus set_eventData set_metaEventType
     set_metaLength set_currentSysexType set_sysexLength set_sysexData push_event
     state bytesFed runningStatus eventData metaEventType metaLength
     currentSysexType sysexLength sysexData events];
  cbn [Go.len Go.append1 Go.elems List.length app].

(** Boolean hypotheses as propositions. *)
Ltac bool_hyps :=
  repeat match goal with
         | H : (_ || _) = true |- _ => apply orb_true_iff in H; destruct H as [H|H]
         | H : (_ && _) = true |- _ => apply andb_true_iff in H; destruct H as [H ?]
         | H : negb _ = true |- _ => apply negb_true_iff in H
         | H : (_ =? _) = true |- _ => apply Z.eqb_eq in H
         | H : (_ <? _) = true |- _ => apply Z.ltb_lt in H
         | H : (_ <=? _) = true |- _ => apply Z.leb_le in H
         end.

(* ===================================================================== *)
(** ** C1: the tempo of a Meta event *)
(* ===================================================================== *)

(** What [GetTempo] does: the flag is set exactly when the type byte is
    NOT [SetTempo] and the data is three bytes long. *)
Lemma GetTempo_ok_iff (e : MetaEvent) :
  snd (GetTempo e) = true <-> Meta_Type e <> SetTempo /\ Go.len (Meta_Data e) = 3.
Proof.
  unfold GetTempo.
  destruct (Meta_Type e =? SetTempo) eqn:Ht; simpl.
  - apply Z.eqb_eq in Ht. split; [discriminate|]. intros [H _]. contradiction.
  - apply Z.eqb_neq in Ht.
    destruct (Go.len (Meta_Data e) =? 3) eqn:Hl; simpl.
    + apply Z.eqb_eq in Hl. tauto.
    + apply Z.eqb_neq in Hl. split; [discriminate|]. intros [_ H]. contradiction.
Qed.

Lemma GetTempo_SetTempo (d : Go.slice) : GetTempo (mkMeta SetTempo d) = (0, false).
Proof. reflexivity. Qed.

Lemma GetTempo_other_type_reported :
  GetTempo (mkMeta 0x58 (Some [0x05; 0xE3; 0x8B])) = (0x05E38B, true).
Proof. reflexivity. Qed.

(** C1.  [GetTempo] on the tempo event [Meta 0x51 05 E3 8B] reports no
    tempo, where the claim has 0x05E38B; a walk over a track that
    holds this event leaves [microsPerBeat] at the default. *)
Theorem GetTempo_tempo_event_absent :
  GetTempo (mkMeta 0x51 (Some [0x05; 0xE3; 0x8B])) = (0, false) /\
  forall (float64 : Type) (float_of_int : Z -> float64)
         (fadd fmul fdiv : float64 -> float64 -> float64),
    OnEvents float_of_int fadd fmul fdiv
      (mkFile (mkHeader 0 1 0xC0)
         [mkTrack [Meta (mkMeta 0x51 (Some [0x05; 0xE3; 0x8B]))]])
      0 (fun _ _ => None)
    = Ok (float_of_int 0, DefaultTempo).
Proof. split; reflexivity. Qed.


(* ===================================================================== *)
(** ** C3: the errors of [readVarint] *)
(* ===================================================================== *)




Lemma readVarint_loop_continued (b : Z) (s : list Z) (rv : Z) :
  continued b = true ->
  readVarint_loop rv (b :: s)
  = readVarint_loop (Go.uint64 (Z.shiftl (Z.lor rv (Z.land b 0x7f)) 7)) s.
Proof.
  unfold continued. intros H. cbn [readVarint_loop].
  destruct (Z.land b 128 =? 0); [discriminate|reflexivity].
Qed.

Lemma readVarint_loop_final (b : Z) (s : list Z) (rv : Z) :
  continued b = false ->
  readVarint_loop rv (b :: s) = (Ok (Z.lor rv (Z.land b 0x7f)), s).
Proof.
  unfold continued. intros H. cbn [readVarint_loop].
  destruct (Z.land b 128 =? 0); [reflexivity|discriminate].
Qed.

Lemma shifted_septet_nonzero (rv x : Z) :
  x <> 0 -> Z.land x 0x7f = x ->
  Go.uint64 (Z.shiftl (Z.lor rv x) 7) <> 0.
Proof.
  intros Hx Hm. unfold Go.uint64.
  rewrite Z.shiftl_mul_pow2 by lia.
  change (2 ^ 64) with (2 ^ 57 * 2 ^ 7).
  rewrite Z.mul_mod_distr_r by lia.
  intros H.
  assert (H57 : Z.lor rv x mod 2 ^ 57 = 0) by lia.
  assert (H7 : Z.lor rv x mod 2 ^ 7 = 0).
  { rewrite <- (Z.mod_mod_divide (Z.lor rv x) (2 ^ 57) (2 ^ 7)).
    - rewrite H57. reflexivity.
    - exists (2 ^ 50). reflexivity. }
  rewrite <- Z.land_ones in H7 by lia.
  rewrite Z.land_lor_distr_l in H7.
  apply Z.lor_eq_0_iff in H7. destruct H7 as [_ H7].
  change (Z.ones 7) with 0x7f in H7. congruence.
Qed.

Lemma readVarint_loop_truncated (cs : list Z) :
  forall rv b,
    forallb continued (cs ++ [b]) = true ->
    Z.land b 0x7f <> 0 ->
    readVarint_loop rv (cs ++ [b]) = (Err TruncatedVarint, []).
Proof.
  induction cs as [|c cs IH]; intros rv b Hc Hb.
  - cbn in Hc. rewrite andb_true_r in Hc. cbn [app].
    rewrite readVarint_loop_continued by assumption.
    cbn [readVarint_loop].
    destruct (Z.eqb_spec (Go.uint64 (Z.shiftl (Z.lor rv (Z.land b 127)) 7)) 0) as [E|E];
      [|reflexivity].
    exfalso. revert E. apply shifted_septet_nonzero; [assumption|].
    rewrite <- Z.land_assoc. reflexivity.
  - cbn [app forallb] in Hc. apply andb_true_iff in Hc. destruct Hc as [Hc Hcs].
    cbn [app]. rewrite readVarint_loop_continued by assumption.
    apply IH; assumption.
Qed.

Lemma readVarint_loop_unbounded (cs : list Z) :
  forall rv b rest,
    forallb continued cs = true -> continued b = false ->
    exists v, readVarint_loop rv (cs ++ b :: rest) = (Ok v, rest).
Proof.
  induction cs as [|c cs IH]; intros rv b rest Hc Hb.
  - cbn [app]. rewrite readVarint_loop_final by assumption. eauto.
  - cbn [forallb] in Hc. apply andb_true_iff in Hc. destruct Hc as [Hc Hcs].
    cbn [app]. rewrite readVarint_loop_continued by assumption.
    apply IH; assumption.
Qed.

(** C3, as stated, fails: a quantity of six bytes is decoded, no overflow
    is reported. *)
Lemma readVarint_six_bytes_accepted :
  List.length [0x81; 0x80; 0x80; 0x80; 0x80; 0x00] = 6%nat /\
  readVarint [0x81; 0x80; 0x80; 0x80; 0x80; 0x00] = (Ok (2 ^ 35), []).
Proof. split; reflexivity. Qed.

(** When the accumulator is still 0 at the end of the stream, the error is
    the plain [io.EOF], which [parseTrackBody] takes for the end of the
    track. *)
Lemma readVarint_zero_continuation_is_EOF :
  readVarint [0x80] = (Err EOF, []).
Proof. reflexivity. Qed.

Lemma readVarint_loop_continuation_bytes (cs : list Z) :
  forall rv tail,
    forallb continued cs = true ->
    readVarint_loop rv (cs ++ tail)
    = readVarint_loop (shift_in rv (map (fun c => Z.land c 0x7f) cs)) tail.
Proof.
  induction cs as [|c cs IH]; intros rv tail Hc; [reflexivity|].
  cbn [forallb] in Hc. apply andb_true_iff in Hc. destruct Hc as [Hc Hcs].
  cbn [app map]. rewrite readVarint_loop_continued by assumption.
  rewrite IH by assumption. reflexivity.
Qed.

Lemma low_septet_range (c : Z) : 0 <= Z.land c 0x7f < 128.
Proof.
  change 0x7f with (Z.ones 7). rewrite Z.land_ones by lia.
  apply Z.mod_pos_bound. lia.
Qed.

Lemma lor_low_bits (rv d : Z) :
  rv mod 128 = 0 -> 0 <= d < 128 -> Z.lor rv d = rv + d.
Proof.
  intros Hrv Hd.
  assert (Hland : Z.land rv d = 0).
  { apply Z.bits_inj'. intros n Hn. rewrite Z.land_spec, Z.bits_0.
    destruct (Z.ltb_spec n 7).
    - replace (Z.testbit rv n) with false; [reflexivity|].
      change 128 with (2 ^ 7) in Hrv.
      rewrite <- (Z.mod_pow2_bits_low rv 7 n) by lia. rewrite Hrv. now rewrite Z.bits_0.
    - destruct (Z.eq_dec d 0) as [->|Hz]; [rewrite Z.bits_0; apply andb_false_r|].
      rewrite (Z.bits_above_log2 d n), andb_false_r; try lia.
      apply Z.lt_le_trans with 7; [|lia].
      apply Z.log2_lt_pow2; [lia|]. change (2 ^ 7) with 128. lia. }
  rewrite <- Z.lxor_lor by exact Hland.
  symmetry. apply Z.add_nocarry_lxor. exact Hland.
Qed.

(** The accumulator after continuation bytes, in closed form: 128 times
    the base-128 number of their low seven bits, modulo 2^64. *)
Lemma shift_in_closed_form (ds : list Z) :
  forall m,
    Forall (fun d => 0 <= d < 128) ds ->
    shift_in (Go.uint64 (128 * m)) ds = Go.uint64 (128 * msb_value m ds).
Proof.
  induction ds as [|d ds IH]; intros m Hds; [reflexivity|].
  inversion Hds as [|? ? Hd Hds']; subst.
  unfold shift_in, msb_value in *. cbn [fold_left].
  rewrite <- (IH (128 * m + d) Hds'). f_equal.
  assert (Hm : Go.uint64 (128 * m) mod 128 = 0).
  { unfold Go.uint64. change (2 ^ 64) with 18446744073709551616.
    Z.div_mod_to_equations. lia. }
  rewrite lor_low_bits by assumption.
  rewrite Z.shiftl_mul_pow2 by lia. change (2 ^ 7) with 128.
  unfold Go.uint64. change (2 ^ 64) with 18446744073709551616.
  Z.div_mod_to_equations. lia.
Qed.

Lemma low_septets (cs : list Z) :
  Forall (fun d => 0 <= d < 128) (map (fun c => Z.land c 0x7f) cs).
Proof.
  apply Forall_map, Forall_forall. intros c _. apply low_septet_range.
Qed.

Lemma msb_value_snoc (ds : list Z) (d m : Z) :
  msb_value m (ds ++ [d]) = 128 * msb_value m ds + d.
Proof. unfold msb_value. rewrite fold_left_app. reflexivity. Qed.

(** C3, amended.  [readVarint] fails with the truncation error when the
    stream ends after continuation bytes and the accumulator is not 0:
    the number that the low seven bits of the bytes stand for in base 128,
    times 128 and modulo 2^64.  And it has no overflow error: a quantity
    of any number of bytes that ends in a byte with the high bit clear is
    decoded, to the number that the low seven bits of its bytes stand for
    in base 128, modulo 2^64. *)
Theorem readVarint_errors :
  (forall cs,
      forallb continued cs = true ->
      Go.uint64 (128 * msb_value 0 (map (fun c => Z.land c 0x7f) cs)) <> 0 ->
      readVarint cs = (Err TruncatedVarint, [])) /\
  (forall cs b rest,
      forallb continued cs = true -> continued b = false ->
      readVarint (cs ++ b :: rest)
      = (Ok (Go.uint64 (msb_value 0 (map (fun c => Z.land c 0x7f) (cs ++ [b])))),
         rest)).
Proof.
  split.
  - intros cs Hc Hnz. unfold readVarint.
    rewrite <- (app_nil_r cs) at 1.
    rewrite readVarint_loop_continuation_bytes by exact Hc.
    change 0 with (Go.uint64 (128 * 0)) at 1.
    rewrite shift_in_closed_form by apply low_septets.
    cbn [readVarint_loop].
    destruct (Z.eqb_spec
                (Go.uint64 (128 * msb_value 0 (map (fun c => Z.land c 0x7f) cs))) 0);
      [contradiction|reflexivity].
  - intros cs b rest Hc Hb. unfold readVarint.
    rewrite readVarint_loop_continuation_bytes by exact Hc.
    rewrite readVarint_loop_final by exact Hb.
    change 0 with (Go.uint64 (128 * 0)) at 1.
    rewrite shift_in_closed_form by apply low_septets.
    rewrite map_app. cbn [map]. rewrite msb_value_snoc.
    pose proof (low_septet_range b) as Hd.
    assert (Hm : Go.uint64 (128 * msb_value 0 (map (fun c => Z.land c 0x7f) cs)) mod 128
                 = 0).
    { unfold Go.uint64. change (2 ^ 64) with 18446744073709551616.
      Z.div_mod_to_equations. lia. }
    rewrite lor_low_bits by assumption.
    f_equal. f_equal.
    unfold Go.uint64. change (2 ^ 64) with 18446744073709551616.
    Z.div_mod_to_equations. lia.
Qed.

Lemma readVarint_errors_witness :
  readVarint [0x81; 0x80] = (Err TruncatedVarint, []) /\
  readVarint ([0x81; 0x80; 0x80; 0x80; 0x80; 0x80; 0x80] ++ 0x05 :: [0x90])
  = (Ok (Go.uint64
           (msb_value 0
              (map (fun c => Z.land c 0x7f)
                 ([0x81; 0x80; 0x80; 0x80; 0x80; 0x80; 0x80] ++ [0x05])))),
     [0x90]).
Proof.
  split.
  - apply (proj1 readVarint_errors [0x81; 0x80]); [reflexivity|discriminate].
  - apply (proj2 readVarint_errors [0x81; 0x80; 0x80; 0x80; 0x80; 0x80; 0x80] 0x05 [0x90]);
      reflexivity.
Defined.

(** The quantity of the witness: eight bytes, the number 2^49 + 5. *)
Example readVarint_eight_bytes :
  readVarint [0x81; 0x80; 0x80; 0x80; 0x80; 0x80; 0x80; 0x05] = (Ok (2 ^ 49 + 5), []).
Proof. reflexivity. Qed.
(* ===================================================================== *)
(** ** C4: the length bytes of Meta and SysEx events *)
(* ===================================================================== *)

(** In [wantMetaLength] a byte is a stop point exactly when the updated
    [metaLength] is 0; the test does not look at the high bit of the byte. *)
Lemma wantMetaLength_stop_iff (p : eventDataParser) (b : Z) :
  state p = wantMetaLength ->
  snd (feedByteInternal p b) = Ok true <->
  Z.lor (Go.int (Z.shiftl (metaLength p) 7)) (Z.land b 0x7F) = 0.
Proof.
  intros Hs. unfold feedByteInternal. rewrite Hs.
  generalize (Z.lor (Go.int (Z.shiftl (metaLength p) 7)) (Z.land b 0x7F)). intros n.
  destruct (Z.land b 128 =? 0); cbn; destruct (Z.eqb_spec n 0); cbn;
    split; intros H; congruence.
Qed.

Lemma wantSysexLength_stop_iff (p : eventDataParser) (b : Z) :
  state p = wantSysexLength ->
  snd (feedByteInternal p b) = Ok true <->
  Z.lor (Go.int (Z.shiftl (sysexLength p) 7)) (Z.land b 0x7F) = 0.
Proof.
  intros Hs. unfold feedByteInternal. rewrite Hs.
  generalize (Z.lor (Go.int (Z.shiftl (sysexLength p) 7)) (Z.land b 0x7F)). intros n.
  destruct (Z.land b 128 =? 0); cbn; destruct (Z.eqb_spec n 0); cbn;
    split; intros H; congruence.
Qed.

(** The part of the claim the code keeps: a byte with the high bit clear
    that leaves [metaLength] at 0 emits the Meta event, and the parser is
    back in [wantEvent]. *)
Lemma wantMetaLength_zero_emits (p : eventDataParser) (b : Z) :
  state p = wantMetaLength ->
  Z.lor (Go.int (Z.shiftl (metaLength p) 7)) (Z.land b 0x7F) = 0 ->
  exists p',
    feedByteInternal p b = (p', Ok true) /\
    state p' = wantEvent /\
    events p' = events p ++ [mkEvent metaEvent (metaEventType p) (eventData p) 0].
Proof.
  intros Hs Hz. unfold feedByteInternal. rewrite Hs, Hz.
  destruct (Z.land b 128 =? 0); cbn;
    eexists; split; try reflexivity; split; reflexivity.
Qed.

(** C4.  The continuation byte 0x80 as the first length byte of a Meta
    event, and of a SysEx event, is a stop point and emits the event with
    empty data, where the claim has that a byte with the high bit set never
    emits one. *)
Theorem length_continuation_byte_emits :
  feed newParser [0xFF; 0x2F; 0x80]
  = (mkParser wantEvent 3 0 None 0x2F 0 0 0 None [mkEvent metaEvent 0x2F None 0],
     None) /\
  feedByteInternal (fst (feed newParser [0xFF; 0x2F])) 0x80
  = (mkParser wantEvent 2 0 None 0x2F 0 0 0 None [mkEvent metaEvent 0x2F None 0],
     Ok true) /\
  feedByteInternal (fst (feed newParser [0xF0])) 0x80
  = (mkParser wantEvent 1 0 None 0 0 0 0 None [mkEvent sysexEvent 0xF0 None 0],
     Ok true).
Proof. repeat split. Qed.

(* ===================================================================== *)
(** ** C5: the track count written by [File.encode] *)
(* ===================================================================== *)

Lemma File_encode_tracks_prefix (trks : list Track) :
  forall i buf out,
    File_encode_tracks i buf trks = Ok out -> exists tail, out = buf ++ tail.
Proof.
  induction trks as [|t trks IH]; intros i buf out H; simpl in H.
  - inversion H; subst. exists []. now rewrite app_nil_r.
  - destruct (Track_encode t) as [d|e]; [|discriminate].
    apply IH in H. destruct H as [tail ->]. exists (d ++ tail).
    now rewrite app_assoc.
Qed.

Lemma File_encode_no_tracks_counted :
  File_encode (mkFile (mkHeader 0 2 0xC0) [])
  = Ok [0x4D; 0x54; 0x68; 0x64; 0; 0; 0; 6; 0; 0; 0; 2; 0; 0xC0].
Proof. reflexivity. Qed.

(** C5, as stated, fails: a File whose header says 2 tracks and whose
    track sequence holds 1 is encoded with 2 in the track-count field. *)
Lemma File_encode_track_count_counterexample :
  let f := mkFile (mkHeader 0 2 0xC0) [mkTrack []] in
  exists out,
    File_encode f = Ok out /\
    firstn 2 (skipn 10 out) = Go.be16 2 /\
    List.length (Tracks f) = 1%nat /\
    firstn 2 (skipn 10 out) <> Go.be16 (Z.of_nat (List.length (Tracks f))).
Proof.
  eexists. split; [reflexivity|]. repeat split. discriminate.
Qed.

(** C5, amended.  The track-count field [File.encode] writes (the bytes at
    offsets 10 and 11) is the [NumberOfTracks] of the File's header; it is
    the number of Tracks when the header was given that number. *)
Theorem File_encode_track_count (f : File) (out : list Z) :
  File_encode f = Ok out ->
  firstn 2 (skipn 10 out) = Go.be16 (NumberOfTracks (Header_ f)) /\
  (NumberOfTracks (Header_ f) = Z.of_nat (List.length (Tracks f)) ->
   firstn 2 (skipn 10 out) = Go.be16 (Z.of_nat (List.length (Tracks f)))).
Proof.
  intros H. unfold File_encode, Header_encode in H.
  apply File_encode_tracks_prefix in H. destruct H as [tail ->].
  assert (E : firstn 2 (skipn 10
                ((MThd ++ Go.be32 6 ++ Go.be16 (Format (Header_ f))
                    ++ Go.be16 (NumberOfTracks (Header_ f))
                    ++ Go.be16 (Go.uint16 (Division (Header_ f)))) ++ tail))
              = Go.be16 (NumberOfTracks (Header_ f))) by reflexivity.
  split; [exact E|]. intros Hn. rewrite E, Hn. reflexivity.
Qed.

Lemma File_encode_track_count_witness :
  firstn 2 (skipn 10 (MThd ++ [0; 0; 0; 6; 0; 0; 0; 1; 0; 0xC0]
                        ++ MTrk ++ [0; 0; 0; 4; 0; 0xFF; 0x2F; 0]))
  = Go.be16 1 /\
  (1 = Z.of_nat 1 ->
   firstn 2 (skipn 10 (MThd ++ [0; 0; 0; 6; 0; 0; 0; 1; 0; 0xC0]
                         ++ MTrk ++ [0; 0; 0; 4; 0; 0xFF; 0x2F; 0]))
   = Go.be16 (Z.of_nat 1)).
Proof.
  exact (File_encode_track_count
           (mkFile (mkHeader 0 1 0xC0) [mkTrack [Meta (mkMeta 0x2F None)]])
           (MThd ++ [0; 0; 0; 6; 0; 0; 0; 1; 0; 0xC0]
              ++ MTrk ++ [0; 0; 0; 4; 0; 0xFF; 0x2F; 0])
           eq_refl).
Defined.

(* ===================================================================== *)
(** ** C6: the VLQ round trip *)
(* ===================================================================== *)


(** *** Septets *)

Lemma septets_step (n : Z) :
  septets n = if n >? 0 then Go.byte (Z.land n 0x7f) :: septets (Z.shiftr n 7) else [].
Proof.
  rewrite septets_equation_1.
  destruct (Z_gt_dec n 0) as [H|H]; cbn [septets_clause_1].
  - destruct (Z.gtb_spec n 0); [reflexivity|lia].
  - destruct (Z.gtb_spec n 0); [lia|reflexivity].
Qed.

Lemma low_septet (n : Z) : 0 <= n -> Go.byte (Z.land n 0x7f) = n mod 128.
Proof.
  intros Hn. change 0x7f with (Z.ones 7). rewrite Z.land_ones by lia.
  unfold Go.byte. change (2 ^ 7) with 128.
  apply Z.mod_small. pose proof (Z.mod_pos_bound n 128). lia.
Qed.

Lemma septets_pos (n : Z) :
  0 < n -> septets n = n mod 128 :: septets (n / 128).
Proof.
  intros Hn. rewrite septets_step.
  destruct (Z.gtb_spec n 0); [|lia].
  rewrite low_septet by lia. rewrite Z.shiftr_div_pow2 by lia. reflexivity.
Qed.

Lemma septets_zero (n : Z) : n <= 0 -> septets n = [].
Proof.
  intros Hn. rewrite septets_step. destruct (Z.gtb_spec n 0); [lia|reflexivity].
Qed.

Lemma septets_spec (n : Z) :
  0 <= n ->
  Forall septet (septets n) /\ septets_value (septets n) = n /\
  (0 < n -> last (septets n) 0 <> 0).
Proof.
  intros Hn. pattern n. apply Zlt_0_ind; [|exact Hn]. clear n Hn.
  intros n IH Hn.
  destruct (Z.eq_dec n 0) as [->|Hnz].
  - rewrite septets_zero by lia. repeat split; [constructor|lia].
  - rewrite septets_pos by lia.
    assert (Hq : 0 <= n / 128 < n).
    { split; [apply Z.div_pos; lia|apply Z.div_lt; lia]. }
    destruct (IH (n / 128) Hq) as (Hf & Hv & Hl).
    pose proof (Z.mod_pos_bound n 128 ltac:(lia)) as Hm.
    repeat split.
    + constructor; [exact Hm|exact Hf].
    + cbn [septets_value]. rewrite Hv. pose proof (Z.div_mod n 128). lia.
    + intros _. destruct (Z.eq_dec (n / 128) 0) as [Hz|Hz].
      * rewrite Hz, (septets_zero 0) by lia. cbn.
        pose proof (Z.div_mod n 128). lia.
      * specialize (Hl ltac:(lia)).
        destruct (septets (n / 128)) as [|d ds] eqn:E; [cbn in Hl; congruence|].
        exact Hl.
Qed.

(** *** The second loop of [encodeVarint] *)

Lemma firstn_succ_nth (l : list Z) :
  forall j, (j < List.length l)%nat -> firstn (S j) l = firstn j l ++ [nth j l 0].
Proof.
  induction l as [|x l IH]; intros j Hj; cbn [List.length] in Hj.
  - lia.
  - destruct j as [|j]; [reflexivity|].
    cbn [firstn nth app]. f_equal. apply IH. lia.
Qed.

Lemma emit_septets_spec (rrv : list Z) (i : nat) :
  forall rv, (i <= List.length rrv)%nat ->
             emit_septets rrv i rv = rv ++ varint_bytes (firstn i rrv).
Proof.
  induction i as [|j IH]; intros rv Hi.
  - cbn. now rewrite app_nil_r.
  - cbn [emit_septets]. rewrite IH by lia.
    rewrite firstn_succ_nth by lia. rewrite <- app_assoc. f_equal.
    destruct j as [|j].
    + reflexivity.
    + destruct rrv as [|d0 hs]; [cbn in Hi; lia|].
      cbn [firstn app varint_bytes Nat.eqb].
      rewrite rev_app_distr. reflexivity.
Qed.

Lemma encodeVarint_pos (n : Z) :
  0 < n ->
  encodeVarint n = map set_high_bit (rev (septets (n / 128))) ++ [n mod 128].
Proof.
  intros Hn. unfold encodeVarint.
  destruct (Z.eqb_spec n 0); [lia|].
  cbv zeta. rewrite emit_septets_spec by lia.
  rewrite firstn_all, septets_pos by lia. reflexivity.
Qed.

(** *** Decoding marked septets *)

Lemma septet_byte_facts (d : Z) :
  septet d ->
  continued (set_high_bit d) = true /\ Z.land (set_high_bit d) 0x7f = d /\
  continued d = false /\ Z.land d 0x7f = d.
Proof.
  intros Hd. unfold septet in Hd.
  assert (H := forall_byte
                 (fun d => (128 <=? d)
                           || (continued (set_high_bit d)
                               && (Z.land (set_high_bit d) 0x7f =? d)
                               && negb (continued d)
                               && (Z.land d 0x7f =? d)))
                 eq_refl d ltac:(lia)).
  cbv beta in H. apply orb_true_iff in H. destruct H as [H|H].
  - apply Z.leb_le in H. lia.
  - repeat (apply andb_true_iff in H; destruct H as [H ?]).
    repeat split; try assumption.
    + now apply Z.eqb_eq.
    + now apply negb_true_iff.
    + now apply Z.eqb_eq.
Qed.

Lemma readVarint_loop_marked (ms : list Z) :
  forall rv rest,
    Forall septet ms ->
    readVarint_loop rv (map set_high_bit ms ++ rest)
    = readVarint_loop (shift_in rv ms) rest.
Proof.
  induction ms as [|d ms IH]; intros rv rest Hms.
  - reflexivity.
  - inversion Hms as [|? ? Hd Hms']; subst.
    destruct (septet_byte_facts d Hd) as (Hc & Hl & _ & _).
    cbn [map app]. rewrite readVarint_loop_continued by assumption.
    rewrite Hl. rewrite IH by assumption. reflexivity.
Qed.

Lemma lor_septet (v d : Z) : septet d -> Z.lor (128 * v) d = 128 * v + d.
Proof.
  intros Hd. unfold septet in Hd.
  assert (Hland : Z.land (128 * v) d = 0).
  { apply Z.bits_inj'. intros n Hn. rewrite Z.land_spec, Z.bits_0.
    destruct (Z.ltb_spec n 7).
    - replace (128 * v) with (v * 2 ^ 7) by lia.
      rewrite Z.mul_pow2_bits_low by lia. reflexivity.
    - rewrite (Z.bits_above_log2 d n), andb_false_r; try lia.
      destruct (Z.eq_dec d 0) as [->|Hz]; [cbn; lia|].
      apply Z.log2_lt_pow2; try lia.
      apply Z.lt_le_trans with (2 ^ 7); [cbn; lia|].
      apply Z.pow_le_mono_r; lia. }
  rewrite <- Z.lxor_lor by exact Hland.
  symmetry. apply Z.add_nocarry_lxor. exact Hland.
Qed.

Lemma shift_in_value (ds : list Z) :
  Forall septet ds ->
  128 * septets_value ds < 2 ^ 64 ->
  shift_in 0 (rev ds) = 128 * septets_value ds.
Proof.
  induction ds as [|d ds IH]; intros Hds Hb.
  - reflexivity.
  - inversion Hds as [|? ? Hd Hds']; subst.
    cbn [septets_value] in Hb |- *.
    assert (Hv : 0 <= septets_value ds).
    { clear -Hds'. induction Hds' as [|x l Hx _ IHl]; cbn [septets_value];
        unfold septet in *; lia. }
    unfold septet in Hd.
    unfold shift_in in *. cbn [rev]. rewrite fold_left_app. cbn [fold_left].
    rewrite IH by (try assumption; lia).
    rewrite lor_septet by exact Hd.
    rewrite Z.shiftl_mul_pow2 by lia. unfold Go.uint64.
    rewrite Z.mod_small by lia. lia.
Qed.


(** The round trip holds over the whole range of [uint64], and in front of
    any further bytes. *)
Lemma readVarint_encodeVarint (u : Z) (rest : list Z) :
  0 <= u < 2 ^ 64 ->
  readVarint (encodeVarint u ++ rest) = (Ok u, rest).
Proof.
  intros Hu. unfold readVarint.
  destruct (Z.eq_dec u 0) as [->|Hnz]; [reflexivity|].
  rewrite encodeVarint_pos by lia.
  destruct (septets_spec (u / 128)) as (Hf & Hv & _);
    [apply Z.div_pos; lia|].
  pose proof (Z.div_mod u 128 ltac:(lia)) as Hdm.
  pose proof (Z.mod_pos_bound u 128 ltac:(lia)) as Hm.
  rewrite <- app_assoc. rewrite readVarint_loop_marked.
  2:{ apply Forall_rev. exact Hf. }
  rewrite shift_in_value by (try assumption; lia).
  cbn [app].
  destruct (septet_byte_facts (u mod 128) Hm) as (_ & _ & Hc & Hl).
  rewrite readVarint_loop_final by assumption.
  rewrite Hl, Hv, lor_septet by exact Hm. f_equal. f_equal. lia.
Qed.

(** C6.  Decoding the encoding of [u] gives [u] back, for every [u] below
    2^32, and nothing of the encoding is left unread. *)
Theorem varint_roundtrip (u : Z) :
  0 <= u < 2 ^ 32 ->
  readVarint (encodeVarint u) = (Ok u, []).
Proof.
  intros Hu. rewrite <- (app_nil_r (encodeVarint u)).
  apply readVarint_encodeVarint. lia.
Qed.

Lemma varint_roundtrip_witness :
  readVarint (encodeVarint 12345678) = (Ok 12345678, []).
Proof. apply (varint_roundtrip 12345678). lia. Defined.
(* ===================================================================== *)
(** ** C7: NoteOn with velocity 0 *)
(* ===================================================================== *)

Lemma nibble_cases (c : Z) :
  0 <= c < 16 ->
  c = 0 \/ c = 1 \/ c = 2 \/ c = 3 \/ c = 4 \/ c = 5 \/ c = 6 \/ c = 7 \/
  c = 8 \/ c = 9 \/ c = 10 \/ c = 11 \/ c = 12 \/ c = 13 \/ c = 14 \/ c = 15.
Proof. lia. Qed.

(** C7.  The raw MIDI event with status byte [0x90 | c] and data [k, 0]
    is presented as a NoteOff on channel [c] with key [k] and velocity
    0x40. *)
Theorem presentEvent_NoteOn_zero (c k td : Z) :
  0 <= c < 16 -> 0 <= k < 256 ->
  presentEvent (mkEvent midiEvent (Z.lor 0x90 c) (Some [k; 0x00]) td)
  = Ok (MIDI (mkMIDI NoteOff (Z.lor 0x90 c) c k 0x40 0 0 0 (Some [k; 0x00]))).
Proof.
  intros Hc _.
  destruct (nibble_cases c Hc) as
    [->|[->|[->|[->|[->|[->|[->|[->|[->|[->|[->|[->|[->|[->|[->| ->]]]]]]]]]]]]]]];
    reflexivity.
Qed.

Lemma presentEvent_NoteOn_zero_witness :
  presentEvent (mkEvent midiEvent 0x93 (Some [0x3C; 0x00]) 0)
  = Ok (MIDI (mkMIDI NoteOff 0x93 3 0x3C 0x40 0 0 0 (Some [0x3C; 0x00]))).
Proof. apply (presentEvent_NoteOn_zero 3 0x3C 0); lia. Defined.


(* ===================================================================== *)
(** ** C8: running status *)
(* ===================================================================== *)

Lemma status_byte_facts (s : Z) :
  status_byte s ->
  (s =? 0xFF) = false /\ (s =? 0xF0) = false /\ (s =? 0xF7) = false /\
  (Z.land s 0x80 =? 0) = false /\
  exists spec, midiEventSpecs (Z.shiftr (Z.land s 0xf0) 4) = Some spec /\
               (dataLen spec = 1 \/ dataLen spec = 2).
Proof.
  intros Hs. unfold status_byte in Hs.
  assert (H := forall_byte
                 (fun s => (s <? 0x80) || (0xF0 <=? s)
                           || (negb (s =? 0xFF) && negb (s =? 0xF0) && negb (s =? 0xF7)
                               && negb (Z.land s 0x80 =? 0)
                               && match midiEventSpecs (Z.shiftr (Z.land s 0xf0) 4) with
                                  | Some spec => (dataLen spec =? 1) || (dataLen spec =? 2)
                                  | None => false
                                  end))
                 eq_refl s ltac:(lia)).
  cbv beta in H.
  apply orb_true_iff in H. destruct H as [H|H].
  { apply orb_true_iff in H. destruct H as [H|H];
      [apply Z.ltb_lt in H|apply Z.leb_le in H]; lia. }
  repeat (apply andb_true_iff in H; destruct H as [H ?]).
  repeat match goal with E : negb _ = true |- _ => apply negb_true_iff in E end.
  repeat split; try assumption.
  destruct (midiEventSpecs (Z.shiftr (Z.land s 240) 4)) as [spec|]; [|discriminate].
  exists spec. split; [reflexivity|].
  match goal with E : (_ || _) = true |- _ => apply orb_true_iff in E; destruct E as [E|E];
    apply Z.eqb_eq in E; auto end.
Qed.

Lemma data_byte_facts (b : Z) :
  data_byte b ->
  (b =? 0xFF) = false /\ (b =? 0xF0) = false /\ (b =? 0xF7) = false /\
  (Z.land b 0x80 =? 0) = true.
Proof.
  intros Hb. unfold data_byte in Hb.
  repeat split; try (apply Z.eqb_neq; lia).
  apply Z.eqb_eq, land_0x80_data. exact Hb.
Qed.

Section ParserSteps.

Variables (bf rs mt ml cst sl : Z) (sd : Go.slice) (evs : list event).

Lemma feedByte_status (s : Z) :
  status_byte s ->
  feedByte (mkParser wantEvent bf rs None mt ml cst sl sd evs) s
  = (mkParser wantEvent (next bf) s None mt ml cst sl sd evs, Ok false).
Proof.
  intros Hs. destruct (status_byte_facts s Hs) as (H1 & H2 & H3 & H4 & _).
  parser_step. rewrite H1, H2, H3, H4. reflexivity.
Qed.

Lemma feedByte_data_first (b : Z) :
  payload_len rs = 2 -> data_byte b ->
  feedByte (mkParser wantEvent bf rs None mt ml cst sl sd evs) b
  = (mkParser wantEvent (next bf) rs (Some [b]) mt ml cst sl sd evs, Ok false).
Proof.
  intros Hl Hb. destruct (data_byte_facts b Hb) as (H1 & H2 & H3 & H4).
  unfold payload_len in Hl.
  parser_step. rewrite H1, H2, H3, H4. cbn [orb negb].
  destruct (midiEventSpecs (Z.shiftr (Z.land rs 240) 4)) as [spec|]; [|discriminate].
  cbn [eventData Go.len List.length]. rewrite Hl. reflexivity.
Qed.

Lemma feedByte_data_second (b1 b2 : Z) :
  payload_len rs = 2 -> data_byte b2 ->
  feedByte (mkParser wantEvent bf rs (Some [b1]) mt ml cst sl sd evs) b2
  = (mkParser wantEvent (next bf) rs None mt ml cst sl sd
       (evs ++ [mkEvent midiEvent rs (Some [b1; b2]) 0]), Ok true).
Proof.
  intros Hl Hb. destruct (data_byte_facts b2 Hb) as (H1 & H2 & H3 & H4).
  unfold payload_len in Hl.
  parser_step. rewrite H1, H2, H3, H4. cbn [orb negb].
  destruct (midiEventSpecs (Z.shiftr (Z.land rs 240) 4)) as [spec|]; [|discriminate].
  cbn [eventData Go.len List.length runningStatus events]. rewrite Hl. reflexivity.
Qed.

Lemma feedByte_data_only (b : Z) :
  payload_len rs = 1 -> data_byte b ->
  feedByte (mkParser wantEvent bf rs None mt ml cst sl sd evs) b
  = (mkParser wantEvent (next bf) rs None mt ml cst sl sd
       (evs ++ [mkEvent midiEvent rs (Some [b]) 0]), Ok true).
Proof.
  intros Hl Hb. destruct (data_byte_facts b Hb) as (H1 & H2 & H3 & H4).
  unfold payload_len in Hl.
  parser_step. rewrite H1, H2, H3, H4. cbn [orb negb].
  destruct (midiEventSpecs (Z.shiftr (Z.land rs 240) 4)) as [spec|]; [|discriminate].
  cbn [eventData Go.len List.length runningStatus events]. rewrite Hl. reflexivity.
Qed.

End ParserSteps.

(** The kind and the payload length of a status byte go together as in
    the spec table. *)
Lemma status_kind (s : Z) :
  status_byte s ->
  (Z.land 0xf0 s = NoteOff /\ payload_len s = 2) \/
  (Z.land 0xf0 s = NoteOn /\ payload_len s = 2) \/
  (Z.land 0xf0 s = Aftertouch /\ payload_len s = 2) \/
  (Z.land 0xf0 s = ControllerChange /\ payload_len s = 2) \/
  (Z.land 0xf0 s = ProgramChange /\ payload_len s = 1) \/
  (Z.land 0xf0 s = ChannelPressure /\ payload_len s = 1) \/
  (Z.land 0xf0 s = PitchBend /\ payload_len s = 2).
Proof.
  intros Hs. unfold status_byte in Hs.
  assert (H := forall_byte
                 (fun s => (s <? 0x80) || (0xF0 <=? s)
                           || ((Z.land 0xf0 s =? NoteOff) && (payload_len s =? 2))
                           || ((Z.land 0xf0 s =? NoteOn) && (payload_len s =? 2))
                           || ((Z.land 0xf0 s =? Aftertouch) && (payload_len s =? 2))
                           || ((Z.land 0xf0 s =? ControllerChange) && (payload_len s =? 2))
                           || ((Z.land 0xf0 s =? ProgramChange) && (payload_len s =? 1))
                           || ((Z.land 0xf0 s =? ChannelPressure) && (payload_len s =? 1))
                           || ((Z.land 0xf0 s =? PitchBend) && (payload_len s =? 2)))
                 eq_refl s ltac:(lia)).
  cbv beta in H. bool_hyps; try lia; tauto.
Qed.

(** What [presentEvent] makes of a well-formed raw MIDI event: the status
    byte and the channel are those of the raw event; the kind is the high
    nibble, but for a NoteOn with velocity 0. *)
Lemma presentEvent_midi (s : Z) (payload : list Z) (td : Z) :
  status_byte s ->
  Z.of_nat (List.length payload) = payload_len s ->
  exists m,
    presentEvent (mkEvent midiEvent s (Some payload) td) = Ok (MIDI m) /\
    RawType m = s /\ Channel m = Z.land 0x0f s /\ RawData m = Some payload /\
    Type_ m = if (Z.land 0xf0 s =? NoteOn) && (nth 1 payload 0 =? 0)
              then NoteOff else Z.land 0xf0 s.
Proof.
  intros Hs Hl.
  unfold presentEvent, expectLen.
  cbn [kind typeByte data Type_ RawData Go.len].
  generalize (Z.land 0x0f s) as ch. intros ch.
  destruct (status_kind s Hs) as [[Ht Hp]|[[Ht Hp]|[[Ht Hp]|[[Ht Hp]|[[Ht Hp]|[[Ht Hp]|[Ht Hp]]]]]]];
    rewrite Ht, Hl, Hp; cbn [Z.eqb Pos.eqb NoteOn NoteOff Aftertouch ControllerChange
                               ProgramChange ChannelPressure PitchBend negb andb];
    try (eexists; split; [reflexivity|]; repeat split; reflexivity).
  (* NoteOn *)
  unfold set_Velocity, set_Key, set_Type, RawData_at.
  cbn [Velocity Type_ RawType Channel Key ControllerNumber ControllerValue
       ProgramNumber RawData Go.elems].
  destruct (nth 1 payload 0 =? 0);
    eexists; (split; [reflexivity|]); repeat split; reflexivity.
Qed.

Section RunningStatus.

Variables (bf rs mt ml cst sl : Z) (sd : Go.slice) (evs : list event).

(** A payload under the running status [rs]. *)
Lemma readSingleEvent_payload (began : bool) (payload rest : list Z) :
  status_byte rs ->
  Z.of_nat (List.length payload) = payload_len rs ->
  Forall data_byte payload ->
  readSingleEvent_loop (mkParser wantEvent bf rs None mt ml cst sl sd evs) began
    (payload ++ rest)
  = ((mkParser wantEvent (fed (List.length payload) bf) rs None mt ml cst sl sd
        (evs ++ [mkEvent midiEvent rs (Some payload) 0]), Ok tt), rest).
Proof.
  intros Hs Hl Hd.
  destruct (status_byte_facts rs Hs) as (_ & _ & _ & _ & spec & Hspec & Hlen).
  assert (Hp : payload_len rs = dataLen spec) by (unfold payload_len; now rewrite Hspec).
  destruct payload as [|b1 [|b2 [|b3 payload]]]; cbn [List.length] in Hl;
    try (exfalso; lia).
  - inversion Hd as [|? ? Hb1 _]; subst.
    cbn [app readSingleEvent_loop].
    rewrite feedByte_data_only by (try assumption; lia). reflexivity.
  - inversion Hd as [|? ? Hb1 Hd']; subst. inversion Hd' as [|? ? Hb2 _]; subst.
    cbn [app readSingleEvent_loop].
    rewrite feedByte_data_first by (try assumption; lia).
    rewrite feedByte_data_second by (try assumption; lia). reflexivity.
Qed.

End RunningStatus.

Section StatusAndPayload.

Variables (bf rs mt ml cst sl : Z) (sd : Go.slice) (evs : list event).

(** A status byte and its payload. *)
Lemma readSingleEvent_status_payload (began : bool) (s : Z) (payload rest : list Z) :
  status_byte s ->
  Z.of_nat (List.length payload) = payload_len s ->
  Forall data_byte payload ->
  readSingleEvent_loop (mkParser wantEvent bf rs None mt ml cst sl sd evs) began
    (s :: payload ++ rest)
  = ((mkParser wantEvent (fed (S (List.length payload)) bf) s None mt ml cst sl sd
        (evs ++ [mkEvent midiEvent s (Some payload) 0]), Ok tt), rest).
Proof.
  intros Hs Hl Hd. cbn [readSingleEvent_loop].
  rewrite feedByte_status by assumption.
  rewrite readSingleEvent_payload by assumption.
  unfold fed. rewrite <- Nat.iter_succ_r. reflexivity.
Qed.

End StatusAndPayload.

(** C8, as stated, fails: after [90 3C 7F], the running-status event
    [3C 00] is presented as a NoteOff, the first as a NoteOn. *)
Lemma running_status_kind_counterexample :
  exists m1 m2,
    parseTrackBody [0x00; 0x90; 0x3C; 0x7F; 0x00; 0x3C; 0x00]
    = (Ok [mkEvent midiEvent 0x90 (Some [0x3C; 0x7F]) 0;
           mkEvent midiEvent 0x90 (Some [0x3C; 0x00]) 0], []) /\
    presentEvents [mkEvent midiEvent 0x90 (Some [0x3C; 0x7F]) 0;
                   mkEvent midiEvent 0x90 (Some [0x3C; 0x00]) 0] []
    = Ok [MIDI m1; MIDI m2] /\
    Type_ m1 = NoteOn /\ Type_ m2 = NoteOff /\ Type_ m2 <> Type_ m1.
Proof.
  do 2 eexists. split; [reflexivity|]. split; [reflexivity|].
  repeat split. discriminate.
Qed.

(** C8, amended.  From a parser that waits for an event, a status byte with
    its payload and then a payload alone are read as two MIDI events; after
    a delta [td] between them, as [parseTrackBody] reads it.  The two
    presented events have the same channel and the same raw status byte;
    they have the same kind too, unless the status is NoteOn and exactly
    one of them has velocity 0. *)
Theorem running_status_stability
  (bf rs mt ml cst sl : Z) (sd : Go.slice) (evs : list event)
  (s td : Z) (payload1 payload2 rest : list Z) :
  status_byte s ->
  Z.of_nat (List.length payload1) = payload_len s ->
  Z.of_nat (List.length payload2) = payload_len s ->
  Forall data_byte payload1 ->
  Forall data_byte payload2 ->
  exists p1 p2 m1 m2,
    readSingleEvent (mkParser wantEvent bf rs None mt ml cst sl sd evs)
      (s :: payload1 ++ payload2 ++ rest)
    = ((p1, Ok tt), payload2 ++ rest) /\
    readSingleEvent (if td >? 0 then addTimeDelta td p1 else p1) (payload2 ++ rest)
    = ((p2, Ok tt), rest) /\
    events p2
    = evs ++ [mkEvent midiEvent s (Some payload1) 0]
          ++ (if td >? 0 then [mkEvent timeDeltaEvent 0 None td] else [])
          ++ [mkEvent midiEvent s (Some payload2) 0] /\
    presentEvent (mkEvent midiEvent s (Some payload1) 0) = Ok (MIDI m1) /\
    presentEvent (mkEvent midiEvent s (Some payload2) 0) = Ok (MIDI m2) /\
    Channel m2 = Channel m1 /\
    RawType m2 = RawType m1 /\
    ((Z.land 0xf0 s = NoteOn -> (nth 1 payload1 0 = 0 <-> nth 1 payload2 0 = 0)) ->
     Type_ m2 = Type_ m1).
Proof.
  intros Hs Hl1 Hl2 Hd1 Hd2.
  destruct (presentEvent_midi s payload1 0 Hs Hl1) as (m1 & Hm1 & Hr1 & Hc1 & _ & Ht1).
  destruct (presentEvent_midi s payload2 0 Hs Hl2) as (m2 & Hm2 & Hr2 & Hc2 & _ & Ht2).
  exists (mkParser wantEvent (fed (S (List.length payload1)) bf) s None mt ml cst sl sd
            (evs ++ [mkEvent midiEvent s (Some payload1) 0])).
  exists (mkParser wantEvent
            (fed (List.length payload2) (fed (S (List.length payload1)) bf))
            s None mt ml cst sl sd
            ((if td >? 0
              then (evs ++ [mkEvent midiEvent s (Some payload1) 0])
                     ++ [mkEvent timeDeltaEvent 0 None td]
              else evs ++ [mkEvent midiEvent s (Some payload1) 0])
               ++ [mkEvent midiEvent s (Some payload2) 0])).
  exists m1, m2.
  split.
  { unfold readSingleEvent. apply readSingleEvent_status_payload; assumption. }
  split.
  { unfold readSingleEvent, addTimeDelta, push_event.
    destruct (td >? 0);
      cbn [state bytesFed runningStatus eventData metaEventType metaLength
           currentSysexType sysexLength sysexData events];
      apply readSingleEvent_payload; assumption. }
  split.
  { cbn [events]. destruct (td >? 0); rewrite <- !app_assoc; reflexivity. }
  split; [exact Hm1|]. split; [exact Hm2|].
  split; [congruence|]. split; [congruence|].
  intros Hv. rewrite Ht1, Ht2.
  destruct (Z.eqb_spec (Z.land 0xf0 s) NoteOn) as [Hn|Hn]; [|reflexivity].
  specialize (Hv Hn). cbn [andb].
  destruct (Z.eqb_spec (nth 1 payload1 0) 0) as [E1|E1];
    destruct (Z.eqb_spec (nth 1 payload2 0) 0) as [E2|E2];
    try reflexivity; exfalso; tauto.
Qed.

Lemma running_status_stability_witness :
  exists p1 p2 m1 m2,
    readSingleEvent newParser (0x93 :: [0x3C; 0x7F] ++ [0x40; 0x7F] ++ [])
    = ((p1, Ok tt), [0x40; 0x7F] ++ []) /\
    readSingleEvent (if 10 >? 0 then addTimeDelta 10 p1 else p1) ([0x40; 0x7F] ++ [])
    = ((p2, Ok tt), []) /\
    events p2
    = [] ++ [mkEvent midiEvent 0x93 (Some [0x3C; 0x7F]) 0]
         ++ (if 10 >? 0 then [mkEvent timeDeltaEvent 0 None 10] else [])
         ++ [mkEvent midiEvent 0x93 (Some [0x40; 0x7F]) 0] /\
    presentEvent (mkEvent midiEvent 0x93 (Some [0x3C; 0x7F]) 0) = Ok (MIDI m1) /\
    presentEvent (mkEvent midiEvent 0x93 (Some [0x40; 0x7F]) 0) = Ok (MIDI m2) /\
    Channel m2 = Channel m1 /\
    RawType m2 = RawType m1 /\
    ((Z.land 0xf0 0x93 = NoteOn ->
      (nth 1 [0x3C; 0x7F] 0 = 0 <-> nth 1 [0x40; 0x7F] 0 = 0)) ->
     Type_ m2 = Type_ m1).
Proof.
  apply (running_status_stability 0 0 0 0 0 0 None [] 0x93 10 [0x3C; 0x7F] [0x40; 0x7F] []).
  - unfold status_byte. lia.
  - reflexivity.
  - reflexivity.
  - repeat constructor; unfold data_byte; lia.
  - repeat constructor; unfold data_byte; lia.
Defined.


(* ===================================================================== *)
(** ** C9: the pending delay of the track encoder *)
(* ===================================================================== *)


Lemma pending_delay_ticks (evts : list Event) :
  forall delay,
    0 <= delay < 2 ^ 64 ->
    pending_delay delay evts = Go.uint64 (delay + ticks evts).
Proof.
  induction evts as [|e evts IH]; intros delay Hd.
  - cbn. unfold Go.uint64. rewrite Z.add_0_r, Z.mod_small; lia.
  - destruct e; cbn [pending_delay ticks]; try (apply IH; assumption).
    rewrite IH by (unfold Go.uint64; apply Z.mod_pos_bound; lia).
    unfold Go.uint64.
    rewrite Z.add_mod_idemp_l by lia.
    rewrite <- Z.add_assoc, (Z.add_comm (td mod 2 ^ 64)), Z.add_assoc.
    rewrite Z.add_mod_idemp_r by lia.
    f_equal. lia.
Qed.

Lemma encodeEvents_loop_app (evts : list Event) :
  forall i delay rv buf,
    encodeEvents_loop i delay (buf ++ rv) evts
    = match encodeEvents_loop i delay rv evts with
      | Ok out => Ok (buf ++ out)
      | Err e => Err e
      end.
Proof.
  induction evts as [|e evts IH]; intros i delay rv buf.
  - reflexivity.
  - destruct e; cbn [encodeEvents_loop].
    + apply IH.
    + destruct (EncodeMIDI (SysexEvent e)); [|reflexivity].
      rewrite <- !app_assoc. apply IH.
    + destruct (EncodeMIDI (Meta e)); [|reflexivity].
      rewrite <- !app_assoc. apply IH.
    + destruct (EncodeMIDI (MIDI e)); [|reflexivity].
      rewrite <- !app_assoc. apply IH.
Qed.

Lemma encodeEvents_loop_index (evts : list Event) :
  forall i j delay rv out,
    encodeEvents_loop i delay rv evts = Ok out ->
    encodeEvents_loop j delay rv evts = Ok out.
Proof.
  induction evts as [|e evts IH]; intros i j delay rv out H.
  - exact H.
  - destruct e; cbn [encodeEvents_loop] in *.
    + eapply IH, H.
    + destruct (EncodeMIDI (SysexEvent e)); [|discriminate]. eapply IH, H.
    + destruct (EncodeMIDI (Meta e)); [|discriminate]. eapply IH, H.
    + destruct (EncodeMIDI (MIDI e)); [|discriminate]. eapply IH, H.
Qed.

Lemma encodeEvents_loop_deltas (tds : list Event) :
  forall i delay rv rest,
    forallb isTimeDelta tds = true ->
    encodeEvents_loop i delay rv (tds ++ rest)
    = encodeEvents_loop (i + Z.of_nat (List.length tds)) (pending_delay delay tds) rv rest.
Proof.
  induction tds as [|e tds IH]; intros i delay rv rest H.
  - cbn. now rewrite Z.add_0_r.
  - destruct e; try discriminate. cbn [forallb isTimeDelta andb] in H.
    cbn [app encodeEvents_loop pending_delay]. rewrite IH by assumption.
    f_equal. cbn [List.length]. lia.
Qed.

(** C9.  A run [tds] of TimeDelta events adds up to the pending delay (the
    sum of their ticks modulo 2^64); in front of the bytes of the event
    [evt] that follows, the VLQ of that delay is written and the events
    after it are encoded from a delay of 0; a run with no event after it
    writes nothing. *)
Theorem encodeEvents_pending_delay (tds : list Event) (evt : Event) (rest : list Event) :
  forallb isTimeDelta tds = true ->
  isTimeDelta evt = false ->
  pending_delay 0 tds = Go.uint64 (ticks tds) /\
  encodeEvents tds = Ok [] /\
  forall encoded tail,
    EncodeMIDI evt = Ok encoded ->
    encodeEvents rest = Ok tail ->
    encodeEvents (tds ++ evt :: rest)
    = Ok (encodeVarint (pending_delay 0 tds) ++ encoded ++ tail).
Proof.
  intros Htds Hevt. split; [|split].
  - apply pending_delay_ticks. cbn. lia.
  - unfold encodeEvents. rewrite <- (app_nil_r tds).
    rewrite encodeEvents_loop_deltas by assumption. reflexivity.
  - intros encoded tail He Hr. unfold encodeEvents in *.
    rewrite encodeEvents_loop_deltas by assumption.
    assert (Hstep : forall i delay rv,
               encodeEvents_loop i delay rv (evt :: rest)
               = encodeEvents_loop (i + 1) 0 ((rv ++ encodeVarint delay) ++ encoded) rest).
    { intros i delay rv. destruct evt; try discriminate;
        cbn [encodeEvents_loop]; rewrite He; reflexivity. }
    rewrite Hstep. cbn [app].
    rewrite <- (app_nil_r (encodeVarint (pending_delay 0 tds) ++ encoded)).
    rewrite encodeEvents_loop_app.
    rewrite (encodeEvents_loop_index rest 0 _ 0 [] tail Hr).
    now rewrite <- app_assoc.
Qed.

Lemma encodeEvents_pending_delay_witness :
  pending_delay 0 [TimeDeltaEvent 100; TimeDeltaEvent 28]
  = Go.uint64 (ticks [TimeDeltaEvent 100; TimeDeltaEvent 28]) /\
  encodeEvents [TimeDeltaEvent 100; TimeDeltaEvent 28] = Ok [] /\
  forall encoded tail,
    EncodeMIDI (Meta (mkMeta 0x2F None)) = Ok encoded ->
    encodeEvents [TimeDeltaEvent 7] = Ok tail ->
    encodeEvents ([TimeDeltaEvent 100; TimeDeltaEvent 28]
                    ++ Meta (mkMeta 0x2F None) :: [TimeDeltaEvent 7])
    = Ok (encodeVarint (pending_delay 0 [TimeDeltaEvent 100; TimeDeltaEvent 28])
            ++ encoded ++ tail).
Proof.
  apply (encodeEvents_pending_delay [TimeDeltaEvent 100; TimeDeltaEvent 28]
           (Meta (mkMeta 0x2F None)) [TimeDeltaEvent 7]); reflexivity.
Defined.

Example encodeEvents_merged_delay :
  encodeEvents ([TimeDeltaEvent 100; TimeDeltaEvent 28]
                  ++ Meta (mkMeta 0x2F None) :: [TimeDeltaEvent 7])
  = Ok [0x81; 0x00; 0xFF; 0x2F; 0x00].
Proof. reflexivity. Qed.

(* ===================================================================== *)
(** ** C2: encoding a track and parsing it back *)
(* ===================================================================== *)

Lemma parseTrackBody_loop_step (p : eventDataParser) (s : list Z) :
  parseTrackBody_loop p s
  = match readVarint s with
    | (Err e, s1) => (if is_EOF e then Ok (events p) else Err (TimeDeltaError e), s1)
    | (Ok td, s1) =>
        match readSingleEvent (if td >? 0 then addTimeDelta td p else p) s1 with
        | ((p', Err e), s2) => (Err (EventError e), s2)
        | ((p', Ok _), s2) => parseTrackBody_loop p' s2
        end
    end.
Proof.
  funelim (parseTrackBody_loop p s);
    match goal with E : readVarint _ = _ |- _ => rewrite E end;
    try match goal with E : readSingleEvent _ _ = _ |- _ => rewrite E end;
    reflexivity.
Qed.

Lemma msb_value_rev (hs : list Z) : msb_value 0 (rev hs) = septets_value hs.
Proof.
  induction hs as [|d hs IH]; [reflexivity|].
  unfold msb_value in *. cbn [rev septets_value].
  rewrite fold_left_app. cbn [fold_left]. rewrite IH. lia.
Qed.

Lemma msb_value_ge (ms : list Z) :
  forall m, 0 <= m -> Forall septet ms -> m <= msb_value m ms.
Proof.
  induction ms as [|d ms IH]; intros m Hm Hms; [cbn; lia|].
  inversion Hms as [|? ? Hd Hms']; subst. unfold septet in Hd.
  change (msb_value m (d :: ms)) with (msb_value (128 * m + d) ms).
  specialize (IH (128 * m + d) ltac:(lia) Hms'). lia.
Qed.

Lemma hd_rev_last (l : list Z) : l <> [] -> hd 1 (rev l) = last l 0.
Proof.
  induction l as [|x l IH]; [congruence|]. intros _.
  destruct l as [|y l]; [reflexivity|].
  cbn [rev] in *. specialize (IH ltac:(discriminate)).
  destruct (rev l ++ [y]) as [|z r] eqn:E.
  - destruct (rev l); discriminate.
  - cbn [app hd] in *. exact IH.
Qed.

(** The length update of the two length states. *)
Lemma length_update (m d : Z) :
  0 <= m -> septet d -> 128 * m + d < 2 ^ 63 ->
  Z.lor (Go.int (Z.shiftl m 7)) d = 128 * m + d.
Proof.
  intros Hm Hd Hb. unfold septet in Hd.
  rewrite Z.shiftl_mul_pow2 by lia. change (2 ^ 7) with 128.
  unfold Go.int, Go.int64.
  replace ((m * 128 + 2 ^ 63) mod 2 ^ 64) with (m * 128 + 2 ^ 63)
    by (symmetry; apply Z.mod_small; lia).
  replace (m * 128 + 2 ^ 63 - 2 ^ 63) with (128 * m) by lia.
  apply lor_septet. exact Hd.
Qed.

Section MetaSteps.

Variables (rs cst sl : Z) (sd : Go.slice) (evs : list event).

Lemma feedByte_meta_prefix (bf mt ml : Z) (ed : Go.slice) :
  feedByte (mkParser wantEvent bf rs ed mt ml cst sl sd evs) 0xFF
  = (mkParser wantMetaType (next bf) rs ed mt ml cst sl sd evs, Ok false).
Proof. reflexivity. Qed.

Lemma feedByte_meta_type (bf mt ml ty : Z) (ed : Go.slice) :
  feedByte (mkParser wantMetaType bf rs ed mt ml cst sl sd evs) ty
  = (mkParser wantMetaLength (next bf) rs None ty 0 cst sl sd evs, Ok false).
Proof. reflexivity. Qed.

Lemma feedByte_meta_length_continued (bf ty m d : Z) (ed : Go.slice) :
  0 <= m -> septet d -> 0 < 128 * m + d < 2 ^ 63 ->
  feedByte (mkParser wantMetaLength bf rs ed ty m cst sl sd evs) (set_high_bit d)
  = (mkParser wantMetaLength (next bf) rs ed ty (128 * m + d) cst sl sd evs, Ok false).
Proof.
  intros Hm Hd Hb. destruct (septet_byte_facts d Hd) as (Hc & Hl & _ & _).
  unfold continued in Hc. apply negb_true_iff in Hc.
  parser_step. rewrite Hl, Hc, length_update by (try assumption; lia).
  cbn [metaLength]. destruct (Z.eqb_spec (128 * m + d) 0); [lia|reflexivity].
Qed.

Lemma feedByte_meta_length_final (bf ty m d : Z) (ed : Go.slice) :
  0 <= m -> septet d -> 0 < 128 * m + d < 2 ^ 63 ->
  feedByte (mkParser wantMetaLength bf rs ed ty m cst sl sd evs) d
  = (mkParser wantMetaData (next bf) rs ed ty (128 * m + d) cst sl sd evs, Ok false).
Proof.
  intros Hm Hd Hb. destruct (septet_byte_facts d Hd) as (_ & _ & Hc & Hl).
  unfold continued in Hc. apply negb_false_iff in Hc.
  parser_step. rewrite Hl, Hc, length_update by (try assumption; lia).
  cbn [metaLength]. destruct (Z.eqb_spec (128 * m + d) 0); [lia|reflexivity].
Qed.

Lemma feedByte_meta_length_zero (bf ty : Z) (ed : Go.slice) :
  feedByte (mkParser wantMetaLength bf rs ed ty 0 cst sl sd evs) 0
  = (mkParser wantEvent (next bf) rs None ty 0 cst sl sd
       (evs ++ [mkEvent metaEvent ty ed 0]), Ok true).
Proof. reflexivity. Qed.

Lemma feedByte_meta_data_more (bf ty L b : Z) (ed : Go.slice) :
  Go.len ed + 1 <> L ->
  feedByte (mkParser wantMetaData bf rs ed ty L cst sl sd evs) b
  = (mkParser wantMetaData (next bf) rs (Go.append1 ed b) ty L cst sl sd evs, Ok false).
Proof.
  intros Hl. parser_step.
  assert (E : Go.len (Go.append1 ed b) = Go.len ed + 1).
  { destruct ed as [l|]; cbn [Go.append1 Go.len]; [rewrite length_app; cbn; lia|reflexivity]. }
  cbn [eventData]. fold (Go.append1 ed b). fold (Go.len (Go.append1 ed b)).
  rewrite E. destruct (Z.eqb_spec (Go.len ed + 1) L); [lia|reflexivity].
Qed.

Lemma feedByte_meta_data_last (bf ty L b : Z) (ed : Go.slice) :
  Go.len ed + 1 = L ->
  feedByte (mkParser wantMetaData bf rs ed ty L cst sl sd evs) b
  = (mkParser wantEvent (next bf) rs None ty L cst sl sd
       (evs ++ [mkEvent metaEvent ty (Go.append1 ed b) 0]), Ok true).
Proof.
  intros Hl. parser_step.
  assert (E : Go.len (Go.append1 ed b) = Go.len ed + 1).
  { destruct ed as [l|]; cbn [Go.append1 Go.len]; [rewrite length_app; cbn; lia|reflexivity]. }
  cbn [eventData metaEventType events]. fold (Go.append1 ed b).
  fold (Go.len (Go.append1 ed b)).
  rewrite E. destruct (Z.eqb_spec (Go.len ed + 1) L); [reflexivity|lia].
Qed.

End MetaSteps.

Lemma fed_next (k : nat) (bf : Z) : fed k (next bf) = fed (S k) bf.
Proof. unfold fed. now rewrite <- Nat.iter_succ_r. Qed.

Lemma fed_add (j k : nat) (bf : Z) : fed k (fed j bf) = fed (j + k) bf.
Proof. unfold fed. rewrite Nat.add_comm. now rewrite Nat.iter_add. Qed.

(** The shape of a VLQ: the septets of [n / 128], most significant first
    and marked, then the low septet; the leading septet is not 0. *)
Lemma encodeVarint_shape (n : Z) :
  0 < n ->
  exists ms,
    encodeVarint n = map set_high_bit ms ++ [n mod 128] /\
    Forall septet ms /\ septet (n mod 128) /\
    128 * msb_value 0 ms + n mod 128 = n /\
    0 < hd 1 ms.
Proof.
  intros Hn. exists (rev (septets (n / 128))).
  destruct (septets_spec (n / 128)) as (Hf & Hv & Hl); [apply Z.div_pos; lia|].
  pose proof (Z.div_mod n 128 ltac:(lia)) as Hdm.
  pose proof (Z.mod_pos_bound n 128 ltac:(lia)) as Hm.
  split; [apply encodeVarint_pos; exact Hn|].
  split; [apply Forall_rev; exact Hf|].
  split; [exact Hm|].
  split; [rewrite msb_value_rev, Hv; lia|].
  destruct (Z.eq_dec (n / 128) 0) as [Hz|Hz].
  - rewrite Hz, septets_zero by lia. cbn. lia.
  - specialize (Hl ltac:(lia)).
    assert (Hne : septets (n / 128) <> []).
    { intros E. rewrite E in Hl. cbn in Hl. congruence. }
    rewrite hd_rev_last by exact Hne.
    assert (Hs : septet (last (septets (n / 128)) 0)).
    { clear -Hf Hne. induction Hf as [|x l Hx Hf' IH]; [congruence|].
      destruct l as [|y l]; [exact Hx|]. apply IH. discriminate. }
    unfold septet in Hs. lia.
Qed.

Section MetaEvents.

Variables (rs cst sl : Z) (sd : Go.slice) (evs : list event).

(** The continuation bytes of the length. *)
Lemma meta_length_bytes (ty : Z) (ed : Go.slice) (rest : list Z) (ms : list Z) :
  forall bf m,
    0 <= m -> (0 < m \/ 0 < hd 1 ms) ->
    Forall septet ms -> msb_value m ms < 2 ^ 63 ->
    readSingleEvent_loop (mkParser wantMetaLength bf rs ed ty m cst sl sd evs) true
      (map set_high_bit ms ++ rest)
    = readSingleEvent_loop
        (mkParser wantMetaLength (fed (List.length ms) bf) rs ed ty (msb_value m ms)
           cst sl sd evs) true rest.
Proof.
  induction ms as [|d ms IH]; intros bf m Hm Hpos Hms Hb; [reflexivity|].
  inversion Hms as [|? ? Hd Hms']; subst.
  change (msb_value m (d :: ms)) with (msb_value (128 * m + d) ms) in *.
  assert (H0 : 0 < 128 * m + d).
  { unfold septet in Hd. cbn [hd] in Hpos. lia. }
  pose proof (msb_value_ge ms (128 * m + d) ltac:(lia) Hms') as Hge.
  cbn [map app readSingleEvent_loop].
  rewrite feedByte_meta_length_continued by (try assumption; lia).
  rewrite IH by (try assumption; lia).
  cbn [List.length]. rewrite fed_next. reflexivity.
Qed.

(** The data bytes. *)
Lemma meta_data_bytes (ty L : Z) (rest : list Z) (data : list Z) :
  forall bf ed,
    data <> [] ->
    Go.len ed + Z.of_nat (List.length data) = L ->
    readSingleEvent_loop (mkParser wantMetaData bf rs ed ty L cst sl sd evs) true
      (data ++ rest)
    = ((mkParser wantEvent (fed (List.length data) bf) rs None ty L cst sl sd
          (evs ++ [mkEvent metaEvent ty (Some (Go.elems ed ++ data)) 0]), Ok tt), rest).
Proof.
  induction data as [|b data IH]; intros bf ed Hne Hl; [congruence|].
  cbn [app readSingleEvent_loop].
  destruct data as [|b' data].
  - cbn [List.length] in Hl.
    rewrite feedByte_meta_data_last by lia.
    destruct ed; reflexivity.
  - cbn [List.length] in Hl.
    rewrite feedByte_meta_data_more by lia.
    rewrite IH.
    + rewrite fed_next.
      destruct ed as [l|]; cbn [Go.append1 Go.elems]; [rewrite <- app_assoc|];
        reflexivity.
    + discriminate.
    + destruct ed as [l|]; cbn [Go.append1 Go.len List.length] in *;
        [rewrite length_app; cbn [List.length]|]; lia.
Qed.

(** A whole Meta event: prefix, type, length and data. *)
Lemma readSingleEvent_meta (bf mt ml ty : Z) (began : bool) (data rest : list Z) :
  Z.of_nat (List.length data) < 2 ^ 63 ->
  exists bf',
    readSingleEvent_loop (mkParser wantEvent bf rs None mt ml cst sl sd evs) began
      (0xFF :: ty :: encodeVarint (Z.of_nat (List.length data)) ++ data ++ rest)
    = ((mkParser wantEvent bf' rs None ty (Z.of_nat (List.length data)) cst sl sd
          (evs ++ [mkEvent metaEvent ty
                     (match data with [] => None | _ => Some data end) 0]),
        Ok tt), rest).
Proof.
  intros Hb.
  cbn [readSingleEvent_loop].
  rewrite feedByte_meta_prefix. cbn [readSingleEvent_loop].
  rewrite feedByte_meta_type.
  destruct (list_eq_dec Z.eq_dec data []) as [->|Hne].
  - cbn [List.length Z.of_nat app].
    change (encodeVarint 0) with [0]. cbn [app readSingleEvent_loop].
    rewrite feedByte_meta_length_zero. eexists. reflexivity.
  - set (L := Z.of_nat (List.length data)) in *.
    assert (HL : 0 < L) by (unfold L; destruct data; [congruence|cbn [List.length]; lia]).
    destruct (encodeVarint_shape L HL) as (ms & Henc & Hms & Hd & Hv & Hhd).
    rewrite Henc, <- app_assoc.
    pose proof (msb_value_ge ms 0 ltac:(lia) Hms) as Hge.
    unfold septet in Hd.
    rewrite meta_length_bytes by (try assumption; try lia; right; exact Hhd).
    cbn [app readSingleEvent_loop].
    rewrite feedByte_meta_length_final by (try assumption; lia).
    rewrite Hv.
    rewrite meta_data_bytes by (try assumption; cbn [Go.len]; lia).
    cbn [Go.elems app].
    destruct data; [congruence|]. eexists. reflexivity.
Qed.

End MetaEvents.

Section SysexEvents.

Variables (rs mt ml : Z) (ed : Go.slice) (evs : list event).

Lemma feedByte_sysex_prefix (bf cst sl f : Z) (sd : Go.slice) :
  f = 0xF0 \/ f = 0xF7 ->
  feedByte (mkParser wantEvent bf rs ed mt ml cst sl sd evs) f
  = (mkParser wantSysexLength (next bf) rs ed mt ml f 0 None evs, Ok false).
Proof. intros [-> | ->]; reflexivity. Qed.

Lemma feedByte_sysex_length_continued (bf f m d : Z) (sd : Go.slice) :
  0 <= m -> septet d -> 0 < 128 * m + d < 2 ^ 63 ->
  feedByte (mkParser wantSysexLength bf rs ed mt ml f m sd evs) (set_high_bit d)
  = (mkParser wantSysexLength (next bf) rs ed mt ml f (128 * m + d) sd evs, Ok false).
Proof.
  intros Hm Hd Hb. destruct (septet_byte_facts d Hd) as (Hc & Hl & _ & _).
  unfold continued in Hc. apply negb_true_iff in Hc.
  parser_step. rewrite Hl, Hc, length_update by (try assumption; lia).
  cbn [sysexLength]. destruct (Z.eqb_spec (128 * m + d) 0); [lia|reflexivity].
Qed.

Lemma feedByte_sysex_length_final (bf f m d : Z) (sd : Go.slice) :
  0 <= m -> septet d -> 0 < 128 * m + d < 2 ^ 63 ->
  feedByte (mkParser wantSysexLength bf rs ed mt ml f m sd evs) d
  = (mkParser wantSysexData (next bf) rs ed mt ml f (128 * m + d) sd evs, Ok false).
Proof.
  intros Hm Hd Hb. destruct (septet_byte_facts d Hd) as (_ & _ & Hc & Hl).
  unfold continued in Hc. apply negb_false_iff in Hc.
  parser_step. rewrite Hl, Hc, length_update by (try assumption; lia).
  cbn [sysexLength]. destruct (Z.eqb_spec (128 * m + d) 0); [lia|reflexivity].
Qed.

Lemma feedByte_sysex_length_zero (bf f : Z) (sd : Go.slice) :
  feedByte (mkParser wantSysexLength bf rs ed mt ml f 0 sd evs) 0
  = (mkParser wantEvent (next bf) rs ed mt ml 0 0 None
       (evs ++ [mkEvent sysexEvent f sd 0]), Ok true).
Proof. reflexivity. Qed.

Lemma feedByte_sysex_data_more (bf f L b : Z) (sd : Go.slice) :
  Go.len sd + 1 <> L ->
  feedByte (mkParser wantSysexData bf rs ed mt ml f L sd evs) b
  = (mkParser wantSysexData (next bf) rs ed mt ml f L (Go.append1 sd b) evs, Ok false).
Proof.
  intros Hl. parser_step.
  assert (E : Go.len (Go.append1 sd b) = Go.len sd + 1).
  { destruct sd as [l|]; cbn [Go.append1 Go.len]; [rewrite length_app; cbn; lia|reflexivity]. }
  cbn [sysexData]. fold (Go.append1 sd b). fold (Go.len (Go.append1 sd b)).
  rewrite E. destruct (Z.eqb_spec (Go.len sd + 1) L); [lia|reflexivity].
Qed.

Lemma feedByte_sysex_data_last (bf f L b : Z) (sd : Go.slice) :
  Go.len sd + 1 = L ->
  feedByte (mkParser wantSysexData bf rs ed mt ml f L sd evs) b
  = (mkParser wantEvent (next bf) rs ed mt ml 0 L None
       (evs ++ [mkEvent sysexEvent f (Go.append1 sd b) 0]), Ok true).
Proof.
  intros Hl. parser_step.
  assert (E : Go.len (Go.append1 sd b) = Go.len sd + 1).
  { destruct sd as [l|]; cbn [Go.append1 Go.len]; [rewrite length_app; cbn; lia|reflexivity]. }
  cbn [sysexData currentSysexType events]. fold (Go.append1 sd b).
  fold (Go.len (Go.append1 sd b)).
  rewrite E. destruct (Z.eqb_spec (Go.len sd + 1) L); [reflexivity|lia].
Qed.

Lemma sysex_length_bytes (f : Z) (sd : Go.slice) (rest : list Z) (ms : list Z) :
  forall bf m,
    0 <= m -> (0 < m \/ 0 < hd 1 ms) ->
    Forall septet ms -> msb_value m ms < 2 ^ 63 ->
    readSingleEvent_loop (mkParser wantSysexLength bf rs ed mt ml f m sd evs) true
      (map set_high_bit ms ++ rest)
    = readSingleEvent_loop
        (mkParser wantSysexLength (fed (List.length ms) bf) rs ed mt ml f
           (msb_value m ms) sd evs) true rest.
Proof.
  induction ms as [|d ms IH]; intros bf m Hm Hpos Hms Hb; [reflexivity|].
  inversion Hms as [|? ? Hd Hms']; subst.
  change (msb_value m (d :: ms)) with (msb_value (128 * m + d) ms) in *.
  assert (H0 : 0 < 128 * m + d).
  { unfold septet in Hd. cbn [hd] in Hpos. lia. }
  pose proof (msb_value_ge ms (128 * m + d) ltac:(lia) Hms') as Hge.
  cbn [map app readSingleEvent_loop].
  rewrite feedByte_sysex_length_continued by (try assumption; lia).
  rewrite IH by (try assumption; lia).
  cbn [List.length]. rewrite fed_next. reflexivity.
Qed.

Lemma sysex_data_bytes (f L : Z) (rest : list Z) (data : list Z) :
  forall bf sd,
    data <> [] ->
    Go.len sd + Z.of_nat (List.length data) = L ->
    readSingleEvent_loop (mkParser wantSysexData bf rs ed mt ml f L sd evs) true
      (data ++ rest)
    = ((mkParser wantEvent (fed (List.length data) bf) rs ed mt ml 0 L None
          (evs ++ [mkEvent sysexEvent f (Some (Go.elems sd ++ data)) 0]), Ok tt), rest).
Proof.
  induction data as [|b data IH]; intros bf sd Hne Hl; [congruence|].
  cbn [app readSingleEvent_loop].
  destruct data as [|b' data].
  - cbn [List.length] in Hl.
    rewrite feedByte_sysex_data_last by lia.
    destruct sd; reflexivity.
  - cbn [List.length] in Hl.
    rewrite feedByte_sysex_data_more by lia.
    rewrite IH.
    + rewrite fed_next.
      destruct sd as [l|]; cbn [Go.append1 Go.elems]; [rewrite <- app_assoc|];
        reflexivity.
    + discriminate.
    + destruct sd as [l|]; cbn [Go.append1 Go.len List.length] in *;
        [rewrite length_app; cbn [List.length]|]; lia.
Qed.

(** A whole SysEx event: framing byte, length and data. *)
Lemma readSingleEvent_sysex (bf cst sl f : Z) (sd : Go.slice) (began : bool)
  (data rest : list Z) :
  f = 0xF0 \/ f = 0xF7 ->
  Z.of_nat (List.length data) < 2 ^ 63 ->
  exists bf',
    readSingleEvent_loop (mkParser wantEvent bf rs ed mt ml cst sl sd evs) began
      (f :: encodeVarint (Z.of_nat (List.length data)) ++ data ++ rest)
    = ((mkParser wantEvent bf' rs ed mt ml 0 (Z.of_nat (List.length data)) None
          (evs ++ [mkEvent sysexEvent f
                     (match data with [] => None | _ => Some data end) 0]),
        Ok tt), rest).
Proof.
  intros Hf Hb.
  cbn [readSingleEvent_loop].
  rewrite feedByte_sysex_prefix by exact Hf.
  destruct (list_eq_dec Z.eq_dec data []) as [->|Hne].
  - cbn [List.length Z.of_nat app].
    change (encodeVarint 0) with [0]. cbn [app readSingleEvent_loop].
    rewrite feedByte_sysex_length_zero. eexists. reflexivity.
  - set (L := Z.of_nat (List.length data)) in *.
    assert (HL : 0 < L) by (unfold L; destruct data; [congruence|cbn [List.length]; lia]).
    destruct (encodeVarint_shape L HL) as (ms & Henc & Hms & Hd & Hv & Hhd).
    rewrite Henc, <- app_assoc.
    pose proof (msb_value_ge ms 0 ltac:(lia) Hms) as Hge.
    unfold septet in Hd.
    rewrite sysex_length_bytes by (try assumption; try lia; right; exact Hhd).
    cbn [app readSingleEvent_loop].
    rewrite feedByte_sysex_length_final by (try assumption; lia).
    rewrite Hv.
    rewrite sysex_data_bytes by (try assumption; cbn [Go.len]; lia).
    cbn [Go.elems app].
    destruct data; [congruence|]. eexists. reflexivity.
Qed.

End SysexEvents.


Lemma int64_range (x : Z) : - 2 ^ 63 <= Go.int64 x < 2 ^ 63.
Proof. unfold Go.int64. pose proof (Z.mod_pos_bound (x + 2 ^ 63) (2 ^ 64)). lia. Qed.

Lemma uint64_int64 (x : Z) : Go.uint64 (Go.int64 x) = Go.uint64 x.
Proof.
  unfold Go.uint64, Go.int64. rewrite Zminus_mod_idemp_l. f_equal. lia.
Qed.

Lemma int64_uint64 (p : Z) : - 2 ^ 63 <= p < 2 ^ 63 -> Go.int64 (Go.uint64 p) = p.
Proof.
  intros Hp. unfold Go.uint64, Go.int64. rewrite Zplus_mod_idemp_l.
  rewrite Z.mod_small by lia. lia.
Qed.

Lemma uint64_add (a b : Z) :
  Go.uint64 (Go.uint64 a + Go.uint64 b) = Go.uint64 (a + b).
Proof. unfold Go.uint64. now rewrite <- Zplus_mod. Qed.

Lemma uint64_range (x : Z) : 0 <= Go.uint64 x < 2 ^ 64.
Proof. unfold Go.uint64. apply Z.mod_pos_bound. lia. Qed.

Lemma uint64_zero_iff (p : Z) :
  - 2 ^ 63 <= p < 2 ^ 63 -> (Go.uint64 p >? 0) = negb (p =? 0).
Proof.
  intros Hp. pose proof (uint64_range p) as Hr.
  destruct (Z.eqb_spec p 0) as [->|Hnz]; [reflexivity|].
  cbn [negb]. destruct (Z.gtb_spec (Go.uint64 p) 0) as [|Hle]; [reflexivity|].
  exfalso. apply Hnz. rewrite <- (int64_uint64 p Hp).
  replace (Go.uint64 p) with 0 by lia. reflexivity.
Qed.

Lemma presentEvents_acc (raws : list event) :
  forall acc,
    presentEvents raws acc
    = match presentEvents raws [] with
      | Ok l => Ok (acc ++ l)
      | Err err => Err err
      end.
Proof.
  induction raws as [|r raws IH]; intros acc; cbn [presentEvents].
  - now rewrite app_nil_r.
  - destruct (presentEvent r) as [e|err]; [|reflexivity].
    rewrite (IH (acc ++ [e])), (IH ([] ++ [e])).
    destruct (presentEvents raws []) as [l|err]; [|reflexivity].
    now rewrite <- app_assoc.
Qed.

Lemma presentEvents_app (r1 r2 : list event) (l1 l2 : list Event) :
  presentEvents r1 [] = Ok l1 ->
  presentEvents r2 [] = Ok l2 ->
  presentEvents (r1 ++ r2) [] = Ok (l1 ++ l2).
Proof.
  revert l1. induction r1 as [|r r1 IH]; intros l1 H1 H2; cbn [app presentEvents] in *.
  - inversion H1; subst. exact H2.
  - destruct (presentEvent r) as [e|err]; [|discriminate].
    rewrite presentEvents_acc in H1 |- *.
    destruct (presentEvents r1 []) as [l|err] eqn:E; [|discriminate].
    inversion H1; subst.
    rewrite (IH l eq_refl H2). reflexivity.
Qed.

Lemma kind_channel_facts (t c : Z) :
  is_kind t = true -> 0 <= c < 16 ->
  Go.byte t = t /\ Go.byte c = c /\ status_byte (Z.lor t c) /\
  Z.land 0xf0 (Z.lor t c) = t /\ Z.land 0x0f (Z.lor t c) = c /\
  payload_len (Z.lor t c) = payload_len t.
Proof.
  intros Ht Hc. unfold is_kind in Ht. cbn [existsb] in Ht.
  bool_hyps; try discriminate; subst t;
    destruct (nibble_cases c Hc) as
      [->|[->|[->|[->|[->|[->|[->|[->|[->|[->|[->|[->|[->|[->|[->| ->]]]]]]]]]]]]]]];
    repeat split; try reflexivity;
    unfold NoteOff, NoteOn, Aftertouch, ControllerChange, ProgramChange,
      ChannelPressure, PitchBend; cbn; lia.
Qed.

Lemma forallb_data_byte (d : list Z) :
  forallb data_byteb d = true -> Forall data_byte d.
Proof.
  intros H. apply Forall_forall. intros x Hx.
  rewrite forallb_forall in H. specialize (H x Hx).
  unfold data_byteb in H. unfold data_byte. bool_hyps. lia.
Qed.

(** A MIDI event in wire form is encoded as its status byte and its raw
    data, and the presenter makes the same event of them again. *)
Lemma wire_midi_encoded (m : MIDIEvent) :
  wire_midi m = true ->
  exists s d,
    MIDIEvent_EncodeMIDI m = Ok (s :: d) /\
    status_byte s /\ Z.of_nat (List.length d) = payload_len s /\
    Forall data_byte d /\
    presentEvent (mkEvent midiEvent s (Some d) 0) = Ok (MIDI m).
Proof.
  intros H. destruct m as [t rt c k v cn cv pn [d|]]; unfold wire_midi in H;
    cbn [RawData Type_ Channel RawType Key Velocity ControllerNumber ControllerValue
         ProgramNumber] in H; [|discriminate].
  repeat (apply andb_true_iff in H; destruct H as [H ?]).
  repeat match goal with E : (_ =? _) = true |- _ => apply Z.eqb_eq in E end.
  match goal with E : (0 <=? c) = true |- _ => apply Z.leb_le in E end.
  match goal with E : (c <? 16) = true |- _ => apply Z.ltb_lt in E end.
  match goal with E : negb _ = true |- _ => apply negb_true_iff in E; rename E into Hzero end.
  match goal with E : forallb _ _ = true |- _ => apply forallb_data_byte in E; rename E into Hd end.
  destruct (kind_channel_facts t c H ltac:(lia)) as (Hbt & Hbc & Hs & Hlt & Hlc & Hpl).
  exists (Z.lor t c), d.
  split.
  { unfold MIDIEvent_EncodeMIDI. cbn [RawData Type_ Channel]. now rewrite Hbt, Hbc. }
  split; [exact Hs|]. split; [congruence|]. split; [exact Hd|].
  unfold presentEvent, expectLen, set_Key, set_Velocity, set_Type, set_ControllerNumber,
    set_ControllerValue, set_ProgramNumber, RawData_at.
  cbn [kind typeByte data Type_ RawType Channel Key Velocity ControllerNumber
       ControllerValue ProgramNumber RawData Go.len Go.elems].
  rewrite Hlt, Hlc.
  subst rt k v cn cv pn.
  match goal with E : Z.of_nat (List.length d) = _ |- _ => rewrite E end.
  unfold is_kind in H. cbn [existsb] in H.
  bool_hyps; try discriminate; subst t;
    cbn [Z.eqb Pos.eqb NoteOn NoteOff Aftertouch ControllerChange ProgramChange
         ChannelPressure PitchBend negb andb orb payload_len] in Hzero |- *;
    try reflexivity.
  (* NoteOn *)
  rewrite Hzero. reflexivity.
Qed.

Lemma SysexEvent_EncodeMIDI_cons (f : Z) (d : list Z) :
  Z.of_nat (List.length d) < 2 ^ 63 ->
  SysexEvent_EncodeMIDI (f :: d)
  = Ok (f :: encodeVarint (Z.of_nat (List.length d)) ++ d).
Proof.
  intros Hl. unfold SysexEvent_EncodeMIDI. cbv zeta.
  replace (Z.of_nat (List.length (f :: d)) - 1) with (Z.of_nat (List.length d))
    by (cbn [List.length]; lia).
  unfold Go.uint64. rewrite Z.mod_small by lia.
  destruct d as [|b d].
  - cbn [List.length Z.of_nat Z.ltb Z.compare Pos.of_succ_nat Pos.compare
         Pos.compare_cont app].
    now rewrite app_nil_r.
  - replace (1 <? Z.of_nat (List.length (f :: b :: d))) with true
      by (symmetry; apply Z.ltb_lt; cbn [List.length]; lia).
    reflexivity.
Qed.

Lemma MetaEvent_EncodeMIDI_bytes (ty : Z) (md : Go.slice) :
  Go.len md < 2 ^ 63 ->
  MetaEvent_EncodeMIDI (mkMeta ty md)
  = Ok (0xFF :: ty :: encodeVarint (Z.of_nat (List.length (Go.elems md))) ++ Go.elems md).
Proof.
  intros Hl. unfold MetaEvent_EncodeMIDI. cbn [Meta_Type Meta_Data].
  replace (Go.len md) with (Z.of_nat (List.length (Go.elems md))) in *
    by (destruct md; reflexivity).
  unfold Go.uint64. rewrite Z.mod_small by lia. reflexivity.
Qed.

(** Reading back an encoded event that is not a TimeDelta. *)
Lemma readSingleEvent_encoded (e : Event) (p : eventDataParser) (began : bool)
  (rest : list Z) :
  wire_event e = true -> isTimeDelta e = false -> ready p ->
  exists encoded raw p',
    EncodeMIDI e = Ok encoded /\
    readSingleEvent_loop p began (encoded ++ rest) = ((p', Ok tt), rest) /\
    ready p' /\ events p' = events p ++ [raw] /\
    presentEvent raw = Ok e.
Proof.
  intros Hw Hnt [Hst Hed].
  destruct p as [st bf rs ed mt ml cst sl sd evs]. cbn [state eventData] in Hst, Hed.
  subst st ed.
  destruct e as [td|l|m|m]; [discriminate| | |].
  - (* SysEx *)
    destruct l as [|f d]; [discriminate|]. cbn [wire_event] in Hw.
    apply andb_true_iff in Hw. destruct Hw as [Hf Hlen]. apply Z.ltb_lt in Hlen.
    assert (Hf' : f = 0xF0 \/ f = 0xF7).
    { apply orb_true_iff in Hf. destruct Hf as [Hf|Hf]; apply Z.eqb_eq in Hf; auto. }
    destruct (readSingleEvent_sysex rs mt ml None evs bf cst sl f sd began d rest Hf' Hlen)
      as (bf' & Hr).
    do 3 eexists. split.
    { cbn [EncodeMIDI]. apply SysexEvent_EncodeMIDI_cons. exact Hlen. }
    split.
    { cbn [app]. rewrite <- app_assoc. exact Hr. }
    split; [split; reflexivity|]. split; [reflexivity|].
    cbn [presentEvent kind typeByte data]. destruct d; reflexivity.
  - (* Meta *)
    destruct m as [ty md]. cbn [wire_event Meta_Data] in Hw.
    apply andb_true_iff in Hw. destruct Hw as [Hnil Hlen]. apply Z.ltb_lt in Hlen.
    destruct (readSingleEvent_meta rs cst sl sd evs bf mt ml ty began (Go.elems md) rest)
      as (bf' & Hr).
    { destruct md; exact Hlen. }
    do 3 eexists. split.
    { cbn [EncodeMIDI]. apply MetaEvent_EncodeMIDI_bytes. exact Hlen. }
    split.
    { cbn [app]. rewrite <- app_assoc. exact Hr. }
    split; [split; reflexivity|]. split; [reflexivity|].
    cbn [presentEvent kind typeByte data].
    destruct md as [[|b d]|]; try reflexivity. discriminate.
  - (* MIDI *)
    cbn [wire_event] in Hw.
    destruct (wire_midi_encoded m Hw) as (s & d & Henc & Hs & Hl & Hd & Hp).
    do 3 eexists. split; [exact Henc|].
    split.
    { cbn [app]. apply readSingleEvent_status_payload; assumption. }
    split; [split; reflexivity|]. split; [reflexivity|]. exact Hp.
Qed.

Lemma parseTrackBody_loop_nil (p : eventDataParser) :
  parseTrackBody_loop p [] = (Ok (events p), []).
Proof. rewrite parseTrackBody_loop_step. reflexivity. Qed.

(** One round of [parseTrackBody]: the pending delay and one event. *)
Lemma parseTrackBody_loop_event (e : Event) (p : eventDataParser) (pending : Z)
  (rest : list Z) :
  wire_event e = true -> isTimeDelta e = false -> ready p ->
  - 2 ^ 63 <= pending < 2 ^ 63 ->
  exists encoded raws p',
    EncodeMIDI e = Ok encoded /\
    parseTrackBody_loop p (encodeVarint (Go.uint64 pending) ++ encoded ++ rest)
    = parseTrackBody_loop p' rest /\
    ready p' /\ events p' = events p ++ raws /\
    presentEvents raws []
    = Ok ((if pending =? 0 then [] else [TimeDeltaEvent pending]) ++ [e]).
Proof.
  intros Hw Hnt Hp Hr.
  set (p1 := if Go.uint64 pending >? 0 then addTimeDelta (Go.uint64 pending) p else p).
  assert (Hp1 : ready p1).
  { unfold p1. destruct (Go.uint64 pending >? 0); [|exact Hp].
    destruct Hp as [Hs He]. split; [exact Hs|exact He]. }
  destruct (readSingleEvent_encoded e p1 false rest Hw Hnt Hp1)
    as (encoded & raw & p' & Henc & Hread & Hp' & Hev & Hpres).
  exists encoded.
  exists ((if Go.uint64 pending >? 0
           then [mkEvent timeDeltaEvent 0 None (Go.uint64 pending)] else []) ++ [raw]).
  exists p'.
  split; [exact Henc|]. split.
  { rewrite parseTrackBody_loop_step.
    rewrite readVarint_encodeVarint by apply uint64_range.
    fold p1. unfold readSingleEvent. rewrite Hread. reflexivity. }
  split; [exact Hp'|]. split.
  { rewrite Hev. unfold p1. destruct (Go.uint64 pending >? 0); [|reflexivity].
    cbn [addTimeDelta push_event events]. now rewrite <- app_assoc. }
  rewrite uint64_zero_iff by exact Hr.
  destruct (pending =? 0); cbn [negb app presentEvents].
  - rewrite Hpres. reflexivity.
  - cbn [presentEvent kind timeDelta]. rewrite int64_uint64 by exact Hr.
    rewrite Hpres. reflexivity.
Qed.

Lemma roundtrip_loop (evts : list Event) :
  forall i pending p,
    forallb wire_event evts = true -> ready p ->
    - 2 ^ 63 <= pending < 2 ^ 63 ->
    exists body raws,
      encodeEvents_loop i (Go.uint64 pending) [] evts = Ok body /\
      parseTrackBody_loop p body = (Ok (events p ++ raws), []) /\
      presentEvents raws [] = Ok (wire_form pending evts).
Proof.
  induction evts as [|e evts IH]; intros i pending p Hw Hp Hr.
  - exists [], []. split; [reflexivity|]. split.
    + rewrite parseTrackBody_loop_nil, app_nil_r. reflexivity.
    + reflexivity.
  - cbn [forallb] in Hw. apply andb_true_iff in Hw. destruct Hw as [He Hw].
    destruct (isTimeDelta e) eqn:Htd.
    + destruct e as [td| | |]; try discriminate.
      destruct (IH (i + 1) (Go.int64 (pending + td)) p Hw Hp (int64_range _))
        as (body & raws & Hb & Hparse & Hpres).
      exists body, raws. split; [|split; assumption].
      cbn [encodeEvents_loop]. rewrite uint64_add.
      rewrite uint64_int64 in Hb. exact Hb.
    + destruct (IH (i + 1) 0 p Hw Hp ltac:(lia)) as (body0 & _ & Hb0 & _ & _).
      assert (Hstep : forall encoded,
                 EncodeMIDI e = Ok encoded ->
                 encodeEvents_loop i (Go.uint64 pending) [] (e :: evts)
                 = Ok (encodeVarint (Go.uint64 pending) ++ encoded ++ body0)).
      { intros encoded Henc.
        assert (E : encodeEvents_loop i (Go.uint64 pending) [] (e :: evts)
                    = encodeEvents_loop (i + 1) 0
                        (([] ++ encodeVarint (Go.uint64 pending)) ++ encoded) evts).
        { destruct e; try discriminate; cbn [encodeEvents_loop]; rewrite Henc;
            reflexivity. }
        rewrite E. cbn [app].
        rewrite <- (app_nil_r (encodeVarint (Go.uint64 pending) ++ encoded)).
        rewrite encodeEvents_loop_app.
        change (Go.uint64 0) with 0 in Hb0. rewrite Hb0.
        now rewrite <- app_assoc. }
      destruct (parseTrackBody_loop_event e p pending body0 He Htd Hp Hr)
        as (encoded & raws1 & p' & Henc & Hround & Hp' & Hev & Hpres1).
      destruct (IH (i + 1) 0 p' Hw Hp' ltac:(lia))
        as (body0' & raws2 & Hb0' & Hparse2 & Hpres2).
      assert (body0' = body0) by congruence. subst body0'.
      exists (encodeVarint (Go.uint64 pending) ++ encoded ++ body0), (raws1 ++ raws2).
      split; [apply Hstep; exact Henc|]. split.
      * rewrite Hround, Hparse2, Hev. now rewrite <- app_assoc.
      * rewrite (presentEvents_app raws1 raws2 _ _ Hpres1 Hpres2).
        destruct e; try discriminate; cbn [wire_form]; now rewrite <- app_assoc.
Qed.

(** C2, as stated, fails: a TimeDelta after the last event of a track is
    not encoded, so it is missing from what is parsed back. *)
Lemma track_roundtrip_counterexample :
  let evts := [Meta (mkMeta 0x2F None); TimeDeltaEvent 5] in
  encodeEvents evts = Ok [0x00; 0xFF; 0x2F; 0x00] /\
  parseTrackBody [0x00; 0xFF; 0x2F; 0x00] = (Ok [mkEvent metaEvent 0x2F None 0], []) /\
  presentEvents [mkEvent metaEvent 0x2F None 0] [] = Ok [Meta (mkMeta 0x2F None)] /\
  merge_deltas 0 [Meta (mkMeta 0x2F None)] <> merge_deltas 0 evts.
Proof.
  cbv zeta. repeat split. discriminate.
Qed.

(** A second one: the NoteOn that [SimpleWriter.Play] builds, with no raw
    data, comes back with the raw data and raw type filled in. *)
Lemma plain_note_not_restored :
  let note := MIDI (mkMIDI NoteOn 0 0 60 100 0 0 0 None) in
  encodeEvents [note] = Ok [0x00; 0x90; 60; 100] /\
  parseTrackBody [0x00; 0x90; 60; 100]
  = (Ok [mkEvent midiEvent 0x90 (Some [60; 100]) 0], []) /\
  presentEvents [mkEvent midiEvent 0x90 (Some [60; 100]) 0] []
  = Ok [MIDI (mkMIDI NoteOn 0x90 0 60 100 0 0 0 (Some [60; 100]))] /\
  merge_deltas 0 [MIDI (mkMIDI NoteOn 0x90 0 60 100 0 0 0 (Some [60; 100]))]
  <> merge_deltas 0 [note].
Proof.
  cbv zeta. repeat split. discriminate.
Qed.

(** A third one: a Meta event with an empty payload that is not nil
    comes back with a nil payload. *)
Lemma empty_meta_read_back_nil :
  let evts := [Meta (mkMeta 0x2F (Some []))] in
  encodeEvents evts = Ok [0x00; 0xFF; 0x2F; 0x00] /\
  parseTrackBody [0x00; 0xFF; 0x2F; 0x00] = (Ok [mkEvent metaEvent 0x2F None 0], []) /\
  presentEvents [mkEvent metaEvent 0x2F None 0] [] = Ok [Meta (mkMeta 0x2F None)] /\
  merge_deltas 0 [Meta (mkMeta 0x2F None)] <> merge_deltas 0 evts.
Proof.
  cbv zeta. repeat split. discriminate.
Qed.

Lemma nil_if_empty_encoded (e : Event) :
  EncodeMIDI (nil_if_empty e) = EncodeMIDI e.
Proof.
  destruct e as [td|x|[ty [[|b d]|]]|m]; reflexivity.
Qed.

Lemma encodeEvents_loop_nil_if_empty (evts : list Event) :
  forall i delay rv,
    encodeEvents_loop i delay rv (map nil_if_empty evts)
    = encodeEvents_loop i delay rv evts.
Proof.
  induction evts as [|e evts IH]; intros i delay rv; [reflexivity|].
  cbn [map]. pose proof (nil_if_empty_encoded e) as He.
  destruct e as [td|x|[ty [[|b d]|]]|m]; cbn [nil_if_empty Meta_Data Meta_Type] in *;
    cbn [encodeEvents_loop]; rewrite ?He;
    try apply IH;
    match goal with
    | |- context [match ?r with Ok _ => _ | Err _ => _ end] => destruct r
    end; try apply IH; reflexivity.
Qed.

(** C2, amended.  A track whose events are in wire form, an empty Meta
    payload that is not nil apart, is encoded, and parsing the encoded
    body and presenting the raw events gives the event list back with
    every empty Meta payload nil, each run of consecutive TimeDelta events
    merged into one that carries their sum, the ones of value 0 dropped,
    and the run at the end of the list dropped. *)
Theorem track_roundtrip (evts : list Event) :
  forallb (fun e => wire_event (nil_if_empty e)) evts = true ->
  exists body raws,
    encodeEvents evts = Ok body /\
    parseTrackBody body = (Ok raws, []) /\
    presentEvents raws [] = Ok (wire_form 0 (map nil_if_empty evts)).
Proof.
  intros Hw.
  assert (Hw' : forallb wire_event (map nil_if_empty evts) = true).
  { clear - Hw. induction evts as [|e evts IH]; [reflexivity|].
    cbn [forallb map] in *. apply andb_true_iff in Hw. destruct Hw as [-> Hw].
    now apply IH. }
  destruct (roundtrip_loop (map nil_if_empty evts) 0 0 newParser Hw'
              ltac:(split; reflexivity) ltac:(lia))
    as (body & raws & Hb & Hparse & Hpres).
  rewrite encodeEvents_loop_nil_if_empty in Hb.
  exists body, raws. split; [exact Hb|]. split; [exact Hparse|exact Hpres].
Qed.

Lemma track_roundtrip_witness :
  exists body raws,
    encodeEvents (Meta (mkMeta 0x01 (Some [])) :: sample_track) = Ok body /\
    parseTrackBody body = (Ok raws, []) /\
    presentEvents raws []
    = Ok (wire_form 0 (map nil_if_empty (Meta (mkMeta 0x01 (Some [])) :: sample_track))).
Proof.
  apply (track_roundtrip (Meta (mkMeta 0x01 (Some [])) :: sample_track)). reflexivity.
Defined.

Example sample_track_wire_form :
  wire_form 0 sample_track
  = [TimeDeltaEvent 10;
     Meta (mkMeta 0x51 (Some [0x05; 0xE3; 0x8B]));
     MIDI (mkMIDI NoteOn 0x93 3 60 100 0 0 0 (Some [60; 100]));
     TimeDeltaEvent 200;
     MIDI (mkMIDI ProgramChange 0xC3 3 0 0 0 0 5 (Some [5]));
     SysexEvent [0xF0; 0x01; 0x02; 0xF7];
     Meta (mkMeta 0x2F None)].
Proof. reflexivity. Qed.


(* ===================================================================== *)
(** ** C10: a header that declares no track *)
(* ===================================================================== *)


Lemma parse_loop_tracks_seen (strict : bool) (n : nat) :
  forall i st r st' r',
    tracks_seen st ->
    parse_loop strict n i st r = (Ok st', r') ->
    tracks_seen st'.
Proof.
  induction n as [|n IH]; intros i st r st' r' Hst H; cbn [parse_loop] in H.
  - inversion H; subst. exact Hst.
  - destruct (parseTrack r) as [[err|err|trk] r1].
    + destruct strict; [discriminate|].
      eapply IH; [|exact H]. exact Hst.
    + discriminate.
    + eapply IH; [|exact H].
      intros _. cbn. destruct (rv_Tracks st); discriminate.
Qed.

Lemma parse_no_empty_file (strict : bool) (r : list Z) (f : File) (r' : list Z) :
  parse strict r = (Ok f, r') -> Tracks f <> [].
Proof.
  unfold parse. intros H.
  destruct (parseHeader r) as [[hdr|e] r1]; [|discriminate].
  destruct (parse_loop strict (Z.to_nat (NumberOfTracks hdr)) 0
              (mkParseState [] false None) r1) as [[st|e] r2] eqn:Hl; [|discriminate].
  destruct (sawMidiTrack st) eqn:Hs; [|discriminate].
  cbn in H. inversion H; subst. cbn.
  eapply parse_loop_tracks_seen; [|exact Hl|exact Hs].
  intros Hf. discriminate.
Qed.

(** C10.  When the header of the input parses and declares 0 tracks,
    [Parse] returns the no-MIDI-tracks error (with the context of the bytes
    read), whatever follows the header; and no File that [Parse] returns
    has an empty track sequence. *)
Theorem Parse_zero_track_count :
  (forall r hdr r1,
      parseHeader r = (Ok hdr, r1) ->
      NumberOfTracks hdr = 0 ->
      Parse r = Err (WrapError r r1 (NoMidiTracks None))) /\
  (forall r f, Parse r = Ok f -> Tracks f <> []).
Proof.
  split.
  - intros r hdr r1 Hh Hn. unfold Parse, parse. rewrite Hh, Hn. reflexivity.
  - intros r f. unfold Parse.
    destruct (parse false r) as [[f'|e] r'] eqn:Hp; [|discriminate].
    intros H. inversion H; subst. eapply parse_no_empty_file, Hp.
Qed.

Lemma Parse_zero_track_count_witness :
  Parse zero_track_file
  = Err (WithContext 14 (MThd ++ [0; 0; 0; 6; 0; 0; 0; 0; 0; 0xC0]) (NoMidiTracks None)) /\
  Tracks (mkFile (mkHeader 0 1 0xC0) [mkTrack [Meta (mkMeta 0x2F None)]]) <> [].
Proof.
  split.
  - exact (proj1 Parse_zero_track_count zero_track_file (mkHeader 0 0 0xC0)
             (MTrk ++ [0; 0; 0; 4; 0x00; 0xFF; 0x2F; 0x00]) eq_refl eq_refl).
  - exact (proj2 Parse_zero_track_count one_track_file
             (mkFile (mkHeader 0 1 0xC0) [mkTrack [Meta (mkMeta 0x2F None)]]) eq_refl).
Defined.


(* ===================================================================== *)
(** * Further properties *)
(* ===================================================================== *)

(* ===================================================================== *)
(** ** Variable-length quantities: shape and the slice decoder *)
(* ===================================================================== *)

Lemma msb_value_lower (ms : list Z) :
  forall m, 0 < m -> Forall septet ms ->
            m * 128 ^ Z.of_nat (List.length ms) <= msb_value m ms.
Proof.
  induction ms as [|d ms IH]; intros m Hm Hs.
  - cbn. lia.
  - inversion Hs as [|? ? Hd Hs']; subst.
    change (msb_value m (d :: ms)) with (msb_value (128 * m + d) ms).
    unfold septet in Hd.
    specialize (IH (128 * m + d) ltac:(lia) Hs').
    replace (Z.of_nat (List.length (d :: ms))) with (Z.of_nat (List.length ms) + 1)
      by (cbn [List.length]; lia).
    rewrite Z.pow_add_r by lia.
    assert (0 < 128 ^ Z.of_nat (List.length ms)) by (apply Z.pow_pos_nonneg; lia).
    nia.
Qed.

Lemma set_high_bit_range (d : Z) : septet d -> 128 <= set_high_bit d < 256.
Proof.
  unfold septet, set_high_bit. intros H.
  pose proof (forall_byte
    (fun x => negb (x <? 128) || ((128 <=? Z.lor x 128) && (Z.lor x 128 <? 256)))
    eq_refl d ltac:(lia)) as Hb.
  cbn beta in Hb.
  destruct (Z.ltb_spec d 128); [|lia]. cbn [negb orb] in Hb.
  apply andb_true_iff in Hb. lia.
Qed.

Lemma set_high_bit_pos (d : Z) : septet d -> 0 < d -> set_high_bit d <> 0x80.
Proof.
  intros H Hp E.
  destruct (septet_byte_facts d H) as (_ & Hl & _).
  rewrite E in Hl. cbn in Hl. lia.
Qed.

(** X1.  [encodeVarint] writes a well-formed quantity for every [uint64]:
    every byte but the last has the high bit set, the last has it clear,
    there is no padding byte [0x80] in front, and a quantity of [k + 1]
    bytes is written only for a number of at least [128 ^ k]; so there
    are at most ten bytes. *)
Theorem encodeVarint_wellformed (u : Z) :
  0 <= u < 2 ^ 64 ->
  exists front final,
    encodeVarint u = front ++ [final] /\
    Forall (fun b => 128 <= b < 256) front /\
    0 <= final < 128 /\
    hd 0 front <> 0x80 /\
    (front <> [] -> 128 ^ Z.of_nat (List.length front) <= u) /\
    (List.length front <= 9)%nat.
Proof.
  intros Hu. destruct (Z.eq_dec u 0) as [->|Hnz].
  - exists [], 0. split; [reflexivity|]. split; [constructor|].
    split; [lia|]. split; [cbn; lia|]. split; [congruence|cbn; lia].
  - destruct (encodeVarint_shape u ltac:(lia)) as (ms & He & Hs & Hl & Hv & Hh).
    assert (Hlen : ms <> [] -> 128 ^ Z.of_nat (List.length ms) <= u).
    { intros Hne. destruct ms as [|d ms]; [congruence|].
      cbn [hd] in Hh. inversion Hs as [|? ? Hd Hs']; subst.
      pose proof (msb_value_lower ms d Hh Hs') as Hlow.
      change (msb_value 0 (d :: ms)) with (msb_value d ms) in Hv.
      replace (Z.of_nat (List.length (d :: ms))) with (Z.of_nat (List.length ms) + 1)
        by (cbn [List.length]; lia).
      rewrite Z.pow_add_r by lia.
      assert (0 < 128 ^ Z.of_nat (List.length ms)) by (apply Z.pow_pos_nonneg; lia).
      unfold septet in Hl. nia. }
    exists (map set_high_bit ms), (u mod 128).
    split; [exact He|]. split.
    { apply Forall_map. eapply Forall_impl; [|exact Hs].
      intros d Hd. apply set_high_bit_range, Hd. }
    split; [exact Hl|]. split.
    { destruct ms as [|d ms]; [cbn; discriminate|].
      cbn [map hd] in *. inversion Hs; subst. now apply set_high_bit_pos. }
    split.
    { intros Hne. rewrite length_map. apply Hlen.
      intros ->. now apply Hne. }
    rewrite length_map.
    destruct (Nat.le_gt_cases (List.length ms) 9) as [Hle|Hgt]; [exact Hle|].
    exfalso.
    assert (Hne : ms <> []) by (intros ->; cbn in Hgt; lia).
    specialize (Hlen Hne).
    assert (128 ^ 10 <= 128 ^ Z.of_nat (List.length ms))
      by (apply Z.pow_le_mono_r; lia).
    change (128 ^ 10) with 1180591620717411303424 in *.
    change (2 ^ 64) with 18446744073709551616 in *. lia.
Qed.

Lemma encodeVarint_wellformed_witness :
  exists front final,
    encodeVarint 12345678 = front ++ [final] /\
    Forall (fun b => 128 <= b < 256) front /\
    0 <= final < 128 /\
    hd 0 front <> 0x80 /\
    (front <> [] -> 128 ^ Z.of_nat (List.length front) <= 12345678) /\
    (List.length front <= 9)%nat.
Proof. apply (encodeVarint_wellformed 12345678). lia. Defined.

Lemma parseVarint_loop_readVarint_loop (data : list Z) :
  forall rv i n,
    parseVarint_loop rv i n data
    = match readVarint_loop rv data with
      | (Ok v, rest) =>
          (v, Go.int (i + Z.of_nat (List.length data - List.length rest)), None)
      | (Err _, _) => (0, n, Some (VarintExhausted n))
      end.
Proof.
  induction data as [|b data IH]; intros rv i n; cbn [parseVarint_loop readVarint_loop].
  - reflexivity.
  - destruct (Z.land b 128 =? 0).
    + cbn [List.length]. rewrite Nat.sub_succ_l, Nat.sub_diag by lia.
      reflexivity.
    + rewrite IH.
      destruct (readVarint_loop (Go.uint64 (Z.shiftl (Z.lor rv (Z.land b 127)) 7)) data)
        as [[v|e] rest] eqn:E; [|reflexivity].
      apply readVarint_loop_consumes in E.
      cbn [List.length]. rewrite Nat.sub_succ_l by lia.
      f_equal. f_equal. f_equal. lia.
Qed.

Lemma int_small (z : Z) : - 2 ^ 63 <= z < 2 ^ 63 -> Go.int z = z.
Proof.
  intros H. unfold Go.int, Go.int64.
  rewrite Z.mod_small by lia. lia.
Qed.

(** X2.  [parseVarint] on a slice and [readVarint] on a reader over the
    same bytes agree: where the reader returns a value and leaves [rest],
    the slice decoder returns the value and the number of bytes before
    [rest]; where the reader fails (the bytes end on a continuation byte,
    or there is none), the slice decoder returns 0, the length of the
    slice, and its error. *)
Theorem parseVarint_readVarint (data : list Z) :
  Z.of_nat (List.length data) < 2 ^ 63 ->
  parseVarint data
  = match readVarint data with
    | (Ok v, rest) => (v, Z.of_nat (List.length data - List.length rest), None)
    | (Err _, _) =>
        (0, Z.of_nat (List.length data),
         Some (VarintExhausted (Z.of_nat (List.length data))))
    end.
Proof.
  intros Hlen. unfold parseVarint, readVarint.
  rewrite parseVarint_loop_readVarint_loop.
  destruct (readVarint_loop 0 data) as [[v|e] rest]; [|reflexivity].
  rewrite int_small; [reflexivity|]. lia.
Qed.

Lemma parseVarint_readVarint_witness :
  parseVarint [0x81; 0x48; 0x05]
  = match readVarint [0x81; 0x48; 0x05] with
    | (Ok v, rest) => (v, Z.of_nat (List.length [0x81; 0x48; 0x05] - List.length rest), None)
    | (Err _, _) =>
        (0, Z.of_nat (List.length [0x81; 0x48; 0x05]),
         Some (VarintExhausted (Z.of_nat (List.length [0x81; 0x48; 0x05]))))
    end.
Proof. apply (parseVarint_readVarint [0x81; 0x48; 0x05]). cbn. lia. Defined.

Lemma encodeVarint_length (u : Z) :
  0 <= u < 2 ^ 64 -> (1 <= List.length (encodeVarint u) <= 10)%nat.
Proof.
  intros Hu. destruct (Z.eq_dec u 0) as [->|Hnz]; [cbn; lia|].
  destruct (encodeVarint_shape u ltac:(lia)) as (ms & He & Hs & Hl & Hv & Hh).
  rewrite He, length_app, length_map. cbn [List.length].
  destruct (Nat.le_gt_cases (List.length ms) 9) as [Hle|Hgt]; [lia|].
  exfalso. destruct ms as [|d ms]; [cbn in Hgt; lia|].
  cbn [hd] in Hh. inversion Hs as [|? ? Hd Hs']; subst.
  pose proof (msb_value_lower ms d Hh Hs') as Hlow.
  change (msb_value 0 (d :: ms)) with (msb_value d ms) in Hv.
  cbn [List.length] in Hgt.
  assert (128 ^ 9 <= 128 ^ Z.of_nat (List.length ms))
    by (apply Z.pow_le_mono_r; lia).
  change (128 ^ 9) with 9223372036854775808 in *.
  change (2 ^ 64) with 18446744073709551616 in *.
  unfold septet in Hl. nia.
Qed.

(** X3.  Round trip through the slice decoder: [parseVarint] reads the
    bytes [encodeVarint] wrote for a [uint64] back as that number,
    whatever follows them, and reports their count as used. *)
Theorem parseVarint_encodeVarint (u : Z) (rest : list Z) :
  0 <= u < 2 ^ 64 ->
  parseVarint (encodeVarint u ++ rest)
  = (u, Z.of_nat (List.length (encodeVarint u)), None).
Proof.
  intros Hu. unfold parseVarint.
  rewrite parseVarint_loop_readVarint_loop.
  change (readVarint_loop 0) with readVarint.
  rewrite readVarint_encodeVarint by exact Hu.
  rewrite length_app, Nat.add_sub.
  pose proof (encodeVarint_length u Hu).
  rewrite int_small; [reflexivity|]. lia.
Qed.

Lemma parseVarint_encodeVarint_witness :
  parseVarint (encodeVarint 10048 ++ [0xFF; 0x2F; 0x00])
  = (10048, Z.of_nat (List.length (encodeVarint 10048)), None).
Proof. apply (parseVarint_encodeVarint 10048). lia. Defined.

(* ===================================================================== *)
(** ** Literals, sized chunks and sentinels *)
(* ===================================================================== *)

Lemma list_eqb_eq (a b : list Z) : list_eqb a b = true <-> a = b.
Proof.
  unfold list_eqb. destruct (list_eq_dec Z.eq_dec a b); split; congruence.
Qed.

Lemma Read_nonempty (n : nat) (b : Z) (s : list Z) :
  Read n (b :: s) = ((firstn n (b :: s), None), skipn n (b :: s)).
Proof. destruct n; reflexivity. Qed.

Lemma Read_zero (s : list Z) : Read 0 s = (([], None), s).
Proof. destruct s; reflexivity. Qed.

Lemma Read_enough (n : nat) (s : list Z) :
  (n <= List.length s)%nat -> Read n s = ((firstn n s, None), skipn n s).
Proof.
  intros H. destruct s as [|b s].
  - destruct n; [reflexivity|cbn in H; lia].
  - apply Read_nonempty.
Qed.

Lemma readLiteralExpecting_literal (lit rest : list Z) :
  readLiteralExpecting lit (lit ++ rest) = (Ok tt, rest).
Proof.
  unfold readLiteralExpecting.
  rewrite Read_enough by (rewrite length_app; lia).
  rewrite firstn_app, Nat.sub_diag, firstn_all, firstn_O, app_nil_r.
  rewrite skipn_app, Nat.sub_diag, skipn_all, skipn_O.
  rewrite Z.eqb_refl. cbn [negb].
  destruct (list_eqb lit lit) eqn:Eq; [reflexivity|].
  assert (list_eqb lit lit = true) by now apply list_eqb_eq. congruence.
Qed.

(** X4.  [readLiteralExpecting] succeeds exactly on a reader that starts
    with the literal, and then leaves what follows the literal. *)
Theorem readLiteralExpecting_ok_iff (lit r r' : list Z) :
  readLiteralExpecting lit r = (Ok tt, r') <-> r = lit ++ r'.
Proof.
  unfold readLiteralExpecting. split.
  - destruct r as [|b r].
    + destruct lit as [|l lit]; cbn.
      * intros H. inversion H. reflexivity.
      * discriminate.
    + rewrite Read_nonempty.
      destruct (Z.eqb_spec (Z.of_nat (List.length (firstn (List.length lit) (b :: r))))
                  (Z.of_nat (List.length lit))) as [El|El]; cbn [negb]; [|discriminate].
      destruct (list_eqb (firstn (List.length lit) (b :: r)) lit) eqn:Eq;
        cbn [negb]; [|discriminate].
      apply list_eqb_eq in Eq. intros H. inversion H; subst r'.
      rewrite <- Eq at 1. symmetry. apply firstn_skipn.
  - intros ->. apply readLiteralExpecting_literal.
Qed.

Lemma lor_shiftl_add (a b k : Z) :
  0 <= k -> 0 <= b < 2 ^ k -> Z.lor (Z.shiftl a k) b = a * 2 ^ k + b.
Proof.
  intros Hk Hb.
  assert (Hland : Z.land (Z.shiftl a k) b = 0).
  { apply Z.bits_inj'. intros n Hn. rewrite Z.land_spec, Z.bits_0.
    destruct (Z.ltb_spec n k).
    - rewrite Z.shiftl_spec_low by lia. reflexivity.
    - destruct (Z.eq_dec b 0) as [->|Hz].
      + rewrite Z.bits_0. apply andb_false_r.
      + rewrite (Z.bits_above_log2 b n), andb_false_r; try lia.
        apply Z.lt_le_trans with k; [|lia].
        apply Z.log2_lt_pow2; lia. }
  rewrite <- Z.lxor_lor by exact Hland.
  rewrite Z.shiftl_mul_pow2 in * by lia.
  symmetry. apply Z.add_nocarry_lxor. exact Hland.
Qed.

Lemma of_be16_value (b0 b1 : Z) :
  0 <= b1 < 256 -> Go.of_be16 b0 b1 = b0 * 256 + b1.
Proof.
  intros H. unfold Go.of_be16. rewrite lor_shiftl_add; lia.
Qed.

Lemma of_be32_value (b0 b1 b2 b3 : Z) :
  0 <= b1 < 256 -> 0 <= b2 < 256 -> 0 <= b3 < 256 ->
  Go.of_be32 b0 b1 b2 b3 = ((b0 * 256 + b1) * 256 + b2) * 256 + b3.
Proof.
  intros H1 H2 H3. unfold Go.of_be32.
  replace (Z.shiftl b0 24) with (Z.shiftl (Z.shiftl b0 8) 16)
    by (rewrite Z.shiftl_shiftl by lia; reflexivity).
  rewrite <- Z.shiftl_lor.
  rewrite (lor_shiftl_add b0 b1 8) by lia.
  replace (Z.shiftl (b0 * 2 ^ 8 + b1) 16) with (Z.shiftl (Z.shiftl (b0 * 2 ^ 8 + b1) 8) 8)
    by (rewrite Z.shiftl_shiftl by lia; reflexivity).
  rewrite <- Z.shiftl_lor.
  rewrite (lor_shiftl_add _ b2 8) by lia.
  rewrite lor_shiftl_add by lia. lia.
Qed.

Lemma of_be16_be16 (n : Z) :
  0 <= n < 2 ^ 16 ->
  Go.of_be16 (Z.shiftr n 8 mod 256) (n mod 256) = n.
Proof.
  intros H. rewrite of_be16_value by (apply Z.mod_pos_bound; lia).
  rewrite Z.shiftr_div_pow2 by lia.
  change (2 ^ 8) with 256. change (2 ^ 16) with 65536 in H.
  Z.div_mod_to_equations. lia.
Qed.

Lemma of_be32_be32 (n : Z) :
  0 <= n < 2 ^ 32 ->
  Go.of_be32 (Z.shiftr n 24 mod 256) (Z.shiftr n 16 mod 256)
    (Z.shiftr n 8 mod 256) (n mod 256) = n.
Proof.
  intros H. rewrite of_be32_value by (apply Z.mod_pos_bound; lia).
  rewrite !Z.shiftr_div_pow2 by lia.
  change (2 ^ 8) with 256. change (2 ^ 16) with 65536.
  change (2 ^ 24) with 16777216. change (2 ^ 32) with 4294967296 in H.
  Z.div_mod_to_equations. lia.
Qed.

Lemma readUint32_be32 (n : Z) (rest : list Z) :
  0 <= n < 2 ^ 32 -> readUint32 (Go.be32 n ++ rest) = (Ok n, rest).
Proof.
  intros H. unfold readUint32, ReadFull, Go.be32. cbn -[Z.shiftr Z.modulo Go.of_be32].
  rewrite of_be32_be32 by exact H. reflexivity.
Qed.

Lemma Read_body (body rest : list Z) :
  Read (List.length body) (body ++ rest) = ((body, None), rest).
Proof.
  rewrite Read_enough by (rewrite length_app; lia).
  rewrite firstn_app, Nat.sub_diag, firstn_all, firstn_O, app_nil_r.
  rewrite skipn_app, Nat.sub_diag, skipn_all, skipn_O. reflexivity.
Qed.

Lemma parseSizedChunk_be32 (n : Z) (body rest : list Z) :
  n = Z.of_nat (List.length body) -> n < 2 ^ 32 ->
  parseSizedChunk (Go.be32 n ++ body ++ rest) = (Ok body, rest).
Proof.
  intros -> H. unfold parseSizedChunk.
  rewrite readUint32_be32 by lia.
  rewrite Nat2Z.id, Read_body, Z.eqb_refl. reflexivity.
Qed.

(** X5.  [parseSizedChunk] reads back a chunk body that follows its
    32-bit big-endian length, whole, and leaves what follows the chunk. *)
Theorem parseSizedChunk_chunk (body rest : list Z) :
  Z.of_nat (List.length body) < 2 ^ 32 ->
  parseSizedChunk (Go.be32 (Z.of_nat (List.length body)) ++ body ++ rest)
  = (Ok body, rest).
Proof.
  intros H. now apply parseSizedChunk_be32.
Qed.

Lemma parseSizedChunk_chunk_witness :
  parseSizedChunk (Go.be32 (Z.of_nat (List.length [0; 1; 0; 2; 0; 0xC0]))
                     ++ [0; 1; 0; 2; 0; 0xC0] ++ MTrk)
  = (Ok [0; 1; 0; 2; 0; 0xC0], MTrk).
Proof. apply (parseSizedChunk_chunk [0; 1; 0; 2; 0; 0xC0] MTrk). cbn. lia. Defined.

Lemma onReadBytes_step (remaining : Z) (r : list Z) :
  onReadBytes remaining r
  = if remaining >? 0 then
      match Read (Z.to_nat (Z.min 4096 remaining)) r with
      | ((_, Some err), r') => (Err (ReadError err), r')
      | ((_, None), r') => onReadBytes (remaining - Z.min 4096 remaining) r'
      end
    else (Ok tt, r).
Proof.
  funelim (onReadBytes remaining r).
  - destruct (Z.gtb_spec remaining 0); [lia|reflexivity].
  - destruct (Z.gtb_spec remaining 0); [|lia].
    match goal with E : Read _ _ = _ |- _ => rewrite E end. reflexivity.
  - destruct (Z.gtb_spec remaining 0); [|lia].
    match goal with E : Read _ _ = _ |- _ => rewrite E end. reflexivity.
Qed.

Lemma onReadBytes_pieces (n : Z) (r : list Z) :
  0 < n ->
  onReadBytes n r
  = if Z.of_nat (List.length r) >? 4096 * ((n - 1) / 4096)
    then (Ok tt, skipn (Z.to_nat n) r)
    else (Err (ReadError EOF), []).
Proof.
  intros Hn. assert (H0 : 0 <= n) by lia. revert Hn r.
  pattern n. apply Zlt_0_ind; [|exact H0].
  clear n H0. intros n IH _ Hn r.
  rewrite onReadBytes_step.
  destruct (Z.gtb_spec n 0); [|lia].
  assert (Hq : 0 <= (n - 1) / 4096) by (apply Z.div_pos; lia).
  destruct r as [|b r].
  - destruct (Z.to_nat (Z.min 4096 n)) eqn:E; [lia|].
    cbn [Read List.length].
    destruct (Z.gtb_spec (Z.of_nat 0) (4096 * ((n - 1) / 4096))); [lia|reflexivity].
  - rewrite Read_nonempty.
    destruct (Z.le_gt_cases n 4096) as [Hsmall|Hbig].
    + rewrite Z.min_r by lia. rewrite Z.sub_diag, onReadBytes_step.
      cbn [Z.gtb Z.compare].
      rewrite Z.div_small by lia.
      destruct (Z.gtb_spec (Z.of_nat (List.length (b :: r))) (4096 * 0));
        [reflexivity|cbn [List.length] in *; lia].
    + rewrite Z.min_l by lia.
      rewrite (IH (n - 4096)) by lia.
      replace ((n - 1) / 4096) with ((n - 4096 - 1) / 4096 + 1)
        by (rewrite <- Z.div_add by lia; f_equal; lia).
      assert (Hq' : 0 <= (n - 4096 - 1) / 4096) by (apply Z.div_pos; lia).
      rewrite length_skipn, skipn_skipn.
      replace (Z.to_nat (n - 4096) + Z.to_nat 4096)%nat with (Z.to_nat n) by lia.
      destruct (Z.gtb_spec (Z.of_nat (List.length (b :: r) - Z.to_nat 4096))
                  (4096 * ((n - 4096 - 1) / 4096)));
        destruct (Z.gtb_spec (Z.of_nat (List.length (b :: r)))
                    (4096 * ((n - 4096 - 1) / 4096 + 1)));
        try reflexivity; lia.
Qed.

(** X6.  [onReadBytes] with a nil callback, on every reader: it succeeds
    exactly when the reader holds a byte of the last piece of at most
    4096 it asks for, and then leaves what follows the [n] bytes; so a
    reader that ends inside the last piece, short of [n] bytes, is accepted
    too.  Otherwise it fails with the read error on [io.EOF], the reader
    exhausted. *)
Theorem onReadBytes_result (n : Z) (r : list Z) :
  0 < n ->
  onReadBytes n r
  = if Z.of_nat (List.length r) >? 4096 * ((n - 1) / 4096)
    then (Ok tt, skipn (Z.to_nat n) r)
    else (Err (ReadError EOF), []).
Proof. apply onReadBytes_pieces. Qed.

Lemma onReadBytes_result_witness :
  onReadBytes 100 [1; 2; 3]
  = if Z.of_nat (List.length [1; 2; 3]) >? 4096 * ((100 - 1) / 4096)
    then (Ok tt, skipn (Z.to_nat 100) [1; 2; 3])
    else (Err (ReadError EOF), []).
Proof. apply (onReadBytes_result 100 [1; 2; 3]). lia. Defined.

Lemma onReadBytes_zero (n : Z) (r : list Z) : n <= 0 -> onReadBytes n r = (Ok tt, r).
Proof.
  intros H. rewrite onReadBytes_step. destruct (Z.gtb_spec n 0); [lia|reflexivity].
Qed.

Lemma onReadBytes_body (body rest : list Z) :
  onReadBytes (Z.of_nat (List.length body)) (body ++ rest) = (Ok tt, rest).
Proof.
  destruct body as [|b body].
  - apply onReadBytes_zero. cbn. lia.
  - rewrite onReadBytes_pieces by (cbn [List.length]; lia).
    rewrite Nat2Z.id, skipn_app, Nat.sub_diag, skipn_all, skipn_O.
    assert (4096 * ((Z.of_nat (List.length (b :: body)) - 1) / 4096)
            <= Z.of_nat (List.length (b :: body)) - 1)
      by (apply Z.mul_div_le; lia).
    destruct (Z.gtb_spec (Z.of_nat (List.length ((b :: body) ++ rest)))
                (4096 * ((Z.of_nat (List.length (b :: body)) - 1) / 4096)));
      [reflexivity|].
    rewrite length_app in *. lia.
Qed.

(** X7.  [skipSizedChunk] passes over a chunk body that follows its
    32-bit length and leaves what follows the chunk. *)
Theorem skipSizedChunk_chunk (body rest : list Z) :
  Z.of_nat (List.length body) < 2 ^ 32 ->
  skipSizedChunk (Go.be32 (Z.of_nat (List.length body)) ++ body ++ rest)
  = (Ok tt, rest).
Proof.
  intros H. unfold skipSizedChunk.
  rewrite readUint32_be32 by lia. apply onReadBytes_body.
Qed.

Lemma skipSizedChunk_chunk_witness :
  skipSizedChunk (Go.be32 (Z.of_nat (List.length [1; 2; 3])) ++ [1; 2; 3] ++ MTrk)
  = (Ok tt, MTrk).
Proof. apply (skipSizedChunk_chunk [1; 2; 3] MTrk). cbn. lia. Defined.

Lemma readUntil_loop_found (sentinel : Z) (pre rest : list Z) :
  forall rv,
    ~ In sentinel pre ->
    readUntil_loop sentinel rv (pre ++ sentinel :: rest)
    = (Ok (match pre with [] => rv | _ => Some (Go.elems rv ++ pre) end), rest).
Proof.
  induction pre as [|b pre IH]; intros rv Hn; cbn [readUntil_loop app].
  - rewrite Z.eqb_refl. reflexivity.
  - destruct (Z.eqb_spec b sentinel) as [->|Hne]; [exfalso; apply Hn; now left|].
    rewrite IH by (intros Hin; apply Hn; now right).
    destruct rv as [l|]; destruct pre; cbn [Go.append1 Go.elems app];
      rewrite <- ?app_assoc; reflexivity.
Qed.

Lemma readUntil_loop_missing (sentinel : Z) (r : list Z) :
  forall rv, ~ In sentinel r -> readUntil_loop sentinel rv r = (Err EOF, []).
Proof.
  induction r as [|b r IH]; intros rv Hn; cbn [readUntil_loop]; [reflexivity|].
  destruct (Z.eqb_spec b sentinel) as [->|Hne]; [exfalso; apply Hn; now left|].
  apply IH. intros Hin. apply Hn. now right.
Qed.

(** X8.  [readUntil] returns the bytes in front of the first occurrence
    of the sentinel (a nil slice when there is none in front), consumes
    the sentinel and leaves what follows it; on a reader that does not
    hold the sentinel it fails with [io.EOF], the reader exhausted. *)
Theorem readUntil_first_sentinel (sentinel : Z) (pre rest : list Z) :
  ~ In sentinel pre ->
  readUntil sentinel (pre ++ sentinel :: rest)
  = (Ok (match pre with [] => None | _ => Some pre end), rest) /\
  readUntil sentinel pre = (Err EOF, []).
Proof.
  intros Hn. unfold readUntil. split.
  - rewrite readUntil_loop_found by exact Hn. reflexivity.
  - apply readUntil_loop_missing, Hn.
Qed.

Lemma readUntil_first_sentinel_witness :
  readUntil 0 ([0x41; 0x42] ++ 0 :: [0x43; 0])
  = (Ok (Some [0x41; 0x42]), [0x43; 0]) /\
  readUntil 0 [0x41; 0x42] = (Err EOF, []).
Proof.
  apply (readUntil_first_sentinel 0 [0x41; 0x42] [0x43; 0]).
  cbn. intros [H|[H|[]]]; discriminate.
Defined.

(* ===================================================================== *)
(** ** The reader wrappers *)
(* ===================================================================== *)

Lemma int64_small (z : Z) : - 2 ^ 63 <= z < 2 ^ 63 -> Go.int64 z = z.
Proof.
  intros H. unfold Go.int64. rewrite Z.mod_small by lia. lia.
Qed.

Lemma Read_prefix (n : nat) (u : list Z) :
  exists err,
    Read n u = ((firstn n u, err), skipn n u).
Proof.
  destruct u as [|b u].
  - destruct n; cbn; eauto.
  - rewrite Read_nonempty. eauto.
Qed.

Lemma skipn_window (n w : nat) (l : list Z) :
  (n <= w)%nat -> skipn n l = skipn n (firstn w l) ++ skipn w l.
Proof.
  intros H. rewrite <- (firstn_skipn w l) at 1. rewrite skipn_app.
  f_equal. rewrite length_firstn.
  destruct (Nat.le_gt_cases w (List.length l)) as [H1|H1].
  - rewrite Nat.min_l by lia. replace (n - w)%nat with 0%nat by lia. reflexivity.
  - rewrite (skipn_all2 l) by lia. apply skipn_nil.
Qed.

(** X9.  A limit reader that may still deliver [w] bytes answers a read
    into a non-empty buffer as a reader over the next [w] bytes of the
    reader below would; what that reader would leave unread stays in
    front of the reader below, and the count goes up by the bytes
    delivered. *)
Theorem limitReader_Read_window (n : nat) (u : list Z) (total limit : Z) :
  0 <= total <= limit -> limit < 2 ^ 63 -> (0 < n)%nat ->
  limitReader_Read n (mkLimitReader u total limit)
  = let w := Z.to_nat (limit - total) in
    let '((buf, err), unread) := Read n (firstn w u) in
    ((buf, err),
     mkLimitReader (unread ++ skipn w u) (total + Z.of_nat (List.length buf)) limit).
Proof.
  intros Ht Hl Hn. unfold limitReader_Read.
  cbn [lim_underlying lim_totalBytesRead lim_readLimit].
  rewrite int64_small by lia. cbv zeta.
  destruct (Z.leb_spec (limit - total) 0) as [Hz|Hp].
  - replace (Z.to_nat (limit - total)) with 0%nat by lia.
    rewrite firstn_O, skipn_O. destruct n; [lia|]. cbn [Read app List.length].
    rewrite Z.add_0_r. reflexivity.
  - destruct u as [|b u].
    + rewrite firstn_nil, skipn_nil.
      assert (E : forall k, (0 < k)%nat -> Read k [] = (([], Some EOF), []))
        by (intros [|k] Hk; [lia|reflexivity]).
      rewrite (E n Hn), (E (Z.to_nat (limit - total))) by lia.
      destruct (Z.of_nat n >? limit - total); cbn [List.length app];
        rewrite int64_small by lia; rewrite Z.add_0_r; reflexivity.
    + remember (Z.to_nat (limit - total)) as w eqn:Ew.
      destruct w as [|w]; [lia|].
      rewrite (firstn_cons w b u), !Read_nonempty.
      rewrite <- (firstn_cons w b u).
      destruct (Z.gtb_spec (Z.of_nat n) (limit - total)) as [Hgt|Hle].
      * rewrite firstn_firstn, Nat.min_r by lia.
        rewrite (skipn_all2 (firstn (S w) (b :: u)))
          by (rewrite length_firstn; lia).
        cbn [app].
        rewrite int64_small; [reflexivity|].
        pose proof (firstn_le_length (S w) (b :: u)). lia.
      * rewrite firstn_firstn, Nat.min_l by lia.
        rewrite int64_small
          by (pose proof (firstn_le_length n (b :: u)); lia).
        f_equal. f_equal. apply skipn_window. lia.
Qed.

Lemma limitReader_Read_window_witness :
  limitReader_Read 1000 (mkLimitReader [104; 101; 108; 108; 111; 119; 111] 0 5)
  = let w := Z.to_nat (5 - 0) in
    let '((buf, err), unread) := Read 1000 (firstn w [104; 101; 108; 108; 111; 119; 111]) in
    ((buf, err),
     mkLimitReader (unread ++ skipn w [104; 101; 108; 108; 111; 119; 111])
       (0 + Z.of_nat (List.length buf)) 5).
Proof.
  apply (limitReader_Read_window 1000 [104; 101; 108; 108; 111; 119; 111] 0 5); lia.
Defined.

Lemma firstn_add_skipn (j k : nat) (l : list Z) :
  (j <= List.length l)%nat ->
  firstn j l ++ firstn k (skipn j l) = firstn (j + k) l.
Proof.
  intros H. rewrite <- (firstn_skipn j l) at 3.
  rewrite firstn_app, length_firstn, Nat.min_l by exact H.
  replace (j + k - j)%nat with k by lia.
  rewrite firstn_firstn, Nat.min_r by lia. reflexivity.
Qed.

Lemma limitReader_Read_prefix (n : nat) (u : list Z) (total limit : Z) :
  0 <= total <= limit -> limit < 2 ^ 63 ->
  exists j err,
    (j <= List.length u)%nat /\ total + Z.of_nat j <= limit /\
    limitReader_Read n (mkLimitReader u total limit)
    = ((firstn j u, err), mkLimitReader (skipn j u) (total + Z.of_nat j) limit).
Proof.
  intros Ht Hl. unfold limitReader_Read.
  cbn [lim_underlying lim_totalBytesRead lim_readLimit].
  rewrite int64_small by lia.
  destruct (Z.leb_spec (limit - total) 0) as [Hz|Hp].
  - exists 0%nat, (Some EOF). rewrite firstn_O, skipn_O, Z.add_0_r.
    repeat split; lia.
  - set (m := if Z.of_nat n >? limit - total then Z.to_nat (limit - total) else n).
    assert (Hm : Z.of_nat m <= limit - total).
    { subst m. destruct (Z.gtb_spec (Z.of_nat n) (limit - total)); lia. }
    replace (if Z.of_nat n >? limit - total
             then Read (Z.to_nat (limit - total)) u else Read n u)
      with (Read m u) by (subst m; destruct (Z.of_nat n >? limit - total); reflexivity).
    destruct (Read_prefix m u) as [err ->].
    exists (Nat.min m (List.length u)), err.
    rewrite length_firstn.
    split; [lia|]. split; [lia|].
    rewrite int64_small by lia.
    destruct (Nat.le_gt_cases m (List.length u)) as [H1|H1].
    + rewrite Nat.min_l by lia. reflexivity.
    + rewrite Nat.min_r by lia.
      rewrite !firstn_all2, !skipn_all2 by lia. reflexivity.
Qed.

Lemma limitReader_Reads_state (ns : list nat) (limit : Z) :
  forall u total,
    0 <= total <= limit -> limit < 2 ^ 63 ->
    exists k,
      (k <= List.length u)%nat /\ total + Z.of_nat k <= limit /\
      limitReader_Reads ns (mkLimitReader u total limit)
      = (firstn k u, mkLimitReader (skipn k u) (total + Z.of_nat k) limit).
Proof.
  induction ns as [|n ns IH]; intros u total Ht Hl; cbn [limitReader_Reads].
  - exists 0%nat. rewrite firstn_O, skipn_O, Z.add_0_r. repeat split; lia.
  - destruct (limitReader_Read_prefix n u total limit Ht Hl)
      as (j & err & Hj & Hjl & ->).
    destruct (IH (skipn j u) (total + Z.of_nat j) ltac:(lia) Hl)
      as (k & Hk & Hkl & ->).
    rewrite length_skipn in Hk.
    exists (j + k)%nat. split; [lia|]. split; [lia|].
    rewrite firstn_add_skipn by exact Hj.
    rewrite skipn_skipn, (Nat.add_comm k j).
    rewrite Nat2Z.inj_add, Z.add_assoc. reflexivity.
Qed.

(** X10.  Whatever buffer sizes a run of reads on a limit reader uses, the
    bytes it delivers are a prefix of the reader below that is at most
    [limit] bytes long; the reader below is left right after them and the
    count is their number. *)
Theorem limitReader_Reads_within_limit (ns : list nat) (r : list Z) (limit : Z) :
  0 <= limit < 2 ^ 63 ->
  exists k,
    (k <= List.length r)%nat /\ Z.of_nat k <= limit /\
    limitReader_Reads ns (limitReader_New r limit)
    = (firstn k r, mkLimitReader (skipn k r) (Z.of_nat k) limit).
Proof.
  intros Hl. unfold limitReader_New.
  destruct (limitReader_Reads_state ns limit r 0 ltac:(lia) ltac:(lia))
    as (k & Hk & Hkl & E).
  exists k. split; [exact Hk|]. split; [lia|]. exact E.
Qed.

Lemma limitReader_Reads_within_limit_witness :
  exists k,
    (k <= List.length [104; 101; 108; 108; 111; 119; 111]%Z)%nat /\ Z.of_nat k <= 5 /\
    limitReader_Reads [2; 0; 1000; 3]%nat
      (limitReader_New [104; 101; 108; 108; 111; 119; 111] 5)
    = (firstn k [104; 101; 108; 108; 111; 119; 111],
       mkLimitReader (skipn k [104; 101; 108; 108; 111; 119; 111]) (Z.of_nat k) 5).
Proof.
  apply (limitReader_Reads_within_limit [2; 0; 1000; 3]%nat
           [104; 101; 108; 108; 111; 119; 111] 5). lia.
Defined.

Lemma last_bytes_app (k : nat) (c b : list Z) :
  last_bytes k (last_bytes k c ++ b) = last_bytes k (c ++ b).
Proof.
  unfold last_bytes.
  destruct (Nat.le_gt_cases (List.length c) k) as [H|H].
  - replace (List.length c - k)%nat with 0%nat by lia. reflexivity.
  - rewrite !length_app, length_skipn.
    replace (List.length c - (List.length c - k) + List.length b - k)%nat
      with (List.length b) by lia.
    replace (List.length c + List.length b - k)%nat
      with (List.length b + (List.length c - k))%nat by lia.
    rewrite <- skipn_skipn. f_equal.
    rewrite skipn_app.
    replace (List.length c - k - List.length c)%nat with 0%nat by lia.
    reflexivity.
Qed.

Lemma last_bytes_trim (k : nat) (l : list Z) :
  (if Z.of_nat (List.length l) >? Z.of_nat k
   then skipn (List.length l - k) l else l) = last_bytes k l.
Proof.
  unfold last_bytes.
  destruct (Z.gtb_spec (Z.of_nat (List.length l)) (Z.of_nat k)); [reflexivity|].
  replace (List.length l - k)%nat with 0%nat by lia. reflexivity.
Qed.

Lemma ContextReader_Read_state (n : nat) (c u : list Z) (last : Go.slice) :
  Go.elems last = last_bytes numberOfContextBytes c ->
  Z.of_nat (List.length c) + Z.of_nat (List.length u) < 2 ^ 63 ->
  exists j err last',
    (j <= List.length u)%nat /\
    ContextReader_Read n (mkContextReader u (Z.of_nat (List.length c)) last)
    = ((firstn j u, err),
       mkContextReader (skipn j u) (Z.of_nat (List.length (c ++ firstn j u))) last') /\
    Go.elems last' = last_bytes numberOfContextBytes (c ++ firstn j u).
Proof.
  intros Hlast Hlen. unfold ContextReader_Read.
  cbn [ctx_underlying ctx_totalBytesRead ctx_lastBytesRead].
  destruct (Read_prefix n u) as [err ->].
  exists (Nat.min n (List.length u)), err.
  assert (Ef : firstn (Nat.min n (List.length u)) u = firstn n u).
  { destruct (Nat.le_gt_cases n (List.length u)).
    - rewrite Nat.min_l by lia. reflexivity.
    - rewrite Nat.min_r by lia. rewrite !firstn_all2 by lia. reflexivity. }
  assert (Es : skipn (Nat.min n (List.length u)) u = skipn n u).
  { destruct (Nat.le_gt_cases n (List.length u)).
    - rewrite Nat.min_l by lia. reflexivity.
    - rewrite Nat.min_r by lia. rewrite !skipn_all2 by lia. reflexivity. }
  rewrite Ef, Es.
  assert (Hb : (List.length (firstn n u) <= List.length u)%nat)
    by (rewrite length_firstn; lia).
  eexists. split; [lia|]. split.
  - rewrite int64_small by lia.
    rewrite length_app, Nat2Z.inj_add. reflexivity.
  - set (l1 := if Z.of_nat (List.length (firstn n u)) >? 0
               then Some (Go.elems last ++ firstn n u) else last).
    assert (E1 : Go.elems l1 = Go.elems last ++ firstn n u).
    { subst l1. destruct (Z.gtb_spec (Z.of_nat (List.length (firstn n u))) 0).
      - reflexivity.
      - destruct (firstn n u); [now rewrite app_nil_r|cbn [List.length] in *; lia]. }
    assert (E2 : Go.len l1 = Z.of_nat (List.length (Go.elems l1)))
      by (destruct l1; reflexivity).
    rewrite E2.
    transitivity (last_bytes numberOfContextBytes (Go.elems l1)).
    + rewrite <- last_bytes_trim.
      destruct (Z.of_nat (List.length (Go.elems l1)) >? Z.of_nat numberOfContextBytes);
        reflexivity.
    + rewrite E1, Hlast. apply last_bytes_app.
Qed.

Lemma ContextReader_Reads_state (ns : list nat) :
  forall c u last,
    Go.elems last = last_bytes numberOfContextBytes c ->
    Z.of_nat (List.length c) + Z.of_nat (List.length u) < 2 ^ 63 ->
    exists k last',
      (k <= List.length u)%nat /\
      ContextReader_Reads ns (mkContextReader u (Z.of_nat (List.length c)) last)
      = (firstn k u,
         mkContextReader (skipn k u) (Z.of_nat (List.length (c ++ firstn k u))) last') /\
      Go.elems last' = last_bytes numberOfContextBytes (c ++ firstn k u).
Proof.
  induction ns as [|n ns IH]; intros c u last Hlast Hlen; cbn [ContextReader_Reads].
  - exists 0%nat, last. rewrite firstn_O, skipn_O, app_nil_r.
    split; [lia|]. split; [reflexivity|exact Hlast].
  - destruct (ContextReader_Read_state n c u last Hlast Hlen)
      as (j & err & last1 & Hj & -> & Hlast1).
    destruct (IH (c ++ firstn j u) (skipn j u) last1 Hlast1) as (k & last2 & Hk & -> & Hlast2).
    { rewrite length_app, length_firstn, length_skipn. lia. }
    rewrite length_skipn in Hk.
    exists (j + k)%nat, last2. split; [lia|].
    rewrite <- app_assoc, firstn_add_skipn in * by exact Hj.
    rewrite skipn_skipn, (Nat.add_comm k j). split; [reflexivity|exact Hlast2].
Qed.

(** X11.  Whatever buffer sizes a run of reads on a context reader uses,
    the reader keeps the number of bytes read from the reader below and
    the last 64 of them (all, when there are fewer); the error
    [WrapError] builds is the one built from the input and what is left
    of it. *)
Theorem ContextReader_Reads_context (ns : list nat) (input : list Z) (err : error) :
  Z.of_nat (List.length input) < 2 ^ 63 ->
  exists k r,
    (k <= List.length input)%nat /\
    ContextReader_Reads ns (ContextReader_New input) = (firstn k input, r) /\
    ctx_underlying r = skipn k input /\
    ctx_totalBytesRead r = Z.of_nat k /\
    Go.elems (ctx_lastBytesRead r)
    = last_bytes numberOfContextBytes (firstn k input) /\
    ContextReader_WrapError r err = WrapError input (ctx_underlying r) err.
Proof.
  intros Hlen. unfold ContextReader_New.
  destruct (ContextReader_Reads_state ns [] input None eq_refl)
    as (k & last' & Hk & E & Hlast); [cbn [List.length]; lia|].
  cbn [app List.length] in *.
  exists k. eexists. split; [exact Hk|]. split; [exact E|].
  cbn [ctx_underlying ctx_totalBytesRead ctx_lastBytesRead].
  rewrite length_firstn, Nat.min_l by exact Hk.
  split; [reflexivity|]. split; [reflexivity|]. split; [exact Hlast|].
  unfold ContextReader_WrapError, WrapError.
  cbn [ctx_underlying ctx_totalBytesRead ctx_lastBytesRead].
  rewrite length_skipn.
  replace (List.length input - (List.length input - k))%nat with k by lia.
  rewrite Hlast. unfold last_bytes.
  rewrite length_firstn, Nat.min_l by exact Hk. reflexivity.
Qed.

Lemma ContextReader_Reads_context_witness :
  exists k r,
    (k <= List.length (MThd ++ Go.be32 6 ++ Go.be16 1))%nat /\
    ContextReader_Reads [4; 4; 0; 6]%nat (ContextReader_New (MThd ++ Go.be32 6 ++ Go.be16 1))
    = (firstn k (MThd ++ Go.be32 6 ++ Go.be16 1), r) /\
    ctx_underlying r = skipn k (MThd ++ Go.be32 6 ++ Go.be16 1) /\
    ctx_totalBytesRead r = Z.of_nat k /\
    Go.elems (ctx_lastBytesRead r)
    = last_bytes numberOfContextBytes (firstn k (MThd ++ Go.be32 6 ++ Go.be16 1)) /\
    ContextReader_WrapError r EOF
    = WrapError (MThd ++ Go.be32 6 ++ Go.be16 1) (ctx_underlying r) EOF.
Proof.
  apply (ContextReader_Reads_context [4; 4; 0; 6]%nat (MThd ++ Go.be32 6 ++ Go.be16 1) EOF).
  cbn. lia.
Defined.

(* ===================================================================== *)
(** ** The event parser on arbitrary bytes *)
(* ===================================================================== *)

(** One step of the state machine, by cases on the state and on every
    test it makes. *)
Ltac step_cases :=
  lazy beta iota zeta delta
    [feedByteInternal feedMIDIDataByte flushSysexEvent
     set_state set_bytesFed set_runningStatus set_eventData set_metaEventType
     set_metaLength set_currentSysexType set_sysexLength set_sysexData push_event
     state bytesFed runningStatus eventData metaEventType metaLength
     currentSysexType sysexLength sysexData events];
  repeat match goal with
         | |- context [match midiEventSpecs ?n with _ => _ end] =>
             destruct (midiEventSpecs n) eqn:?
         | |- context [if ?c then _ else _] => destruct c eqn:?
         end.

Lemma feedByteInternal_bytesFed (p : eventDataParser) (b : Z) :
  bytesFed (fst (feedByteInternal p b)) = bytesFed p.
Proof.
  destruct p as [st bf rs ed mt ml cst sl sd evs].
  destruct st; step_cases; reflexivity.
Qed.

Lemma feedByte_bytesFed (p : eventDataParser) (b : Z) :
  match feedByte p b with
  | (p', Ok _) => bytesFed p' = next (bytesFed p)
  | (p', Err e) => exists e0, e = AfterEventBytes (bytesFed p) e0
  end.
Proof.
  unfold feedByte. pose proof (feedByteInternal_bytesFed p b) as H.
  destruct (feedByteInternal p b) as [p' [done|e]]; cbn [fst] in H.
  - destruct p'. cbn in *. now rewrite H.
  - exists e. now rewrite H.
Qed.

(** X12.  [feed] counts the bytes it has taken in [bytesFed]: after a
    successful call the count has gone up by the length of the data, and
    the error of a failed call names the count at the byte that was
    refused, which lies inside the data. *)
Theorem feed_counts_bytes (p : eventDataParser) (bs : list Z) :
  match feed p bs with
  | (p', None) => bytesFed p' = fed (List.length bs) (bytesFed p)
  | (p', Some e) =>
      exists k e0, (k < List.length bs)%nat /\
                   e = AfterEventBytes (fed k (bytesFed p)) e0
  end.
Proof.
  revert p. induction bs as [|b bs IH]; intros p; cbn [feed].
  - reflexivity.
  - pose proof (feedByte_bytesFed p b) as H.
    destruct (feedByte p b) as [p1 [done|e]].
    + specialize (IH p1). destruct (feed p1 bs) as [p' [e|]].
      * destruct IH as (k & e0 & Hk & ->). exists (S k), e0.
        split; [cbn [List.length]; lia|]. rewrite H, fed_next. reflexivity.
      * rewrite IH, H, fed_next. reflexivity.
    + destruct H as [e0 ->]. exists 0%nat, e0.
      split; [cbn [List.length]; lia|reflexivity].
Qed.

Lemma feedByteInternal_idle (p : eventDataParser) (b : Z) :
  sysex_idle p ->
  match feedByteInternal p b with
  | (p', Ok _) => sysex_idle p'
  | (_, Err _) => True
  end.
Proof.
  destruct p as [st bf rs ed mt ml cst sl sd evs].
  unfold sysex_idle. cbn [state currentSysexType sysexData].
  destruct st; intros H; step_cases;
    cbn [state currentSysexType sysexData eventData Go.len];
    repeat split; try exact I; try tauto.
Qed.

Lemma feedByteInternal_events (p : eventDataParser) (b : Z) :
  match feedByteInternal p b with
  | (p', Ok true) =>
      exists e, events p' = events p ++ [e] /\ emitted e /\
                state p' = wantEvent /\
                (kind e <> sysexEvent -> eventData p' = None) /\
                kind e <> timeDeltaEvent
  | (p', Ok false) => events p' = events p
  | (_, Err _) => True
  end.
Proof.
  destruct p as [st bf rs ed mt ml cst sl sd evs].
  destruct st; step_cases; cbn [events state eventData]; try reflexivity; try exact I;
    eexists; (split; [reflexivity|]); unfold emitted; cbn [kind typeByte data];
    repeat split; try exact I; try congruence.
  eexists. split; [eassumption|]. now apply Z.eqb_eq.
Qed.

Lemma feedByte_events (p : eventDataParser) (b : Z) :
  sysex_idle p ->
  match feedByte p b with
  | (p', Ok true) =>
      exists e, events p' = events p ++ [e] /\ emitted e /\
                state p' = wantEvent /\ sysex_idle p' /\
                (kind e <> sysexEvent -> eventData p' = None) /\
                kind e <> timeDeltaEvent
  | (p', Ok false) => events p' = events p /\ sysex_idle p'
  | (_, Err _) => True
  end.
Proof.
  intros H. unfold feedByte.
  pose proof (feedByteInternal_idle p b H) as Hi.
  pose proof (feedByteInternal_events p b) as He.
  destruct (feedByteInternal p b) as [p' [done|e]]; [|exact I].
  destruct p'. destruct done.
  - destruct He as (e & H1 & H2 & H3 & H4 & H5). exists e. repeat split; assumption.
  - split; assumption.
Qed.

Lemma readSingleEvent_loop_events (s : list Z) :
  forall p began p' rest,
    sysex_idle p ->
    readSingleEvent_loop p began s = ((p', Ok tt), rest) ->
    exists e, events p' = events p ++ [e] /\ emitted e /\
              state p' = wantEvent /\ sysex_idle p' /\
              (kind e <> sysexEvent -> eventData p' = None) /\
              kind e <> timeDeltaEvent.
Proof.
  induction s as [|b s IH]; intros p began p' rest Hp H; cbn [readSingleEvent_loop] in H.
  - discriminate.
  - pose proof (feedByte_events p b Hp) as Hb.
    destruct (feedByte p b) as [p1 [done|e]]; [|discriminate].
    destruct done.
    + inversion H; subst. exact Hb.
    + destruct Hb as [He Hi].
      destruct (IH p1 true p' rest Hi H) as (e & H1 & H2). exists e.
      rewrite <- He. split; assumption.
Qed.

(** X13.  [readSingleEvent], when it succeeds, has appended exactly one
    raw event, of the form the parser emits and not a time delta, and
    leaves the parser waiting for an event, outside any SysEx.  Unless
    the event is a SysEx event (which the parser also takes between the
    data bytes of a channel message), no partial payload is left and
    [finish] accepts the parser. *)
Theorem readSingleEvent_one_event (p p' : eventDataParser) (s rest : list Z) :
  sysex_idle p ->
  readSingleEvent p s = ((p', Ok tt), rest) ->
  exists e,
    events p' = events p ++ [e] /\ emitted e /\ kind e <> timeDeltaEvent /\
    state p' = wantEvent /\ sysex_idle p' /\
    (kind e <> sysexEvent -> finish p' = None).
Proof.
  intros Hp H.
  destruct (readSingleEvent_loop_events s p false p' rest Hp H)
    as (e & H1 & H2 & H3 & H4 & H5 & H6).
  exists e. split; [exact H1|]. split; [exact H2|]. split; [exact H6|].
  split; [exact H3|]. split; [exact H4|].
  intros Hk. specialize (H5 Hk).
  unfold finish, sysex_idle in *. rewrite H3 in *. destruct H4 as [-> Hl].
  rewrite H5, Hl. reflexivity.
Qed.

Lemma readSingleEvent_one_event_witness :
  exists e,
    events (fst (fst (readSingleEvent newParser [0x90; 0x3C; 0x7F; 0x00])))
    = events newParser ++ [e] /\ emitted e /\ kind e <> timeDeltaEvent /\
    state (fst (fst (readSingleEvent newParser [0x90; 0x3C; 0x7F; 0x00]))) = wantEvent /\
    sysex_idle (fst (fst (readSingleEvent newParser [0x90; 0x3C; 0x7F; 0x00]))) /\
    (kind e <> sysexEvent ->
     finish (fst (fst (readSingleEvent newParser [0x90; 0x3C; 0x7F; 0x00]))) = None).
Proof.
  apply (readSingleEvent_one_event newParser _ [0x90; 0x3C; 0x7F; 0x00] [0x00]).
  - cbn. split; reflexivity.
  - reflexivity.
Defined.

(** A SysEx event between the data bytes of a channel message is read as
    an event of its own; the data byte stays in the parser, which
    [finish] then refuses. *)
Example readSingleEvent_sysex_inside_message :
  let p := fst (fst (readSingleEvent newParser [0x90; 0x3C; 0xF7; 0x01; 0x00])) in
  events p = [mkEvent sysexEvent 0xF7 (Some [0x00]) 0] /\
  finish p = Some (UnflushedEventData [0x3C]).
Proof. cbv zeta. split; reflexivity. Qed.

Ltac same_count :=
  match goal with
  | |- (_, (?a, _)) = (_, (?b, _)) => replace a with b by lia; reflexivity
  end.

Lemma feedSingleEvent_loop_readSingleEvent_loop (data : list Z) :
  forall p c began,
    0 <= c -> c + Z.of_nat (List.length data) < 2 ^ 63 ->
    feedSingleEvent_loop p c data
    = match readSingleEvent_loop p began data with
      | ((p', Ok _), rest) =>
          (p', (c + Z.of_nat (List.length data - List.length rest), None))
      | ((p', Err (AfterEventBytes n e)), rest) =>
          (p', (c + Z.of_nat (List.length data - List.length rest),
                Some (AfterEventBytes n e)))
      | ((p', Err _), _) => (p', (c + Z.of_nat (List.length data), None))
      end.
Proof.
  induction data as [|b data IH]; intros p c began Hc Hlen;
    cbn [feedSingleEvent_loop readSingleEvent_loop].
  - destruct began; cbn [List.length]; rewrite Z.add_0_r; reflexivity.
  - cbn [List.length] in Hlen.
    rewrite int_small by lia.
    pose proof (feedByte_bytesFed p b) as Hb.
    destruct (feedByte p b) as [p1 [done|e]].
    + destruct done.
      * cbn [List.length]. rewrite Nat.sub_succ_l, Nat.sub_diag by lia.
        reflexivity.
      * rewrite (IH p1 (c + 1) true) by lia.
        destruct (readSingleEvent_loop p1 true data) as [[p2 [u|e]] rest] eqn:E.
        -- apply readSingleEvent_loop_consumes in E.
           cbn [List.length]. rewrite Nat.sub_succ_l by lia.
           same_count.
        -- apply readSingleEvent_loop_consumes in E.
           destruct e; cbn [List.length]; rewrite ?Nat.sub_succ_l by lia;
             same_count.
    + destruct Hb as [e0 ->].
      cbn [List.length]. rewrite Nat.sub_succ_l, Nat.sub_diag by lia. reflexivity.
Qed.

(** X14.  [feedSingleEvent] on a slice and [readSingleEvent] on a reader
    over the same bytes leave the same parser, and the count of consumed
    bytes is what the reader has taken, both when an event is complete
    and when a byte is refused.  They differ when the bytes end inside an
    event: the reader fails with an end-of-file error, while
    [feedSingleEvent] returns the length of the slice and no error. *)
Theorem feedSingleEvent_readSingleEvent (p : eventDataParser) (data : list Z) :
  Z.of_nat (List.length data) < 2 ^ 63 ->
  feedSingleEvent p data
  = match readSingleEvent p data with
    | ((p', Ok _), rest) =>
        (p', (Z.of_nat (List.length data - List.length rest), None))
    | ((p', Err (AfterEventBytes n e)), rest) =>
        (p', (Z.of_nat (List.length data - List.length rest),
              Some (AfterEventBytes n e)))
    | ((p', Err _), _) => (p', (Z.of_nat (List.length data), None))
    end.
Proof.
  intros H. unfold feedSingleEvent, readSingleEvent.
  rewrite (feedSingleEvent_loop_readSingleEvent_loop data p 0 false) by lia.
  destruct (readSingleEvent_loop p false data) as [[p' [u|e]] rest];
    [reflexivity|]. destruct e; reflexivity.
Qed.

Lemma feedSingleEvent_readSingleEvent_witness :
  feedSingleEvent newParser [0x90; 0x3C]
  = match readSingleEvent newParser [0x90; 0x3C] with
    | ((p', Ok _), rest) =>
        (p', (Z.of_nat (List.length [0x90; 0x3C] - List.length rest), None))
    | ((p', Err (AfterEventBytes n e)), rest) =>
        (p', (Z.of_nat (List.length [0x90; 0x3C] - List.length rest),
              Some (AfterEventBytes n e)))
    | ((p', Err _), _) => (p', (Z.of_nat (List.length [0x90; 0x3C]), None))
    end.
Proof. apply (feedSingleEvent_readSingleEvent newParser [0x90; 0x3C]). cbn. lia. Defined.

Lemma land_high_nibble (t : Z) :
  Z.land 0xf0 t = 16 * Z.shiftr (Z.land t 0xf0) 4.
Proof.
  rewrite Z.land_comm.
  replace (16 * Z.shiftr (Z.land t 0xf0) 4) with (Z.shiftl (Z.shiftr (Z.land t 0xf0) 4) 4)
    by (rewrite Z.shiftl_mul_pow2 by lia; change (2 ^ 4) with 16; lia).
  apply Z.bits_inj'. intros i Hi.
  destruct (Z.ltb_spec i 4).
  - rewrite Z.shiftl_spec_low by lia. rewrite Z.land_spec.
    replace (Z.testbit 240 i) with false; [apply andb_false_r|].
    assert (i = 0 \/ i = 1 \/ i = 2 \/ i = 3) as [->|[->|[->| ->]]] by lia; reflexivity.
  - rewrite Z.shiftl_spec, Z.shiftr_spec by lia.
    now replace (i - 4 + 4) with i by lia.
Qed.

Lemma midiEventSpecs_Some (n : Z) (spec : midiEventSpec) :
  midiEventSpecs n = Some spec ->
  (n = 8 \/ n = 9 \/ n = 10 \/ n = 11 \/ n = 14) /\ dataLen spec = 2 \/
  (n = 12 \/ n = 13) /\ dataLen spec = 1.
Proof.
  intros H. destruct n as [|q|q]; try discriminate.
  do 4 (try (destruct q as [q|q|]; try discriminate)); inversion H; cbn; lia.
Qed.

Lemma presentEvent_emitted (e : event) :
  emitted e -> exists E, presentEvent e = Ok E.
Proof.
  destruct e as [k t d td]. unfold emitted, presentEvent. cbn [kind typeByte data].
  destruct k; try (intros _; eexists; reflexivity).
  intros (spec & Hs & Hl).
  cbn [Type_ RawData]. unfold expectLen. cbn [RawData Type_].
  rewrite land_high_nibble, Hl.
  apply midiEventSpecs_Some in Hs.
  destruct Hs as [[Hn ->]|[Hn ->]];
    [destruct Hn as [->|[->|[->|[->| ->]]]]|destruct Hn as [->| ->]];
    cbn; eexists; reflexivity.
Qed.

Lemma presentEvents_emitted (raws : list event) :
  Forall emitted raws ->
  exists evts, presentEvents raws [] = Ok evts /\ List.length evts = List.length raws.
Proof.
  induction 1 as [|e raws He _ IH].
  - exists []. split; reflexivity.
  - destruct (presentEvent_emitted e He) as [E HE].
    destruct IH as (evts & Hp & Hl).
    exists (E :: evts). cbn [presentEvents]. rewrite HE, presentEvents_acc, Hp.
    split; [reflexivity|]. cbn [List.length]. now rewrite Hl.
Qed.

Lemma readVarint_loop_error (s : list Z) :
  forall rv e rest, readVarint_loop rv s = (Err e, rest) -> rest = [].
Proof.
  induction s as [|b s IH]; intros rv e rest H; cbn [readVarint_loop] in H.
  - now inversion H.
  - destruct (Z.land b 128 =? 0); [discriminate|]. eapply IH, H.
Qed.

Lemma parseTrackBody_loop_emitted (p : eventDataParser) (s : list Z) :
  forall raws rest,
    sysex_idle p -> Forall emitted (events p) ->
    parseTrackBody_loop p s = (Ok raws, rest) ->
    rest = [] /\ Forall emitted raws.
Proof.
  funelim (parseTrackBody_loop p s); intros raws rest Hi He Hr.
  - destruct (is_EOF e); [|discriminate]. inversion Hr; subst.
    match goal with E : readVarint _ = _ |- _ =>
      pose proof (readVarint_loop_error _ _ _ _ E) end.
    split; assumption.
  - match goal with E : readSingleEvent _ _ = _ |- _ => pose proof E as Hread end.
    match goal with u : unit |- _ => destruct u end.
    assert (Hi' : sysex_idle (if td >? 0 then addTimeDelta td p else p))
      by (destruct (td >? 0); [destruct p|]; exact Hi).
    assert (He' : Forall emitted (events (if td >? 0 then addTimeDelta td p else p))).
    { destruct (td >? 0); [|exact He]. unfold addTimeDelta, push_event. cbn [events].
      apply Forall_app. split; [exact He|]. constructor; [exact I|constructor]. }
    destruct (readSingleEvent_loop_events _ _ _ _ _ Hi' Hread)
      as (ev & E1 & E2 & _ & E4 & _ & _).
    eapply H; [exact E4| |exact Hr].
    rewrite E1. apply Forall_app. split; [exact He'|]. constructor; [exact E2|constructor].
  - discriminate.
Qed.

(** X15.  [parseTrackBody], when it succeeds, has read its reader to the
    end, and every raw event it returns has the form the parser emits;
    so [presentEvent] fails on none of them, and the loop of [parseTrack]
    presents as many events as were parsed. *)
Theorem parseTrackBody_presentable (s : list Z) (raws : list event) (rest : list Z) :
  parseTrackBody s = (Ok raws, rest) ->
  rest = [] /\ Forall emitted raws /\
  exists evts, presentEvents raws [] = Ok evts /\ List.length evts = List.length raws.
Proof.
  intros H. unfold parseTrackBody in H.
  apply parseTrackBody_loop_emitted in H.
  - destruct H as [-> He]. split; [reflexivity|]. split; [exact He|].
    now apply presentEvents_emitted.
  - cbn. split; reflexivity.
  - constructor.
Qed.

Lemma parseTrackBody_presentable_witness :
  @nil Z = [] /\
  Forall emitted [mkEvent timeDeltaEvent 0 None 10; mkEvent midiEvent 0x90 (Some [0x3C; 0x7F]) 0] /\
  exists evts,
    presentEvents [mkEvent timeDeltaEvent 0 None 10;
                   mkEvent midiEvent 0x90 (Some [0x3C; 0x7F]) 0] [] = Ok evts /\
    List.length evts
    = List.length [mkEvent timeDeltaEvent 0 None 10;
                   mkEvent midiEvent 0x90 (Some [0x3C; 0x7F]) 0].
Proof.
  apply (parseTrackBody_presentable [0x0a; 0x90; 0x3C; 0x7F]). reflexivity.
Defined.

(* ===================================================================== *)
(** ** Encoding presented events *)
(* ===================================================================== *)

Lemma status_byte_split (s : Z) :
  status_byte s ->
  Z.lor (Go.byte (Z.land 0xf0 s)) (Go.byte (Z.land 0x0f s)) = s /\
  (Z.land 0xf0 s = NoteOn ->
   Z.lor (Go.byte NoteOff) (Go.byte (Z.land 0x0f s)) = s - 0x10).
Proof.
  unfold status_byte. intros Hs.
  pose proof (forall_byte
    (fun s => (Z.lor (Go.byte (Z.land 0xf0 s)) (Go.byte (Z.land 0x0f s)) =? s)
              && (negb (Z.land 0xf0 s =? NoteOn)
                  || (Z.lor (Go.byte NoteOff) (Go.byte (Z.land 0x0f s)) =? s - 0x10)))
    eq_refl s ltac:(lia)) as H.
  cbn beta in H. apply andb_true_iff in H. destruct H as [H1 H2].
  split; [now apply Z.eqb_eq|].
  intros Hn. rewrite Hn, Z.eqb_refl in H2. cbn [negb orb] in H2. now apply Z.eqb_eq.
Qed.

(** X16.  A channel message that was read from a track is encoded from
    its presented form as the status byte and the data bytes it was read
    from, with one exception: the NoteOn of velocity 0, presented as a
    NoteOff, is encoded with the NoteOff status of its channel (the status
    byte less [0x10]) in front of the same data bytes, the velocity byte
    0 among them. *)
Theorem presentEvent_reencoded (s : Z) (payload : list Z) (td : Z) (m : MIDIEvent) :
  status_byte s ->
  Z.of_nat (List.length payload) = payload_len s ->
  presentEvent (mkEvent midiEvent s (Some payload) td) = Ok (MIDI m) ->
  MIDIEvent_EncodeMIDI m
  = Ok ((if (Z.land 0xf0 s =? NoteOn) && (nth 1 payload 0 =? 0)
         then s - 0x10 else s) :: payload).
Proof.
  intros Hs Hl Hp.
  destruct (presentEvent_midi s payload td Hs Hl) as (m0 & Hm0 & _ & Hc & Hr & Ht).
  rewrite Hp in Hm0. inversion Hm0; subst m0. clear Hm0.
  destruct (status_byte_split s Hs) as [H1 H2].
  unfold MIDIEvent_EncodeMIDI. rewrite Hr, Hc, Ht.
  destruct (Z.eqb_spec (Z.land 0xf0 s) NoteOn) as [Hn|Hn]; cbn [andb].
  - destruct (nth 1 payload 0 =? 0).
    + now rewrite (H2 Hn).
    + now rewrite H1.
  - now rewrite H1.
Qed.

Lemma presentEvent_reencoded_witness :
  MIDIEvent_EncodeMIDI (mkMIDI NoteOff 0x93 3 0x3C 0x40 0 0 0 (Some [0x3C; 0x00]))
  = Ok ((if (Z.land 0xf0 0x93 =? NoteOn) && (nth 1 [0x3C; 0x00] 0 =? 0)
         then 0x93 - 0x10 else 0x93) :: [0x3C; 0x00]).
Proof.
  apply (presentEvent_reencoded 0x93 [0x3C; 0x00] 0).
  - unfold status_byte. lia.
  - reflexivity.
  - reflexivity.
Defined.

(* ===================================================================== *)
(** ** Which event lists are encoded *)
(* ===================================================================== *)

Lemma encodeEvents_loop_ok (evts : list Event) :
  forall i delay rv,
    forallb (fun e => is_ok (EncodeMIDI e)) evts = true ->
    exists body, encodeEvents_loop i delay rv evts = Ok body.
Proof.
  induction evts as [|e evts IH]; intros i delay rv H; cbn [encodeEvents_loop].
  - eauto.
  - cbn [forallb] in H. apply andb_true_iff in H. destruct H as [He Hr].
    destruct e; try apply IH; try exact Hr;
      destruct (EncodeMIDI _) eqn:E; try discriminate; apply IH, Hr.
Qed.

Lemma encodeEvents_loop_error (pre : list Event) :
  forall i delay rv e post err,
    forallb (fun e => is_ok (EncodeMIDI e)) pre = true ->
    EncodeMIDI e = Err err ->
    encodeEvents_loop i delay rv (pre ++ e :: post)
    = Err (EncodeEventError (i + Z.of_nat (List.length pre)) err).
Proof.
  induction pre as [|x pre IH]; intros i delay rv e post err H He;
    cbn [encodeEvents_loop app].
  - destruct e; try discriminate; rewrite He; cbn [List.length];
      rewrite Z.add_0_r; reflexivity.
  - cbn [forallb] in H. apply andb_true_iff in H. destruct H as [Hx Hr].
    replace (i + Z.of_nat (List.length (x :: pre)))
      with (i + 1 + Z.of_nat (List.length pre)) by (cbn [List.length]; lia).
    destruct x; try (apply IH; assumption);
      destruct (EncodeMIDI _) eqn:E; try discriminate; apply IH; assumption.
Qed.

(** X17.  [encodeEvents] succeeds when [EncodeMIDI] succeeds on every
    event of the list; otherwise it fails with the error of the first
    event that is not encoded, under the index of that event in the list. *)
Theorem encodeEvents_first_error (pre post : list Event) (e : Event) (err : error) :
  forallb (fun e => is_ok (EncodeMIDI e)) pre = true ->
  (exists body, encodeEvents pre = Ok body) /\
  (EncodeMIDI e = Err err ->
   encodeEvents (pre ++ e :: post)
   = Err (EncodeEventError (Z.of_nat (List.length pre)) err)).
Proof.
  intros H. unfold encodeEvents. split.
  - now apply encodeEvents_loop_ok.
  - intros He. now rewrite (encodeEvents_loop_error pre 0 0 [] e post err H He).
Qed.

Lemma encodeEvents_first_error_witness :
  (exists body, encodeEvents [TimeDeltaEvent 5; plain_note NoteOn 60 100] = Ok body) /\
  (EncodeMIDI (SysexEvent []) = Err EmptySysex ->
   encodeEvents ([TimeDeltaEvent 5; plain_note NoteOn 60 100] ++ SysexEvent [] :: [])
   = Err (EncodeEventError
            (Z.of_nat (List.length [TimeDeltaEvent 5; plain_note NoteOn 60 100]))
            EmptySysex)).
Proof.
  apply (encodeEvents_first_error [TimeDeltaEvent 5; plain_note NoteOn 60 100] []
           (SysexEvent []) EmptySysex).
  reflexivity.
Defined.

(* ===================================================================== *)
(** ** Headers, track chunks and files, written and read back *)
(* ===================================================================== *)

Lemma int16_uint16 (d : Z) :
  - 2 ^ 15 <= d < 2 ^ 15 -> Go.int16 (Go.uint16 d) = d.
Proof.
  intros H. unfold Go.int16, Go.uint16.
  change (2 ^ 16) with 65536. change (2 ^ 15) with 32768 in *.
  Z.div_mod_to_equations. lia.
Qed.

Lemma uint16_range (d : Z) : 0 <= Go.uint16 d < 2 ^ 16.
Proof. unfold Go.uint16. apply Z.mod_pos_bound. lia. Qed.

Lemma parseHeader_bytes (h : Header) (out rest : list Z) :
  header_in_range h ->
  Header_encode h = Ok out ->
  parseHeader (out ++ rest) = (Ok h, rest).
Proof.
  intros (Hf & Hn & Hd) Ho.
  assert (E : out = MThd ++ Go.be32 6 ++ Go.be16 (Format h)
                      ++ Go.be16 (NumberOfTracks h) ++ Go.be16 (Go.uint16 (Division h)))
    by (unfold Header_encode in Ho; congruence).
  subst out. clear Ho.
  unfold parseHeader. rewrite <- app_assoc, readLiteralExpecting_literal.
  rewrite <- app_assoc.
  rewrite (parseSizedChunk_be32 6
             (Go.be16 (Format h) ++ Go.be16 (NumberOfTracks h)
                ++ Go.be16 (Go.uint16 (Division h))) rest)
    by (reflexivity || lia).
  unfold Go.be16, ReadFull.
  cbn [app List.length Nat.leb firstn skipn].
  rewrite !of_be16_be16 by (try apply uint16_range; assumption).
  rewrite int16_uint16 by assumption.
  destruct h; reflexivity.
Qed.

(** X18.  A header whose fields hold values of their types is read back
    by [parseHeader] from the 14 bytes [Header.encode] writes, and what
    follows them is left. *)
Theorem parseHeader_Header_encode (h : Header) (rest : list Z) :
  header_in_range h ->
  exists out,
    Header_encode h = Ok out /\ List.length out = 14%nat /\
    parseHeader (out ++ rest) = (Ok h, rest).
Proof.
  intros Hr. eexists. split; [reflexivity|]. split; [reflexivity|].
  now apply parseHeader_bytes.
Qed.

Lemma parseHeader_Header_encode_witness :
  exists out,
    Header_encode (mkHeader 1 2 0xC0) = Ok out /\ List.length out = 14%nat /\
    parseHeader (out ++ MTrk) = (Ok (mkHeader 1 2 0xC0), MTrk).
Proof.
  apply (parseHeader_Header_encode (mkHeader 1 2 0xC0) MTrk).
  unfold header_in_range. cbn. lia.
Defined.

Lemma uint32_small (n : Z) : 0 <= n < 2 ^ 32 -> Go.uint32 n = n.
Proof. intros H. unfold Go.uint32. apply Z.mod_small. exact H. Qed.

Lemma limitreader_body {A} (m : Reader A) (body rest : list Z) (a : A) :
  m body = (Ok a, []) ->
  limitreader (List.length body) m (body ++ rest) = (Ok a, rest).
Proof.
  intros H. unfold limitreader.
  rewrite firstn_app, Nat.sub_diag, firstn_all, firstn_O, app_nil_r, H.
  rewrite skipn_app, Nat.sub_diag, skipn_all, skipn_O. reflexivity.
Qed.

Lemma parseTrack_chunk (evts : list Event) (body rest : list Z) :
  forallb wire_event evts = true ->
  encodeEvents evts = Ok body ->
  Z.of_nat (List.length body) < 2 ^ 32 ->
  Track_encode (mkTrack evts)
  = Ok (MTrk ++ Go.be32 (Z.of_nat (List.length body)) ++ body) /\
  parseTrack ((MTrk ++ Go.be32 (Z.of_nat (List.length body)) ++ body) ++ rest)
  = (MidiTrack (mkTrack (wire_form 0 evts)), rest).
Proof.
  intros Hw He Hl. split.
  - unfold Track_encode. cbn [Events]. rewrite He, uint32_small by lia. reflexivity.
  - destruct (roundtrip_loop evts 0 0 newParser Hw ltac:(split; reflexivity) ltac:(lia))
      as (body' & raws & Hb & Hparse & Hpres).
    change (Go.uint64 0) with 0 in Hb. unfold encodeEvents in He.
    rewrite He in Hb. inversion Hb; subst body'. clear Hb.
    cbn [events newParser app] in Hparse.
    unfold parseTrack.
    rewrite <- !app_assoc, readLiteralExpecting_literal.
    rewrite readUint32_be32 by lia.
    rewrite Nat2Z.id, (limitreader_body parseTrackBody body rest raws Hparse).
    rewrite Hpres. reflexivity.
Qed.

(** X19.  A track whose events are in wire form, with an encoded body
    shorter than 2^32 bytes, is written by [Track.encode] as the tag
    [MTrk], the length of the body and the body; [parseTrack] reads the
    chunk back as a MIDI track with the events in their merged form, and
    leaves what follows the chunk. *)
Theorem parseTrack_Track_encode (evts : list Event) (body rest : list Z) :
  forallb wire_event evts = true ->
  encodeEvents evts = Ok body ->
  Z.of_nat (List.length body) < 2 ^ 32 ->
  Track_encode (mkTrack evts)
  = Ok (MTrk ++ Go.be32 (Z.of_nat (List.length body)) ++ body) /\
  parseTrack ((MTrk ++ Go.be32 (Z.of_nat (List.length body)) ++ body) ++ rest)
  = (MidiTrack (mkTrack (wire_form 0 evts)), rest).
Proof. apply parseTrack_chunk. Qed.

Lemma parseTrack_Track_encode_witness :
  Track_encode (mkTrack sample_track)
  = Ok (MTrk ++ Go.be32 (Z.of_nat (List.length
          [10; 255; 81; 3; 5; 227; 139; 0; 147; 60; 100; 129; 72; 195; 5; 0; 240; 3; 1;
           2; 247; 0; 255; 47; 0]%Z))
        ++ [10; 255; 81; 3; 5; 227; 139; 0; 147; 60; 100; 129; 72; 195; 5; 0; 240; 3; 1;
            2; 247; 0; 255; 47; 0]) /\
  parseTrack ((MTrk ++ Go.be32 (Z.of_nat (List.length
          [10; 255; 81; 3; 5; 227; 139; 0; 147; 60; 100; 129; 72; 195; 5; 0; 240; 3; 1;
           2; 247; 0; 255; 47; 0]%Z))
        ++ [10; 255; 81; 3; 5; 227; 139; 0; 147; 60; 100; 129; 72; 195; 5; 0; 240; 3; 1;
            2; 247; 0; 255; 47; 0]) ++ MThd)
  = (MidiTrack (mkTrack (wire_form 0 sample_track)), MThd).
Proof.
  apply (parseTrack_Track_encode sample_track
           [10; 255; 81; 3; 5; 227; 139; 0; 147; 60; 100; 129; 72; 195; 5; 0; 240; 3; 1;
            2; 247; 0; 255; 47; 0] MThd).
  - reflexivity.
  - reflexivity.
  - vm_compute. reflexivity.
Defined.

Lemma wire_track_chunk (t : Track) :
  wire_track t = true ->
  Track_encode t = Ok (track_bytes t) /\
  forall rest, parseTrack (track_bytes t ++ rest) = (MidiTrack (read_back t), rest).
Proof.
  unfold wire_track. intros H. apply andb_true_iff in H. destruct H as [Hw Hb].
  destruct (encodeEvents (Events t)) as [body|e] eqn:He; [|discriminate].
  apply Z.ltb_lt in Hb. destruct t as [evts]. cbn [Events] in *.
  destruct (parseTrack_chunk evts body [] Hw He Hb) as [Henc _].
  unfold track_bytes, read_back. rewrite Henc. split; [reflexivity|].
  intros rest. cbn [Events]. now apply parseTrack_chunk.
Qed.

Lemma File_encode_tracks_wire (trks : list Track) :
  forall i buf,
    forallb wire_track trks = true ->
    File_encode_tracks i buf trks = Ok (buf ++ List.concat (map track_bytes trks)).
Proof.
  induction trks as [|t trks IH]; intros i buf H; cbn [File_encode_tracks map List.concat].
  - now rewrite app_nil_r.
  - cbn [forallb] in H. apply andb_true_iff in H. destruct H as [Ht Hr].
    destruct (wire_track_chunk t Ht) as [-> _].
    rewrite IH by exact Hr. now rewrite <- app_assoc.
Qed.

Lemma parse_loop_chunks (strict : bool) (trks : list Track) :
  forall m i st rest,
    forallb wire_track trks = true ->
    parse_loop strict (List.length trks + m) i st (List.concat (map track_bytes trks) ++ rest)
    = parse_loop strict m (i + Z.of_nat (List.length trks))
        (mkParseState (rv_Tracks st ++ map read_back trks)
           (sawMidiTrack st || negb (Nat.eqb (List.length trks) 0))
           (sawNonMidiTrack st)) rest.
Proof.
  induction trks as [|t trks IH]; intros m i st rest H.
  - cbn [List.length Nat.add map List.concat app Nat.eqb negb].
    rewrite app_nil_r, orb_false_r, Z.add_0_r. destruct st; reflexivity.
  - cbn [forallb] in H. apply andb_true_iff in H. destruct H as [Ht Hr].
    destruct (wire_track_chunk t Ht) as [_ Hp].
    cbn [List.length Nat.add map List.concat parse_loop].
    rewrite <- app_assoc, Hp, IH by exact Hr.
    cbn [rv_Tracks sawMidiTrack sawNonMidiTrack Nat.eqb negb].
    rewrite orb_true_r, <- app_assoc. cbn [app].
    replace (i + 1 + Z.of_nat (List.length trks))
      with (i + Z.of_nat (S (List.length trks))) by lia.
    reflexivity.
Qed.

Lemma parse_loop_exhausted (m : nat) :
  forall i st,
    exists st',
      parse_loop false m i st [] = (Ok st', []) /\
      rv_Tracks st' = rv_Tracks st /\ sawMidiTrack st' = sawMidiTrack st.
Proof.
  induction m as [|m IH]; intros i st; cbn [parse_loop].
  - exists st. repeat split.
  - change (parseTrack []) with (NotMidiTrack EOF, @nil Z).
    cbv iota beta.
    destruct (IH (i + 1)
                (mkParseState (rv_Tracks st) (sawMidiTrack st)
                   match sawNonMidiTrack st with
                   | Some e => Some e
                   | None => Some EOF
                   end)) as (st' & -> & H1 & H2).
    exists st'. repeat split; assumption.
Qed.

Lemma File_encode_bytes (f : File) :
  forallb wire_track (Tracks f) = true ->
  exists hdr,
    Header_encode (Header_ f) = Ok hdr /\
    File_encode f = Ok (hdr ++ List.concat (map track_bytes (Tracks f))).
Proof.
  intros H. unfold File_encode.
  destruct (Header_encode (Header_ f)) as [hdr|e] eqn:E; [|discriminate].
  exists hdr. split; [reflexivity|]. now apply File_encode_tracks_wire.
Qed.

(** X20.  A file is read back from what [File.encode] writes: when the
    header holds values of its types and the number of the tracks, there
    is a track, and every track is in wire form with a body shorter than
    2^32 bytes, [parse], strict or not, returns the header and every
    track with its events in their merged form, and leaves what follows
    the file; [Parse] returns the same. *)
Theorem parse_File_encode (strict : bool) (f : File) (rest : list Z) :
  header_in_range (Header_ f) ->
  NumberOfTracks (Header_ f) = Z.of_nat (List.length (Tracks f)) ->
  Tracks f <> [] ->
  forallb wire_track (Tracks f) = true ->
  exists bytes,
    File_encode f = Ok bytes /\
    parse strict (bytes ++ rest)
    = (Ok (mkFile (Header_ f) (map read_back (Tracks f))), rest) /\
    Parse bytes = Ok (mkFile (Header_ f) (map read_back (Tracks f))).
Proof.
  intros Hh Hn Hne Hw.
  destruct (File_encode_bytes f Hw) as (hdr & Hhdr & Henc).
  exists (hdr ++ List.concat (map track_bytes (Tracks f))). split; [exact Henc|].
  assert (Hparse : forall s r,
            parse s ((hdr ++ List.concat (map track_bytes (Tracks f))) ++ r)
            = (Ok (mkFile (Header_ f) (map read_back (Tracks f))), r)).
  { intros s r. unfold parse.
    rewrite <- app_assoc, (parseHeader_bytes _ _ _ Hh Hhdr).
    rewrite Hn, Nat2Z.id.
    rewrite <- (Nat.add_0_r (List.length (Tracks f))) at 1.
    rewrite parse_loop_chunks by exact Hw.
    cbn [parse_loop rv_Tracks sawMidiTrack sawNonMidiTrack app orb].
    destruct (Tracks f) as [|t trks]; [congruence|]. reflexivity. }
  split; [apply Hparse|].
  unfold Parse. rewrite <- (app_nil_r (hdr ++ _)), Hparse. reflexivity.
Qed.

Lemma parse_File_encode_witness :
  exists bytes,
    File_encode (mkFile (mkHeader 0 1 0xC0) [mkTrack sample_track]) = Ok bytes /\
    parse true (bytes ++ [])
    = (Ok (mkFile (Header_ (mkFile (mkHeader 0 1 0xC0) [mkTrack sample_track]))
             (map read_back (Tracks (mkFile (mkHeader 0 1 0xC0) [mkTrack sample_track])))),
       []) /\
    Parse bytes
    = Ok (mkFile (Header_ (mkFile (mkHeader 0 1 0xC0) [mkTrack sample_track]))
            (map read_back (Tracks (mkFile (mkHeader 0 1 0xC0) [mkTrack sample_track])))).
Proof.
  apply (parse_File_encode true (mkFile (mkHeader 0 1 0xC0) [mkTrack sample_track]) []).
  - unfold header_in_range. cbn. lia.
  - reflexivity.
  - discriminate.
  - vm_compute. reflexivity.
Defined.

(** X21.  A header may declare more tracks than the file holds: [Parse],
    which is not strict, takes every missing track for a chunk that is
    not a MIDI track and returns the tracks that are there, while the
    strict [parse] fails at the first missing track with the error for a
    non-MIDI track, on [io.EOF]. *)
Theorem Parse_declares_more_tracks (f : File) :
  header_in_range (Header_ f) ->
  Z.of_nat (List.length (Tracks f)) < NumberOfTracks (Header_ f) ->
  Tracks f <> [] ->
  forallb wire_track (Tracks f) = true ->
  exists bytes,
    File_encode f = Ok bytes /\
    Parse bytes = Ok (mkFile (Header_ f) (map read_back (Tracks f))) /\
    parse true bytes = (Err (UnknownChunk EOF), []).
Proof.
  intros Hh Hn Hne Hw.
  destruct (File_encode_bytes f Hw) as (hdr & Hhdr & Henc).
  exists (hdr ++ List.concat (map track_bytes (Tracks f))). split; [exact Henc|].
  assert (Hm : exists m, Z.to_nat (NumberOfTracks (Header_ f))
                         = (List.length (Tracks f) + S m)%nat).
  { exists (Z.to_nat (NumberOfTracks (Header_ f)) - List.length (Tracks f) - 1)%nat. lia. }
  destruct Hm as [m Hm].
  assert (Hloop : forall s,
            parse s (hdr ++ List.concat (map track_bytes (Tracks f)))
            = match parse_loop s (S m) (0 + Z.of_nat (List.length (Tracks f)))
                      (mkParseState (map read_back (Tracks f)) true None) [] with
              | (Err err, r2) => (Err err, r2)
              | (Ok st, r2) =>
                  if negb (sawMidiTrack st) then (Err (NoMidiTracks (sawNonMidiTrack st)), r2)
                  else (Ok (mkFile (Header_ f) (rv_Tracks st)), r2)
              end).
  { intros s. unfold parse. rewrite (parseHeader_bytes _ _ _ Hh Hhdr), Hm.
    rewrite <- (app_nil_r (List.concat _)).
    rewrite parse_loop_chunks by exact Hw.
    cbn [rv_Tracks sawMidiTrack sawNonMidiTrack app orb].
    destruct (Tracks f) as [|t trks]; [congruence|]. reflexivity. }
  split.
  - unfold Parse. rewrite Hloop.
    destruct (parse_loop_exhausted (S m) (0 + Z.of_nat (List.length (Tracks f)))
                (mkParseState (map read_back (Tracks f)) true None))
      as (st' & -> & H1 & H2).
    cbn [rv_Tracks sawMidiTrack] in H1, H2. rewrite H1, H2. reflexivity.
  - rewrite Hloop. reflexivity.
Qed.

Lemma Parse_declares_more_tracks_witness :
  exists bytes,
    File_encode (mkFile (mkHeader 1 3 0xC0) [mkTrack sample_track]) = Ok bytes /\
    Parse bytes
    = Ok (mkFile (Header_ (mkFile (mkHeader 1 3 0xC0) [mkTrack sample_track]))
            (map read_back (Tracks (mkFile (mkHeader 1 3 0xC0) [mkTrack sample_track])))) /\
    parse true bytes = (Err (UnknownChunk EOF), []).
Proof.
  apply (Parse_declares_more_tracks (mkFile (mkHeader 1 3 0xC0) [mkTrack sample_track])).
  - unfold header_in_range. cbn. lia.
  - cbn. lia.
  - discriminate.
  - vm_compute. reflexivity.
Defined.

(* ===================================================================== *)
(** ** What [parse] returns on arbitrary bytes *)
(* ===================================================================== *)

Lemma parse_loop_count (strict : bool) (n : nat) :
  forall i st r st' r',
    parse_loop strict n i st r = (Ok st', r') ->
    (List.length (rv_Tracks st) <= List.length (rv_Tracks st')
     <= List.length (rv_Tracks st) + n)%nat /\
    (strict = true ->
     List.length (rv_Tracks st') = (List.length (rv_Tracks st) + n)%nat).
Proof.
  induction n as [|n IH]; intros i st r st' r' H; cbn [parse_loop] in H.
  - inversion H; subst. split; [lia|]. intros _. lia.
  - destruct (parseTrack r) as [[err|err|trk] r1].
    + destruct strict; [discriminate|].
      apply IH in H. cbn [rv_Tracks] in H. split; [lia|discriminate].
    + discriminate.
    + apply IH in H. cbn [rv_Tracks] in H. rewrite length_app in H.
      cbn [List.length] in H. destruct H as [H1 H2]. split; [lia|].
      intros Hs. specialize (H2 Hs). lia.
Qed.

(** X22.  A file [parse] returns holds at least one track and at most as
    many as its header declares; a file the strict [parse] returns holds
    exactly as many. *)
Theorem parse_track_count (strict : bool) (r r' : list Z) (f : File) :
  parse strict r = (Ok f, r') ->
  1 <= Z.of_nat (List.length (Tracks f)) <= NumberOfTracks (Header_ f) /\
  (strict = true -> Z.of_nat (List.length (Tracks f)) = NumberOfTracks (Header_ f)).
Proof.
  intros H. pose proof (parse_no_empty_file strict r f r' H) as Hne.
  unfold parse in H.
  destruct (parseHeader r) as [[hdr|e] r1]; [|discriminate].
  destruct (parse_loop strict (Z.to_nat (NumberOfTracks hdr)) 0
              (mkParseState [] false None) r1) as [[st|e] r2] eqn:E; [|discriminate].
  destruct (sawMidiTrack st); [|discriminate].
  cbn [negb] in H. inversion H; subst. clear H.
  apply parse_loop_count in E. cbn [rv_Tracks List.length] in E.
  cbn [Tracks Header_] in *.
  destruct (rv_Tracks st) as [|t ts]; [congruence|]. cbn [List.length] in *.
  destruct E as [E1 E2]. split; [lia|]. intros Hs. specialize (E2 Hs). lia.
Qed.

Lemma parse_track_count_witness :
  1 <= Z.of_nat (List.length (Tracks (mkFile (mkHeader 0 1 0xC0)
                                        [mkTrack [Meta (mkMeta 0x2F None)]])))
    <= NumberOfTracks (Header_ (mkFile (mkHeader 0 1 0xC0)
                                  [mkTrack [Meta (mkMeta 0x2F None)]])) /\
  (true = true ->
   Z.of_nat (List.length (Tracks (mkFile (mkHeader 0 1 0xC0)
                                    [mkTrack [Meta (mkMeta 0x2F None)]])))
   = NumberOfTracks (Header_ (mkFile (mkHeader 0 1 0xC0)
                                [mkTrack [Meta (mkMeta 0x2F None)]]))).
Proof.
  apply (parse_track_count true one_track_file []). reflexivity.
Defined.

Lemma list_eqb_neq (a b : list Z) : a <> b -> list_eqb a b = false.
Proof.
  intros H. destruct (list_eqb a b) eqn:E; [|reflexivity].
  apply list_eqb_eq in E. contradiction.
Qed.

Lemma parseTrack_not_MTrk (tag body rest : list Z) :
  List.length tag = 4%nat -> tag <> MTrk ->
  Z.of_nat (List.length body) < 2 ^ 32 ->
  parseTrack (tag ++ Go.be32 (Z.of_nat (List.length body)) ++ body ++ rest)
  = (NotMidiTrack (UnexpectedLiteral MTrk tag), rest).
Proof.
  intros Ht Hne Hl. unfold parseTrack, readLiteralExpecting.
  change (List.length MTrk) with 4%nat. rewrite <- Ht, Read_body, Ht.
  cbn [Z.of_nat Pos.of_succ_nat Pos.succ Z.eqb Pos.eqb negb].
  rewrite list_eqb_neq by exact Hne. cbn [negb].
  unfold skipSizedChunk. rewrite readUint32_be32 by lia.
  rewrite onReadBytes_body. reflexivity.
Qed.

(** X23.  A chunk with a four-byte tag other than [MTrk] is passed over
    by [parseTrack], which reports it as no MIDI track with the error for
    the tag.  The loop of [parse] then goes on with the next chunk and
    keeps the error of the first such chunk when it is not strict, and
    fails with the error when it is strict. *)
Theorem parseTrack_other_chunk (tag body rest : list Z) (n : nat) (i : Z) (st : parseState) :
  List.length tag = 4%nat -> tag <> MTrk ->
  Z.of_nat (List.length body) < 2 ^ 32 ->
  let chunk := tag ++ Go.be32 (Z.of_nat (List.length body)) ++ body in
  parseTrack (chunk ++ rest) = (NotMidiTrack (UnexpectedLiteral MTrk tag), rest) /\
  parse_loop false (S n) i st (chunk ++ rest)
  = parse_loop false n (i + 1)
      (mkParseState (rv_Tracks st) (sawMidiTrack st)
         (match sawNonMidiTrack st with
          | None => Some (UnexpectedLiteral MTrk tag)
          | Some e => Some e
          end)) rest /\
  parse_loop true (S n) i st (chunk ++ rest)
  = (Err (UnknownChunk (UnexpectedLiteral MTrk tag)), rest).
Proof.
  intros Ht Hne Hl chunk. subst chunk.
  assert (E : parseTrack ((tag ++ Go.be32 (Z.of_nat (List.length body)) ++ body) ++ rest)
              = (NotMidiTrack (UnexpectedLiteral MTrk tag), rest)).
  { rewrite <- !app_assoc. now apply parseTrack_not_MTrk. }
  split; [exact E|]. cbn [parse_loop]. rewrite E. split; reflexivity.
Qed.

Lemma parseTrack_other_chunk_witness :
  let chunk := [0x58; 0x46; 0x49; 0x48] ++ Go.be32 (Z.of_nat (List.length [1; 2; 3]%Z))
                 ++ [1; 2; 3] in
  parseTrack (chunk ++ MTrk)
  = (NotMidiTrack (UnexpectedLiteral MTrk [0x58; 0x46; 0x49; 0x48]), MTrk) /\
  parse_loop false 1 0 (mkParseState [] false None) (chunk ++ MTrk)
  = parse_loop false 0 (0 + 1)
      (mkParseState (rv_Tracks (mkParseState [] false None))
         (sawMidiTrack (mkParseState [] false None))
         (match sawNonMidiTrack (mkParseState [] false None) with
          | None => Some (UnexpectedLiteral MTrk [0x58; 0x46; 0x49; 0x48])
          | Some e => Some e
          end)) MTrk /\
  parse_loop true 1 0 (mkParseState [] false None) (chunk ++ MTrk)
  = (Err (UnknownChunk (UnexpectedLiteral MTrk [0x58; 0x46; 0x49; 0x48])), MTrk).
Proof.
  apply (parseTrack_other_chunk [0x58; 0x46; 0x49; 0x48] [1; 2; 3] MTrk 0 0
           (mkParseState [] false None)).
  - reflexivity.
  - discriminate.
  - cbn. lia.
Defined.

(* ===================================================================== *)
(** ** Whole events fed to the parser *)
(* ===================================================================== *)

Lemma feed_app (a b : list Z) :
  forall p,
    feed p (a ++ b)
    = match feed p a with
      | (p', None) => feed p' b
      | (p', Some e) => (p', Some e)
      end.
Proof.
  induction a as [|x a IH]; intros p; cbn [feed app]; [reflexivity|].
  destruct (feedByte p x) as [p1 [done|e]]; [apply IH|reflexivity].
Qed.

Lemma feed_readSingleEvent_loop (s : list Z) :
  forall p began p',
    readSingleEvent_loop p began s = ((p', Ok tt), []) ->
    feed p s = (p', None).
Proof.
  induction s as [|b s IH]; intros p began p' H;
    cbn [readSingleEvent_loop feed] in *; [discriminate|].
  destruct (feedByte p b) as [p1 [done|e]]; [|discriminate].
  destruct done.
  - inversion H; subst. reflexivity.
  - eapply IH, H.
Qed.

Lemma feed_events (evts : list Event) :
  forall encs p,
    forallb wire_event evts = true ->
    forallb (fun e => negb (isTimeDelta e)) evts = true ->
    Forall2 (fun e enc => EncodeMIDI e = Ok enc) evts encs ->
    ready p -> sysex_idle p ->
    exists p' raws,
      feed p (List.concat encs) = (p', None) /\
      events p' = events p ++ raws /\
      presentEvents raws [] = Ok evts /\
      ready p' /\ sysex_idle p'.
Proof.
  induction evts as [|e evts IH]; intros encs p Hw Hn H2 Hr Hi.
  - inversion H2; subst. exists p, []. cbn [List.concat feed presentEvents].
    rewrite app_nil_r. split; [reflexivity|]. split; [reflexivity|].
    split; [reflexivity|]. split; assumption.
  - inversion H2 as [|? enc ? encs' He H2']; subst.
    cbn [forallb] in Hw, Hn.
    apply andb_true_iff in Hw. destruct Hw as [Hwe Hw].
    apply andb_true_iff in Hn. destruct Hn as [Hne Hn].
    apply negb_true_iff in Hne.
    destruct (readSingleEvent_encoded e p false [] Hwe Hne Hr)
      as (encoded & raw & p1 & Henc & Hread & Hr1 & Hev1 & Hpres1).
    rewrite He in Henc. inversion Henc; subst encoded. clear Henc.
    rewrite app_nil_r in Hread.
    assert (Hi1 : sysex_idle p1).
    { destruct (readSingleEvent_loop_events _ _ _ _ _ Hi Hread) as (? & _ & _ & _ & Hx & _ & _).
      exact Hx. }
    destruct (IH encs' p1 Hw Hn H2' Hr1 Hi1)
      as (p' & raws & Hfeed & Hev & Hpres & Hr' & Hi').
    exists p', (raw :: raws). cbn [List.concat].
    rewrite feed_app, (feed_readSingleEvent_loop _ _ _ _ Hread), Hfeed.
    split; [reflexivity|]. split.
    { rewrite Hev, Hev1, <- app_assoc. reflexivity. }
    split.
    { cbn [presentEvents]. rewrite Hpres1, presentEvents_acc, Hpres. reflexivity. }
    split; assumption.
Qed.

(** X24.  The bytes of whole events, fed to a new parser: when every
    event of a list is in wire form and none is a TimeDelta, [feed] takes
    the encodings of the events one after the other without an error,
    the raw events in the parser are presented as the list, and [finish]
    accepts the parser. *)
Theorem feed_then_finish (evts : list Event) (encs : list (list Z)) :
  forallb wire_event evts = true ->
  forallb (fun e => negb (isTimeDelta e)) evts = true ->
  Forall2 (fun e enc => EncodeMIDI e = Ok enc) evts encs ->
  exists p,
    feed newParser (List.concat encs) = (p, None) /\
    presentEvents (events p) [] = Ok evts /\
    finish p = None.
Proof.
  intros Hw Hn H2.
  destruct (feed_events evts encs newParser Hw Hn H2)
    as (p & raws & Hfeed & Hev & Hpres & [Hs He] & Hi).
  { split; reflexivity. }
  { cbn. split; reflexivity. }
  exists p. split; [exact Hfeed|]. split.
  - rewrite Hev. exact Hpres.
  - unfold finish, sysex_idle in *. rewrite Hs in *. destruct Hi as [-> Hl].
    rewrite He, Hl. reflexivity.
Qed.

Lemma feed_then_finish_witness :
  exists p,
    feed newParser
      (List.concat [[0x90; 0x3C; 0x7F]; [0xFF; 0x05; 0x02; 0x41; 0x42]; [0xF0; 0x01; 0xF7]])
    = (p, None) /\
    presentEvents (events p) []
    = Ok [MIDI (mkMIDI NoteOn 0x90 0 0x3C 0x7F 0 0 0 (Some [0x3C; 0x7F]));
          Meta (mkMeta 0x05 (Some [0x41; 0x42]));
          SysexEvent [0xF0; 0xF7]] /\
    finish p = None.
Proof.
  apply (feed_then_finish
           [MIDI (mkMIDI NoteOn 0x90 0 0x3C 0x7F 0 0 0 (Some [0x3C; 0x7F]));
            Meta (mkMeta 0x05 (Some [0x41; 0x42]));
            SysexEvent [0xF0; 0xF7]]
           [[0x90; 0x3C; 0x7F]; [0xFF; 0x05; 0x02; 0x41; 0x42]; [0xF0; 0x01; 0xF7]]).
  - reflexivity.
  - reflexivity.
  - repeat constructor.
Defined.

(* ===================================================================== *)
(** ** The simple writer *)
(* ===================================================================== *)

Lemma fold_left_append {A} (g : A -> Event) (keys : list A) :
  forall evs,
    fold_left (fun evs key => evs ++ [g key]) keys evs = evs ++ map g keys.
Proof.
  induction keys as [|k keys IH]; intros evs; cbn [fold_left map].
  - now rewrite app_nil_r.
  - rewrite IH, <- app_assoc. reflexivity.
Qed.

Lemma SimpleWriter_Play_events (keys : list Z) (velocity duration : Z) (s : SimpleWriter) :
  sw_events (SimpleWriter_Play keys velocity duration s)
  = sw_events s ++ map (fun key => plain_note NoteOn key velocity) keys
      ++ [TimeDeltaEvent duration]
      ++ map (fun key => plain_note NoteOff key velocity) keys.
Proof.
  unfold SimpleWriter_Play, SimpleWriter_TimeDelta. cbn [sw_events divisions].
  rewrite !fold_left_append, <- !app_assoc. reflexivity.
Qed.

Lemma call_divisions (s : SimpleWriter) (c : writerCall) :
  divisions (call s c) = divisions s.
Proof. destruct c; reflexivity. Qed.

Lemma calls_divisions (calls : list writerCall) :
  forall s, divisions (fold_left call calls s) = divisions s.
Proof.
  induction calls as [|c calls IH]; intros s; cbn [fold_left]; [reflexivity|].
  now rewrite IH, call_divisions.
Qed.

Lemma forallb_map_const {A} (P : Event -> bool) (g : A -> Event) (l : list A) :
  (forall a, P (g a) = true) -> forallb P (map g l) = true.
Proof.
  intros H. induction l as [|a l IH]; cbn [map forallb]; [reflexivity|].
  now rewrite H, IH.
Qed.

Lemma call_encodable (s : SimpleWriter) (c : writerCall) :
  forallb (fun e => is_ok (EncodeMIDI e)) (sw_events s) = true ->
  forallb (fun e => is_ok (EncodeMIDI e)) (sw_events (call s c)) = true.
Proof.
  intros H. destruct c as [keys velocity duration|duration]; cbn [call].
  - rewrite SimpleWriter_Play_events, !forallb_app, H.
    rewrite !forallb_map_const by reflexivity. reflexivity.
  - unfold SimpleWriter_TimeDelta. cbn [sw_events].
    rewrite forallb_app, H. reflexivity.
Qed.

Lemma calls_encodable (calls : list writerCall) :
  forall s,
    forallb (fun e => is_ok (EncodeMIDI e)) (sw_events s) = true ->
    forallb (fun e => is_ok (EncodeMIDI e)) (sw_events (fold_left call calls s)) = true.
Proof.
  induction calls as [|c calls IH]; intros s H; cbn [fold_left]; [exact H|].
  apply IH, call_encodable, H.
Qed.

(** X25.  The encoding in [Write] does not fail on a writer that was
    built with [Play] and [TimeDelta], whatever the keys, velocities and
    durations: [Write] hands to its [io.Writer], which is taken to accept
    them, the header of a format-0 file with one track and the divisions
    of the writer, and one track chunk with the encoded events. *)
Theorem SimpleWriter_Write_succeeds (d : Z) (calls : list writerCall) :
  let s := fold_left call calls (NewSimpleWriter d) in
  exists body,
    encodeEvents (sw_events s) = Ok body /\
    SimpleWriter_Write s
    = Ok (MThd ++ Go.be32 6 ++ Go.be16 0 ++ Go.be16 1 ++ Go.be16 (Go.uint16 d)
            ++ MTrk ++ Go.be32 (Go.uint32 (Z.of_nat (List.length body))) ++ body).
Proof.
  intros s.
  assert (He : forallb (fun e => is_ok (EncodeMIDI e)) (sw_events s) = true)
    by (apply calls_encodable; reflexivity).
  destruct (encodeEvents_loop_ok (sw_events s) 0 0 [] He) as [body Hb].
  exists body. split; [exact Hb|].
  unfold SimpleWriter_Write, File_encode, Header_encode.
  cbn [Header_ Tracks Format NumberOfTracks Division File_encode_tracks].
  unfold Track_encode. cbn [Events]. unfold encodeEvents. rewrite Hb.
  subst s. rewrite calls_divisions. cbn [NewSimpleWriter divisions].
  rewrite <- !app_assoc. reflexivity.
Qed.











(** The track of the witness, as it is read back. *)
Example SimpleWriter_read_back :
  wire_form 0
    (map with_raw_fields
       (sw_events (fold_left call [CallPlay [60; 64] 100 96; CallTimeDelta 24]
                     (NewSimpleWriter 96))))
  = [MIDI (mkMIDI NoteOn 0x90 0 60 100 0 0 0 (Some [60; 100]));
     MIDI (mkMIDI NoteOn 0x90 0 64 100 0 0 0 (Some [64; 100]));
     TimeDeltaEvent 96;
     MIDI (mkMIDI NoteOff 0x80 0 60 100 0 0 0 (Some [60; 100]));
     MIDI (mkMIDI NoteOff 0x80 0 64 100 0 0 0 (Some [64; 100]))].
Proof. reflexivity. Qed.

(* ===================================================================== *)
(** ** Header chunks of any length *)
(* ===================================================================== *)

(** X27.  [parseHeader] takes the header from the first six bytes of the
    header chunk, whatever the length of the chunk: the bytes of a longer
    chunk that follow them are passed over, and a chunk of fewer than six
    bytes is an error, [io.EOF] when it is empty. *)
Theorem parseHeader_chunk_length (body rest : list Z) :
  Z.of_nat (List.length body) < 2 ^ 32 ->
  parseHeader (MThd ++ Go.be32 (Z.of_nat (List.length body)) ++ body ++ rest)
  = match body with
    | b0 :: b1 :: b2 :: b3 :: b4 :: b5 :: _ =>
        (Ok (mkHeader (Go.of_be16 b0 b1) (Go.of_be16 b2 b3)
               (Go.int16 (Go.of_be16 b4 b5))), rest)
    | [] => (Err EOF, rest)
    | _ => (Err UnexpectedEOF, rest)
    end.
Proof.
  intros H. unfold parseHeader.
  rewrite readLiteralExpecting_literal.
  rewrite parseSizedChunk_be32 by (reflexivity || lia).
  do 6 (destruct body as [|? body]; [reflexivity|]). reflexivity.
Qed.

Lemma parseHeader_chunk_length_witness :
  parseHeader (MThd ++ Go.be32 (Z.of_nat (List.length [0; 1; 0; 2; 0; 0xC0; 7; 7]%Z))
                 ++ [0; 1; 0; 2; 0; 0xC0; 7; 7] ++ MTrk)
  = (Ok (mkHeader (Go.of_be16 0 1) (Go.of_be16 0 2) (Go.int16 (Go.of_be16 0 0xC0))), MTrk).
Proof.
  apply (parseHeader_chunk_length [0; 1; 0; 2; 0; 0xC0; 7; 7] MTrk). cbn. lia.
Defined.

(* ===================================================================== *)
(** ** The callback of [OnEvents] *)
(* ===================================================================== *)

Section Callback.

Variable float64 : Type.
Variable float_of_int : Z -> float64.
Variables fadd fmul fdiv : float64 -> float64 -> float64.
Variable callback : float64 -> Event -> option error.

Lemma OnEvents_loop_accepted (ticksPerBeat : Z) (pre : list Event) :
  forall i seconds microsPerBeat rest,
    (forall t x, In x pre -> callback t x = None) ->
    exists seconds' microsPerBeat',
      OnEvents_loop float_of_int fadd fmul fdiv callback ticksPerBeat i seconds
        microsPerBeat (pre ++ rest)
      = OnEvents_loop float_of_int fadd fmul fdiv callback ticksPerBeat
          (i + Z.of_nat (List.length pre)) seconds' microsPerBeat' rest.
Proof.
  induction pre as [|x pre IH]; intros i seconds microsPerBeat rest H.
  - exists seconds, microsPerBeat. cbn [app List.length Z.of_nat].
    now rewrite Z.add_0_r.
  - cbn [app OnEvents_loop]. rewrite (H seconds x) by now left.
    replace (i + Z.of_nat (List.length (x :: pre)))
      with (i + 1 + Z.of_nat (List.length pre)) by (cbn [List.length]; lia).
    destruct x as [td|x|m|m]; try (apply IH; intros; apply H; now right).
    destruct (GetTempo m) as [newTempo ok]. apply IH. intros. apply H. now right.
Qed.

End Callback.

(** X28.  [OnEvents], on a file with a division that is not negative and
    on a track the file has, calls the callback on the events of the
    track in order: when the callback accepts every event, at any time,
    [OnEvents] succeeds, and when it accepts the events in front of one
    it refuses, [OnEvents] fails with the callback's error under the index
    of that event. *)
Theorem OnEvents_first_refused
  (float64 : Type) (float_of_int : Z -> float64)
  (fadd fmul fdiv : float64 -> float64 -> float64)
  (callback : float64 -> Event -> option error)
  (f : File) (trackNo : Z) (trk : Track) (pre : list Event) :
  0 <= Division (Header_ f) ->
  0 <= trackNo ->
  nth_error (Tracks f) (Z.to_nat trackNo) = Some trk ->
  (forall t x, In x pre -> callback t x = None) ->
  (Events trk = pre ->
   exists r, OnEvents float_of_int fadd fmul fdiv f trackNo callback = Ok r) /\
  (forall e post err,
      Events trk = pre ++ e :: post ->
      (forall t, callback t e = Some err) ->
      OnEvents float_of_int fadd fmul fdiv f trackNo callback
      = Err (CallbackError (Z.of_nat (List.length pre)) err)).
Proof.
  intros Hd Ht Hn Hpre.
  assert (Hlen : (Z.to_nat trackNo < List.length (Tracks f))%nat)
    by (apply nth_error_Some; congruence).
  assert (E : forall rest,
            Events trk = pre ++ rest ->
            exists seconds microsPerBeat,
              OnEvents float_of_int fadd fmul fdiv f trackNo callback
              = OnEvents_loop float_of_int fadd fmul fdiv callback
                  (Division (Header_ f)) (Z.of_nat (List.length pre))
                  seconds microsPerBeat rest).
  { intros rest Hev. unfold OnEvents.
    destruct (Z.ltb_spec (Division (Header_ f)) 0); [lia|].
    destruct (Z.ltb_spec trackNo 0); [lia|].
    destruct (Z.geb_spec trackNo (Z.of_nat (List.length (Tracks f)))); [lia|].
    cbn [orb]. rewrite Hn, Hev.
    destruct (OnEvents_loop_accepted float64 float_of_int fadd fmul fdiv callback
                (Division (Header_ f)) pre 0 (float_of_int 0) DefaultTempo rest Hpre)
      as (s' & m' & ->).
    exists s', m'. reflexivity. }
  split.
  - intros Hev. destruct (E [] ltac:(now rewrite app_nil_r)) as (s' & m' & ->).
    eexists. reflexivity.
  - intros e post err Hev He. destruct (E (e :: post) Hev) as (s' & m' & ->).
    cbn [OnEvents_loop]. rewrite He. reflexivity.
Qed.

Lemma OnEvents_first_refused_witness :
  (Events (mkTrack [TimeDeltaEvent 96; plain_note NoteOn 60 100; Meta (mkMeta 0x2F None)])
   = [TimeDeltaEvent 96; plain_note NoteOn 60 100] ->
   exists r,
     OnEvents (fun z => z) Z.add Z.mul Z.div
       (mkFile (mkHeader 0 1 96)
          [mkTrack [TimeDeltaEvent 96; plain_note NoteOn 60 100; Meta (mkMeta 0x2F None)]])
       0 refuse_meta = Ok r) /\
  (forall e post err,
      Events (mkTrack [TimeDeltaEvent 96; plain_note NoteOn 60 100; Meta (mkMeta 0x2F None)])
      = [TimeDeltaEvent 96; plain_note NoteOn 60 100] ++ e :: post ->
      (forall t, refuse_meta t e = Some err) ->
      OnEvents (fun z => z) Z.add Z.mul Z.div
        (mkFile (mkHeader 0 1 96)
           [mkTrack [TimeDeltaEvent 96; plain_note NoteOn 60 100; Meta (mkMeta 0x2F None)]])
        0 refuse_meta
      = Err (CallbackError
               (Z.of_nat (List.length [TimeDeltaEvent 96; plain_note NoteOn 60 100])) err)).
Proof.
  apply (OnEvents_first_refused Z (fun z => z) Z.add Z.mul Z.div refuse_meta
           (mkFile (mkHeader 0 1 96)
              [mkTrack [TimeDeltaEvent 96; plain_note NoteOn 60 100;
                        Meta (mkMeta 0x2F None)]])
           0
           (mkTrack [TimeDeltaEvent 96; plain_note NoteOn 60 100; Meta (mkMeta 0x2F None)])
           [TimeDeltaEvent 96; plain_note NoteOn 60 100]).
  - cbn. lia.
  - lia.
  - reflexivity.
  - intros t x [<-|[<-|[]]]; reflexivity.
Defined.

(** The refused event of the witness is the third of the track. *)
Example OnEvents_refused_index :
  OnEvents (fun z => z) Z.add Z.mul Z.div
    (mkFile (mkHeader 0 1 96)
       [mkTrack [TimeDeltaEvent 96; plain_note NoteOn 60 100; Meta (mkMeta 0x2F None)]])
    0 refuse_meta
  = Err (CallbackError 2 EOF).
Proof. reflexivity. Qed.

(* ===================================================================== *)
(** ** Merged TimeDelta events *)
(* ===================================================================== *)

Lemma uint64_idem (x : Z) : Go.uint64 (Go.uint64 x) = Go.uint64 x.
Proof. unfold Go.uint64. apply Z.mod_mod. lia. Qed.

Lemma uint64_add_int64 (pending td : Z) :
  Go.uint64 (Go.uint64 pending + Go.uint64 td) = Go.uint64 (Go.int64 (pending + td)).
Proof.
  rewrite uint64_int64. unfold Go.uint64.
  rewrite <- Z.add_mod by lia. reflexivity.
Qed.

Lemma encodeEvents_loop_merged (evts : list Event) :
  forall pending i j rv body,
    - 2 ^ 63 <= pending < 2 ^ 63 ->
    encodeEvents_loop i (Go.uint64 pending) rv evts = Ok body ->
    encodeEvents_loop j 0 rv (merge_deltas pending evts) = Ok body /\
    encodeEvents_loop j 0 rv (wire_form pending evts) = Ok body.
Proof.
  induction evts as [|e evts IH]; intros pending i j rv body Hp H.
  - cbn [encodeEvents_loop merge_deltas wire_form] in *.
    destruct (pending =? 0); split; exact H.
  - assert (Hstep : forall enc,
              EncodeMIDI e = Ok enc -> isTimeDelta e = false ->
              encodeEvents_loop (i + 1) 0 ((rv ++ encodeVarint (Go.uint64 pending)) ++ enc)
                evts = Ok body ->
              encodeEvents_loop j 0 rv
                ((if pending =? 0 then [] else [TimeDeltaEvent pending])
                   ++ e :: merge_deltas 0 evts) = Ok body /\
              encodeEvents_loop j 0 rv
                ((if pending =? 0 then [] else [TimeDeltaEvent pending])
                   ++ e :: wire_form 0 evts) = Ok body).
    { intros enc He Hnd Hloop.
      change 0 with (Go.uint64 0) in Hloop at 1.
      destruct (Z.eqb_spec pending 0) as [->|Hnz]; cbn [app].
      - destruct (IH 0 (i + 1) (j + 1) _ body ltac:(lia) Hloop) as [H1 H2].
        destruct e; try discriminate; cbn [encodeEvents_loop]; rewrite He;
          split; assumption.
      - destruct (IH 0 (i + 1) (j + 1 + 1) _ body ltac:(lia) Hloop) as [H1 H2].
        cbn [encodeEvents_loop]. rewrite Z.add_0_l, uint64_idem.
        destruct e; try discriminate; cbn [encodeEvents_loop]; rewrite He;
          split; assumption. }
    destruct e as [td|x|m|m]; cbn [encodeEvents_loop merge_deltas wire_form] in *.
    + rewrite uint64_add_int64 in H.
      apply (IH (Go.int64 (pending + td)) (i + 1) j rv body (int64_range _) H).
    + destruct (EncodeMIDI (SysexEvent x)) as [enc|err] eqn:He; [|discriminate].
      now apply (Hstep enc).
    + destruct (EncodeMIDI (Meta m)) as [enc|err] eqn:He; [|discriminate].
      now apply (Hstep enc).
    + destruct (EncodeMIDI (MIDI m)) as [enc|err] eqn:He; [|discriminate].
      now apply (Hstep enc).
Qed.

(** X29.  The bytes [encodeEvents] writes do not depend on how the
    TimeDelta events are split: when a track is encoded, so is the track
    with every run of TimeDelta events merged into one and the ones of
    value 0 left out, with or without the run at the end of the list, and
    to the same bytes. *)
Theorem encodeEvents_merge_invariant (evts : list Event) (body : list Z) :
  encodeEvents evts = Ok body ->
  encodeEvents (merge_deltas 0 evts) = Ok body /\
  encodeEvents (wire_form 0 evts) = Ok body.
Proof.
  intros H. unfold encodeEvents in *.
  apply (encodeEvents_loop_merged evts 0 0 0 [] body); [lia|exact H].
Qed.

Lemma encodeEvents_merge_invariant_witness :
  encodeEvents (merge_deltas 0 sample_track)
  = Ok [10; 255; 81; 3; 5; 227; 139; 0; 147; 60; 100; 129; 72; 195; 5; 0; 240; 3; 1;
        2; 247; 0; 255; 47; 0] /\
  encodeEvents (wire_form 0 sample_track)
  = Ok [10; 255; 81; 3; 5; 227; 139; 0; 147; 60; 100; 129; 72; 195; 5; 0; 240; 3; 1;
        2; 247; 0; 255; 47; 0].
Proof. apply (encodeEvents_merge_invariant sample_track). reflexivity. Defined.

(* ===================================================================== *)
(** ** The form of a parsed track *)
(* ===================================================================== *)

Lemma land_0x7f_range (b : Z) : 0 <= Z.land b 0x7f < 128.
Proof.
  change 0x7f with (Z.ones 7). rewrite Z.land_ones by lia.
  apply Z.mod_pos_bound. lia.
Qed.

Lemma readVarint_loop_range (s : list Z) :
  forall rv v rest,
    0 <= rv < 2 ^ 64 -> rv mod 128 = 0 ->
    readVarint_loop rv s = (Ok v, rest) ->
    0 <= v < 2 ^ 64.
Proof.
  induction s as [|b s IH]; intros rv v rest Hr Hm H; cbn [readVarint_loop] in H.
  - discriminate.
  - pose proof (land_0x7f_range b) as Hb.
    assert (E : Z.lor rv (Z.land b 127) = rv + Z.land b 127).
    { replace rv with (Z.shiftl (rv / 128) 7) at 1.
      - rewrite lor_shiftl_add by (cbn; lia).
        change (2 ^ 7) with 128. rewrite (Z.div_mod rv 128) at 2 by lia. lia.
      - rewrite Z.shiftl_mul_pow2 by lia. change (2 ^ 7) with 128.
        rewrite (Z.div_mod rv 128) at 2 by lia. lia. }
    rewrite E in H.
    assert (Hv : 0 <= rv + Z.land b 127 < 2 ^ 64).
    { change (2 ^ 64) with 18446744073709551616 in *.
      revert Hm. Z.div_mod_to_equations. lia. }
    destruct (Z.land b 128 =? 0).
    + inversion H; subst. exact Hv.
    + eapply IH; [| |exact H].
      * apply uint64_range.
      * unfold Go.uint64. rewrite Z.shiftl_mul_pow2 by lia.
        change (2 ^ 7) with 128. change (2 ^ 64) with 18446744073709551616.
        Z.div_mod_to_equations. lia.
Qed.

Lemma parseTrackBody_loop_grouped (p : eventDataParser) (s : list Z) :
  forall raws rest,
    sysex_idle p -> grouped (events p) ->
    parseTrackBody_loop p s = (Ok raws, rest) ->
    grouped raws.
Proof.
  funelim (parseTrackBody_loop p s); intros raws rest Hi Hg Hr.
  - destruct (is_EOF e); [|discriminate]. now inversion Hr; subst.
  - match goal with E : readSingleEvent _ _ = _ |- _ => pose proof E as Hread end.
    match goal with E : readVarint _ = _ |- _ => pose proof E as Hvar end.
    match goal with u : unit |- _ => destruct u end.
    apply (readVarint_loop_range s 0 td s1 ltac:(lia) eq_refl) in Hvar.
    assert (Hi' : sysex_idle (if td >? 0 then addTimeDelta td p else p))
      by (destruct (td >? 0); [destruct p|]; exact Hi).
    destruct (readSingleEvent_loop_events _ _ _ _ _ Hi' Hread)
      as (ev & E1 & E2 & _ & E4 & _ & E6).
    eapply H; [exact E4| |exact Hr].
    rewrite E1. destruct (Z.gtb_spec td 0).
    + unfold addTimeDelta, push_event. cbn [events]. rewrite <- app_assoc.
      apply grouped_delta; try assumption. lia.
    + now apply grouped_event.
  - discriminate.
Qed.

Lemma presentEvent_kind (e : event) (E : Event) :
  presentEvent e = Ok E -> kind e <> timeDeltaEvent -> isTimeDelta E = false.
Proof.
  destruct e as [k t d td]. unfold presentEvent. cbn [kind].
  destruct k; intros H Hk; try congruence.
  - repeat match type of H with
           | context [if ?c then _ else _] => destruct c
           | context [match expectLen ?a ?b with _ => _ end] => destruct (expectLen a b)
           end; inversion H; reflexivity.
  - inversion H. reflexivity.
  - inversion H. reflexivity.
Qed.

Lemma merge_deltas_app (a : list Event) :
  forall pending e b,
    isTimeDelta e = false ->
    merge_deltas pending (a ++ e :: b)
    = merge_deltas pending (a ++ [e]) ++ merge_deltas 0 b /\
    wire_form pending (a ++ e :: b)
    = wire_form pending (a ++ [e]) ++ wire_form 0 b.
Proof.
  induction a as [|x a IH]; intros pending e b He; cbn [app].
  - destruct e; try discriminate; cbn [merge_deltas wire_form];
      rewrite <- !app_assoc; split; destruct (Z.eqb pending 0); reflexivity.
  - destruct x as [td|x|m|m]; cbn [merge_deltas wire_form];
      destruct (IH 0 e b He) as [H1 H2];
      try (rewrite H1, H2, <- !app_assoc; split; reflexivity).
    apply IH, He.
Qed.

Lemma grouped_presented (raws : list event) :
  grouped raws ->
  exists evts,
    presentEvents raws [] = Ok evts /\
    merge_deltas 0 evts = evts /\ wire_form 0 evts = evts /\
    (evts = [] \/ exists l e, evts = l ++ [e] /\ isTimeDelta e = false).
Proof.
  induction 1 as [|l e Hg IH Hk He|l td e Hg IH Htd Hk He].
  - exists []. repeat split. now left.
  - destruct IH as (L & HL & Hm & Hw & Hend).
    destruct (presentEvent_emitted e He) as [E HE].
    pose proof (presentEvent_kind e E HE Hk) as HnE.
    exists (L ++ [E]).
    split; [apply presentEvents_app; [exact HL|cbn [presentEvents]; now rewrite HE]|].
    assert (H1 : merge_deltas 0 [E] = [E] /\ wire_form 0 [E] = [E])
      by (destruct E; try discriminate; split; reflexivity).
    destruct H1 as [H1 H2].
    destruct Hend as [->|(l' & e0 & -> & Hn0)].
    + cbn [app]. split; [exact H1|]. split; [exact H2|].
      right. exists [], E. split; [reflexivity|exact HnE].
    + rewrite <- app_assoc. cbn [app].
      destruct (merge_deltas_app l' 0 e0 [E] Hn0) as [-> ->].
      rewrite Hm, Hw, H1, H2. rewrite <- !app_assoc. cbn [app].
      split; [reflexivity|]. split; [reflexivity|].
      right. exists (l' ++ [e0]), E. rewrite <- app_assoc. split; [reflexivity|exact HnE].
  - destruct IH as (L & HL & Hm & Hw & Hend).
    destruct (presentEvent_emitted e He) as [E HE].
    pose proof (presentEvent_kind e E HE Hk) as HnE.
    exists (L ++ [TimeDeltaEvent (Go.int64 td); E]).
    split.
    { apply presentEvents_app; [exact HL|]. cbn [presentEvents presentEvent kind timeDelta].
      rewrite HE. reflexivity. }
    assert (Hnz : Go.int64 td <> 0).
    { unfold Go.int64. change (2 ^ 64) with 18446744073709551616 in *.
      change (2 ^ 63) with 9223372036854775808.
      Z.div_mod_to_equations. lia. }
    assert (Hid : Go.int64 (0 + Go.int64 td) = Go.int64 td).
    { rewrite Z.add_0_l. pose proof (int64_range td).
      unfold Go.int64 at 1. rewrite Z.mod_small by lia. lia. }
    assert (H1 : merge_deltas 0 [TimeDeltaEvent (Go.int64 td); E]
                 = [TimeDeltaEvent (Go.int64 td); E] /\
                 wire_form 0 [TimeDeltaEvent (Go.int64 td); E]
                 = [TimeDeltaEvent (Go.int64 td); E]).
    { cbn [merge_deltas wire_form]. rewrite Hid.
      destruct (Z.eqb_spec (Go.int64 td) 0); [contradiction|].
      destruct E; try discriminate; split; reflexivity. }
    destruct H1 as [H1 H2].
    destruct Hend as [->|(l' & e0 & -> & Hn0)].
    + cbn [app]. split; [exact H1|]. split; [exact H2|].
      right. exists [TimeDeltaEvent (Go.int64 td)], E. split; [reflexivity|exact HnE].
    + rewrite <- app_assoc. cbn [app].
      destruct (merge_deltas_app l' 0 e0 [TimeDeltaEvent (Go.int64 td); E] Hn0) as [-> ->].
      rewrite Hm, Hw, H1, H2. rewrite <- !app_assoc. cbn [app].
      split; [reflexivity|]. split; [reflexivity|].
      right. exists (l' ++ [e0; TimeDeltaEvent (Go.int64 td)]), E.
      rewrite <- app_assoc. split; [reflexivity|exact HnE].
Qed.

(** X30.  A track that was parsed is in merged form, whatever the bytes:
    the events presented from what [parseTrackBody] returns hold no
    TimeDelta of value 0, no two TimeDelta events in a row and none at
    the end, so that merging the TimeDelta events of the list, with or
    without dropping a run at the end, gives the list itself. *)
Theorem parseTrackBody_merged_form (s rest : list Z) (raws : list event)
  (evts : list Event) :
  parseTrackBody s = (Ok raws, rest) ->
  presentEvents raws [] = Ok evts ->
  merge_deltas 0 evts = evts /\ wire_form 0 evts = evts.
Proof.
  intros Hp He. unfold parseTrackBody in Hp.
  apply parseTrackBody_loop_grouped in Hp.
  - destruct (grouped_presented raws Hp) as (evts' & He' & Hm & Hw & _).
    rewrite He in He'. inversion He'; subst evts'. split; assumption.
  - cbn. split; reflexivity.
  - constructor.
Qed.

Lemma parseTrackBody_merged_form_witness :
  merge_deltas 0 [TimeDeltaEvent 10;
                  MIDI (mkMIDI NoteOn 0x90 0 0x3C 0x7F 0 0 0 (Some [0x3C; 0x7F]))]
  = [TimeDeltaEvent 10; MIDI (mkMIDI NoteOn 0x90 0 0x3C 0x7F 0 0 0 (Some [0x3C; 0x7F]))] /\
  wire_form 0 [TimeDeltaEvent 10;
               MIDI (mkMIDI NoteOn 0x90 0 0x3C 0x7F 0 0 0 (Some [0x3C; 0x7F]))]
  = [TimeDeltaEvent 10; MIDI (mkMIDI NoteOn 0x90 0 0x3C 0x7F 0 0 0 (Some [0x3C; 0x7F]))].
Proof.
  apply (parseTrackBody_merged_form [0x0a; 0x90; 0x3C; 0x7F] []
           [mkEvent timeDeltaEvent 0 None 10; mkEvent midiEvent 0x90 (Some [0x3C; 0x7F]) 0]);
    reflexivity.
Defined.
